(** * windborne-viewer: ingestion, normalization, enrichment and risk pipeline

    A shallow embedding of
      - [normalizeRow] and [fetchLast24h]        (src/api/windborne),
      - [fetchWinds], [angleDelta], [computeRisk] (src/api/openmeteo, lib/risk),
      - [toRad], [haversineMeters], [bearingDeg]  (lib/geo),
      - [enrichInBatches], [fmtAge] and [load]    (the App component),
      - the proxy [handler], the request paths and the development proxy
        (api/windborne, vite.config),
      - [sampleByZoom], the playback controls, the windowed tracks, the
        markers, the watchlist and the text of [downloadCSV] (the App
        component),
    followed by the properties the specification states about them and by
    further properties of the code.

    Conventions of the embedding.
      - A JavaScript number is a [num]: an exact rational, or one of NaN,
        +Infinity, -Infinity.  Binary64 rounding, overflow and the sign of
        zero are not represented; arithmetic on finite values is exact.
      - A JavaScript value coming out of [JSON.parse] (or built by the code) is
        a [value].  Strings are sequences of code units.
      - A call that throws is [Throw]; a call that returns is [Normal v].
      - Built-ins whose results the code never inspects structurally (string to
        number, number to string, [toFixed], the trigonometric functions) are
        fields of a [Builtins] record the definitions are parameterised by. *)

From Stdlib Require Import ZArith QArith Qround Qabs Qminmax Lqa Lia.
From Stdlib Require Import List String Ascii Bool Permutation Sorted.
From Stdlib Require Import DecimalString.
Import ListNotations.

Set Implicit Arguments.
Set Warnings "-register-all".

(** ** Numbers *)

Module JSNum.

Inductive num : Type :=
| Fin (q : Q)
| PInf
| NInf
| NaN.

Definition of_Z (z : Z) : num := Fin (inject_Z z).

Definition isFinite (x : num) : bool :=
  match x with Fin _ => true | _ => false end.

Definition isNaN (x : num) : bool :=
  match x with NaN => true | _ => false end.

(** Sign of a rational: [Gt], [Eq] or [Lt] against zero. *)
Definition Qsign (q : Q) : comparison := (q ?= 0)%Q.

Definition neg (x : num) : num :=
  match x with
  | Fin q => Fin (- q)
  | PInf => NInf
  | NInf => PInf
  | NaN => NaN
  end.

Definition add (x y : num) : num :=
  match x, y with
  | NaN, _ | _, NaN => NaN
  | Fin a, Fin b => Fin (a + b)
  | PInf, NInf | NInf, PInf => NaN
  | PInf, _ | _, PInf => PInf
  | NInf, _ | _, NInf => NInf
  end.

Definition sub (x y : num) : num := add x (neg y).

(** Infinity times a finite operand takes the sign of the product; times zero
    it is NaN. *)
Definition mul (x y : num) : num :=
  match x, y with
  | NaN, _ | _, NaN => NaN
  | Fin a, Fin b => Fin (a * b)
  | PInf, PInf | NInf, NInf => PInf
  | PInf, NInf | NInf, PInf => NInf
  | PInf, Fin b | Fin b, PInf =>
      match Qsign b with Gt => PInf | Lt => NInf | Eq => NaN end
  | NInf, Fin b | Fin b, NInf =>
      match Qsign b with Gt => NInf | Lt => PInf | Eq => NaN end
  end.

(** Division.  A finite zero divisor is read as +0. *)
Definition div (x y : num) : num :=
  match x, y with
  | NaN, _ | _, NaN => NaN
  | Fin a, Fin b =>
      match Qsign b with
      | Eq => match Qsign a with Gt => PInf | Lt => NInf | Eq => NaN end
      | _ => Fin (a / b)
      end
  | Fin _, (PInf | NInf) => Fin 0
  | (PInf | NInf), (PInf | NInf) => NaN
  | PInf, Fin b => match Qsign b with Lt => NInf | _ => PInf end
  | NInf, Fin b => match Qsign b with Lt => PInf | _ => NInf end
  end.

(** [x ** 2]. *)
Definition sq (x : num) : num := mul x x.

(** [Math.abs]. *)
Definition abs (x : num) : num :=
  match x with
  | Fin q => Fin (Qabs q)
  | PInf | NInf => PInf
  | NaN => NaN
  end.

(** [Math.min] and [Math.max] of two arguments: NaN is contagious. *)
Definition min (x y : num) : num :=
  match x, y with
  | NaN, _ | _, NaN => NaN
  | NInf, _ | _, NInf => NInf
  | PInf, z | z, PInf => z
  | Fin a, Fin b => Fin (Qmin a b)
  end.

Definition max (x y : num) : num :=
  match x, y with
  | NaN, _ | _, NaN => NaN
  | PInf, _ | _, PInf => PInf
  | NInf, z | z, NInf => z
  | Fin a, Fin b => Fin (Qmax a b)
  end.

(** Truncation toward zero, as an integer. *)
Definition Qtrunc (q : Q) : Z :=
  if Qle_bool 0 q then Qfloor q else Qceiling q.

(** The remainder operator [%]: the result has the sign of the dividend. *)
Definition rem (x y : num) : num :=
  match x, y with
  | NaN, _ | _, NaN => NaN
  | (PInf | NInf), _ => NaN
  | Fin a, (PInf | NInf) => Fin a
  | Fin a, Fin b =>
      match Qsign b with
      | Eq => NaN
      | _ => Fin (a - b * inject_Z (Qtrunc (a / b)))
      end
  end.

(** [Math.round]: the nearest integer, ties toward +Infinity. *)
Definition round (x : num) : num :=
  match x with
  | Fin q => Fin (inject_Z (Qfloor (q + (1 # 2))))
  | other => other
  end.

(** The relational operators [>] and [>=]; false as soon as one side is NaN. *)
Definition gt (x y : num) : bool :=
  match x, y with
  | NaN, _ | _, NaN => false
  | Fin a, Fin b => negb (Qle_bool a b)
  | PInf, PInf => false
  | PInf, _ => true
  | _, NInf => match x with NInf => false | _ => true end
  | _, _ => false
  end.

Definition ge (x y : num) : bool :=
  match x, y with
  | NaN, _ | _, NaN => false
  | Fin a, Fin b => Qle_bool b a
  | PInf, _ => true
  | _, NInf => true
  | _, _ => false
  end.

(** [Math.PI]: the binary64 value nearest to pi, as an exact rational. *)
Definition Math_PI : num := Fin (884279719003555 # 281474976710656).

End JSNum.

Import JSNum.

(** ** Values, completions and the built-in conversions *)

Inductive completion (A : Type) : Type :=
| Normal (a : A)
| Throw.

Arguments Normal {A} a.
Arguments Throw {A}.

Definition bind {A B : Type} (c : completion A) (k : A -> completion B)
  : completion B :=
  match c with
  | Normal a => k a
  | Throw => Throw
  end.

Notation "x <- c ;; k" := (bind c (fun x => k))
  (at level 61, c at next level, right associativity).

Inductive value : Type :=
| VUndefined
| VNull
| VBool (b : bool)
| VNum (n : num)
| VStr (s : string)
| VArr (elems : list value)
| VObj (props : list (string * value)).

(** Built-ins the embedding does not interpret. *)
Record Builtins : Type := {
  StringToNumber : string -> num;       (* Number(s) for a string s *)
  NumberToString : num -> string;       (* String(x), template literals *)
  Number_toFixed : num -> nat -> string;
  Math_sin : num -> num;
  Math_cos : num -> num;
  Math_asin : num -> num;
  Math_sqrt : num -> num;
  Math_atan2 : num -> num -> num
}.

(** Own property of an object created by [JSON.parse] or an object literal:
    [props] lists the properties in creation order, each key once. *)
Fixpoint own {A : Type} (props : list (string * A)) (k : string) : option A :=
  match props with
  | [] => None
  | (k', v) :: rest => if String.eqb k k' then Some v else own rest k
  end.

Definition has_own {A : Type} (props : list (string * A)) (k : string) : bool :=
  match own props k with Some _ => true | None => false end.

(** [o.k] for a key [k] that [Object.prototype] does not define. *)
Definition prop (o : list (string * value)) (k : string) : value :=
  match own o k with Some v => v | None => VUndefined end.

(** [a ?? b], with [b] evaluated only when needed. *)
Definition nullish (v : value) : bool :=
  match v with VUndefined | VNull => true | _ => false end.

Definition coalesce (a b : value) : value := if nullish a then b else a.

Infix "??" := coalesce (at level 45, left associativity).

(** [ToBoolean]. *)
Definition truthy (v : value) : bool :=
  match v with
  | VUndefined | VNull => false
  | VBool b => b
  | VNum (Fin q) => negb (Qeq_bool q 0)
  | VNum NaN => false
  | VNum _ => true
  | VStr s => negb (String.eqb s EmptyString)
  | VArr _ | VObj _ => true
  end.

Fixpoint join_with (sep : string) (parts : list string) : string :=
  match parts with
  | [] => EmptyString
  | [s] => s
  | s :: rest => (s ++ sep ++ join_with sep rest)%string
  end.

Section Conversions.

Variable B : Builtins.

(** [ToString].  A parsed object has no callable own property, so an object
    with an own [toString] key has no usable conversion method left and the
    conversion throws a TypeError; any other object prints through
    [Object.prototype.toString], an array through [Array.prototype.join]. *)
Fixpoint ToString (v : value) : completion string :=
  match v with
  | VUndefined => Normal "undefined"%string
  | VNull => Normal "null"%string
  | VBool true => Normal "true"%string
  | VBool false => Normal "false"%string
  | VNum n => Normal (NumberToString B n)
  | VStr s => Normal s
  | VArr elems =>
      parts <-
        (fix each (l : list value) : completion (list string) :=
           match l with
           | [] => Normal []
           | x :: rest =>
               s <- match x with
                    | VUndefined | VNull => Normal EmptyString
                    | _ => ToString x
                    end ;;
               ss <- each rest ;;
               Normal (s :: ss)
           end) elems ;;
      Normal (join_with "," parts)
  | VObj props =>
      if has_own props "toString" then Throw
      else Normal "[object Object]"%string
  end.

(** [ToNumber], that is [Number(v)] and the coercion of arithmetic operands. *)
Definition ToNumber (v : value) : completion num :=
  match v with
  | VUndefined => Normal NaN
  | VNull => Normal (Fin 0)
  | VBool true => Normal (Fin 1)
  | VBool false => Normal (Fin 0)
  | VNum n => Normal n
  | VStr s => Normal (StringToNumber B s)
  | VArr _ => s <- ToString v ;; Normal (StringToNumber B s)
  | VObj props =>
      if has_own props "toString" then Throw else Normal NaN
  end.

End Conversions.

(** ** Plain objects used as dictionaries

    [byId] and [patch] are plain objects keyed by id.  A [dict] lists the own
    properties in creation order.  Enumeration ([Object.keys],
    [Object.entries]) yields the keys that are array indices first, in
    ascending numeric order, then every other key in creation order. *)

Definition dict (A : Type) : Type := list (string * A).

(** [o[k] = v]: an existing property keeps its place, a new one goes last. *)
Fixpoint dict_set {A : Type} (o : dict A) (k : string) (v : A) : dict A :=
  match o with
  | [] => [(k, v)]
  | (k', v') :: rest =>
      if String.eqb k k' then (k', v) :: rest
      else (k', v') :: dict_set rest k v
  end.

Definition is_digit (c : ascii) : bool :=
  let n := N_of_ascii c in (48 <=? n)%N && (n <=? 57)%N.

Fixpoint digits_value (s : string) (acc : N) : option N :=
  match s with
  | EmptyString => Some acc
  | String c rest =>
      if is_digit c
      then digits_value rest (10 * acc + (N_of_ascii c - 48))%N
      else None
  end.

(** A key is an array index when it is the canonical decimal numeral of an
    integer between 0 and 2^32 - 2. *)
Definition array_index (k : string) : option N :=
  match k with
  | EmptyString => None
  | String c rest =>
      if Ascii.eqb c "0"
      then match rest with EmptyString => Some 0%N | _ => None end
      else match digits_value k 0 with
           | Some n => if (n <? 4294967295)%N then Some n else None
           | None => None
           end
  end.

Fixpoint insert_by_index {A : Type} (x : N * A) (l : list (N * A))
  : list (N * A) :=
  match l with
  | [] => [x]
  | y :: rest =>
      if (fst x <=? fst y)%N then x :: y :: rest
      else y :: insert_by_index x rest
  end.

Definition sort_by_index {A : Type} (l : list (N * A)) : list (N * A) :=
  fold_right (@insert_by_index A) [] l.

(** The entries whose key is an array index, paired with that index. *)
Fixpoint index_entries {A : Type} (o : dict A) : list (N * (string * A)) :=
  match o with
  | [] => []
  | (k, v) :: rest =>
      match array_index k with
      | Some n => (n, (k, v)) :: index_entries rest
      | None => index_entries rest
      end
  end.

Definition named_entries {A : Type} (o : dict A) : list (string * A) :=
  filter (fun kv => match array_index (fst kv) with
                    | Some _ => false
                    | None => true
                    end) o.

Definition Object_entries {A : Type} (o : dict A) : list (string * A) :=
  map snd (sort_by_index (index_entries o)) ++ named_entries o.

Definition Object_keys {A : Type} (o : dict A) : list string :=
  map fst (Object_entries o).

(** The properties every plain object inherits from [Object.prototype]; each of
    them is a function or an object, hence truthy. *)
Definition Object_prototype_keys : list string :=
  [ "constructor"; "__proto__"; "hasOwnProperty"; "isPrototypeOf";
    "propertyIsEnumerable"; "toLocaleString"; "toString"; "valueOf";
    "__defineGetter__"; "__defineSetter__"; "__lookupGetter__";
    "__lookupSetter__" ]%string.

Definition inherited (k : string) : bool :=
  existsb (String.eqb k) Object_prototype_keys.

(** ** Row Normalizer  (api/windborne: [normalizeRow]) *)

Record NPoint : Type := {
  n_id : string;
  n_lat : Q;
  n_lon : Q;
  n_ts : Q
}.

Record Point : Type := {
  lat : Q;
  lon : Q;
  ts : Q
}.

(** [Math.floor(Date.now() / 1000) - hourIndex * 3600], for a clock that reads
    [now] seconds. *)
Definition synth_ts (now : Z) (hourIndex : nat) : Q :=
  inject_Z (now - Z.of_nat hourIndex * 3600).

Definition of_nat (n : nat) : num := of_Z (Z.of_nat n).

Section Normalizer.

Variable B : Builtins.

(** [`b${rowIndex}`] *)
Definition synth_id (rowIndex : nat) : string :=
  ("b" ++ NumberToString B (of_nat rowIndex))%string.

Definition normalizeRow (now : Z) (row : value) (hourIndex rowIndex : nat)
  : completion (option NPoint) :=
  match row with
  | VObj o =>
      let id :=
        prop o "id" ?? prop o "balloon_id" ?? prop o "identifier"
          ?? prop o "name" ?? prop o "ID" ?? VStr (synth_id rowIndex) in
      lat <- ToNumber B (prop o "lat" ?? prop o "latitude") ;;
      lon <- ToNumber B (prop o "lon" ?? prop o "lng" ?? prop o "longitude") ;;
      let tsRaw := prop o "ts" ?? prop o "timestamp" ?? prop o "time" ?? VNull in
      tsNum <- ToNumber B tsRaw ;;
      let ts := match tsNum with
                | Fin t => t
                | _ => synth_ts now hourIndex
                end in
      match lat, lon with
      | Fin la, Fin lo =>
          sid <- ToString B id ;;
          Normal (Some {| n_id := sid; n_lat := la; n_lon := lo; n_ts := ts |})
      | _, _ => Normal None
      end
  | VArr row =>
      if (2 <=? List.length row)%nat then
        lat <- ToNumber B (nth 0 row VUndefined) ;;
        lon <- ToNumber B (nth 1 row VUndefined) ;;
        match lat, lon with
        | Fin la, Fin lo =>
            Normal (Some {| n_id := synth_id rowIndex; n_lat := la;
                            n_lon := lo; n_ts := synth_ts now hourIndex |})
        | _, _ => Normal None
        end
      else Normal None
  | _ => Normal None
  end.

End Normalizer.

(** ** Snapshot Fetcher and Trajectory Builder  (api/windborne: [fetchLast24h]) *)

(** What the transport answers for one hourly document: the request fails, or
    a response arrives with its [ok] flag and a body that parses as JSON
    ([Some v]) or does not ([None]). *)
Inductive http_response : Type :=
| NetworkError
| Response (ok : bool) (body : option value).

(** An entry of [Promise.allSettled]. *)
Inductive settled (A : Type) : Type :=
| Fulfilled (v : A)
| Rejected.

Arguments Fulfilled {A} v.
Arguments Rejected {A}.

(** [fetch(url).then(r => { if (!r.ok) throw ...; return r.json(); })] *)
Definition fetch_json (r : http_response) : settled value :=
  match r with
  | Response true (Some v) => Fulfilled v
  | _ => Rejected
  end.

Record IngestStats : Type := {
  raw : nat;
  kept : nat;
  balloons : nat
}.

(** The variables the two [forEach] loops update. *)
Record ingest : Type := {
  byId : dict (list Point);
  totalRows : nat;
  keptRows : nat
}.

(** [arr.forEach((x, i) => ...)] over a state, left to right, stopping at the
    first call that throws. *)
Fixpoint forEach {A St : Type} (f : St -> A -> nat -> completion St)
    (l : list A) (i : nat) (s : St) : completion St :=
  match l with
  | [] => Normal s
  | x :: rest => s' <- f s x i ;; forEach f rest (S i) s'
  end.

(** [(byId[id] ||= []).push(p)].  The read [byId[id]] also sees the properties
    inherited from [Object.prototype]: for such an id the left side is truthy,
    nothing is assigned, and calling its missing [push] throws a TypeError. *)
Definition push_point (o : dict (list Point)) (id : string) (p : Point)
  : completion (dict (list Point)) :=
  match own o id with
  | Some pts => Normal (dict_set o id (pts ++ [p]))
  | None => if inherited id then Throw else Normal (dict_set o id [p])
  end.

(** [Array.prototype.sort] with the comparator [(a, b) => a.ts - b.ts]: the
    sort is stable, and [b] goes before [a] only when the comparator is
    positive. *)
Definition cmp_positive (a b : Point) : bool := negb (Qle_bool (ts a) (ts b)).

Fixpoint insert_sorted (p : Point) (l : list Point) : list Point :=
  match l with
  | [] => [p]
  | q :: rest =>
      if cmp_positive p q then q :: insert_sorted p rest
      else p :: q :: rest
  end.

Definition sort_by_ts (l : list Point) : list Point :=
  fold_right insert_sorted [] l.

Section Fetcher.

Variable B : Builtins.

(** [`${p.ts}`] *)
Definition ts_key (p : Point) : string := NumberToString B (Fin (ts p)).

(** [.filter(p => { if (seen.has(k)) return false; seen.add(k); return true; })]
    with [seen] the set of keys added so far. *)
Fixpoint filter_seen (seen : list string) (l : list Point) : list Point :=
  match l with
  | [] => []
  | p :: rest =>
      let k := ts_key p in
      if existsb (String.eqb k) seen then filter_seen seen rest
      else p :: filter_seen (k :: seen) rest
  end.

(** The body of the [for (const id of Object.keys(byId))] loop. *)
Definition sort_dedupe (pts : list Point) : list Point :=
  filter_seen [] (sort_by_ts pts).

(** The loop assigns to existing keys only, so each property keeps its place. *)
Definition sort_dedupe_all (o : dict (list Point)) : dict (list Point) :=
  map (fun kv => (fst kv, sort_dedupe (snd kv))) o.

(** The clock: [clock h i] is [Math.floor(Date.now() / 1000)] as read by the
    call [normalizeRow(raw, h, i)]. *)
Variable clock : nat -> nat -> Z.

Definition row_step (hourIdx : nat) (st : ingest) (raw : value) (rowIdx : nat)
  : completion ingest :=
  n <- normalizeRow B (clock hourIdx rowIdx) raw hourIdx rowIdx ;;
  match n with
  | None => Normal st
  | Some n =>
      o <- push_point (byId st) (n_id n)
             {| lat := n_lat n; lon := n_lon n; ts := n_ts n |} ;;
      Normal {| byId := o; totalRows := totalRows st;
                keptRows := S (keptRows st) |}
  end.

Definition hour_step (st : ingest) (res : settled value) (hourIdx : nat)
  : completion ingest :=
  match res with
  | Fulfilled (VArr arr) =>
      forEach (row_step hourIdx) arr 0
        {| byId := byId st; totalRows := totalRows st + List.length arr;
           keptRows := keptRows st |}
  | _ => Normal st
  end.

Definition empty_ingest : ingest :=
  {| byId := []; totalRows := 0; keptRows := 0 |}.

(** The grouping phase over already settled results. *)
Definition group_rows (results : list (settled value)) : completion ingest :=
  forEach hour_step results 0 empty_ingest.

(** [fetchLast24h], given what the upstream answers for each hour index. *)
Definition fetchLast24h (upstream : nat -> http_response)
  : completion (dict (list Point) * IngestStats) :=
  let results := map (fun h => fetch_json (upstream h)) (seq 0 24) in
  st <- group_rows results ;;
  let o := sort_dedupe_all (byId st) in
  Normal (o, {| raw := totalRows st; kept := keptRows st;
                balloons := List.length (Object_keys o) |}).

End Fetcher.

(** ** Geo Math  (lib/geo) and Risk Model  (lib/risk) *)

Section Geo.

Variable B : Builtins.

Definition toRad (deg : num) : num := div (mul deg Math_PI) (Fin 180).

(** Haversine distance in metres between [(lat1, lon1)] and [(lat2, lon2)]. *)
Definition haversineMeters (a b : Point) : num :=
  let R := Fin 6371000 in
  let phi1 := toRad (Fin (lat a)) in
  let phi2 := toRad (Fin (lat b)) in
  let dphi := toRad (sub (Fin (lat b)) (Fin (lat a))) in
  let dlam := toRad (sub (Fin (lon b)) (Fin (lon a))) in
  let x :=
    add (sq (Math_sin B (div dphi (Fin 2))))
        (mul (mul (Math_cos B phi1) (Math_cos B phi2))
             (sq (Math_sin B (div dlam (Fin 2))))) in
  mul (mul (Fin 2) R) (Math_asin B (Math_sqrt B x)).

(** Initial bearing in degrees. *)
Definition bearingDeg (a b : Point) : num :=
  let phi1 := toRad (Fin (lat a)) in
  let phi2 := toRad (Fin (lat b)) in
  let lam1 := toRad (Fin (lon a)) in
  let lam2 := toRad (Fin (lon b)) in
  let y := mul (Math_sin B (sub lam2 lam1)) (Math_cos B phi2) in
  let x :=
    sub (mul (Math_cos B phi1) (Math_sin B phi2))
        (mul (mul (Math_sin B phi1) (Math_cos B phi2))
             (Math_cos B (sub lam2 lam1))) in
  rem (add (div (mul (Math_atan2 B y x) (Fin 180)) Math_PI) (Fin 360))
      (Fin 360).

Definition angleDelta (a b : value) : completion value :=
  if nullish a || nullish b then Normal VUndefined
  else
    x <- ToNumber B a ;;
    y <- ToNumber B b ;;
    let d := rem (abs (sub x y)) (Fin 360) in
    Normal (VNum (if gt d (Fin 180) then sub (Fin 360) d else d)).

Definition computeRisk
    (driftKmh headingDeg dir700 dir500 wind700 wind500 : value)
  : completion value :=
  if nullish driftKmh then Normal VUndefined
  else
    let useDir := dir700 ?? dir500 in
    mismatch <- angleDelta headingDeg useDir ;;
    shear <-
      (if negb (nullish wind700) && negb (nullish wind500)
       then x <- ToNumber B wind700 ;;
            y <- ToNumber B wind500 ;;
            Normal (VNum (abs (sub x y)))
       else Normal VUndefined) ;;
    dk <- ToNumber B driftKmh ;;
    let d := min (div dk (Fin 100)) (Fin 1) in
    m <- (if nullish mismatch then Normal (Fin 0)
          else mm <- ToNumber B mismatch ;;
               Normal (min (div mm (Fin 90)) (Fin 1))) ;;
    s <- (if nullish shear then Normal (Fin 0)
          else sh <- ToNumber B shear ;;
               Normal (min (div sh (Fin 30)) (Fin 1))) ;;
    Normal
      (VNum (round (mul (add (add (mul (Fin (2 # 5)) d) (mul (Fin (2 # 5)) m))
                             (mul (Fin (1 # 5)) s))
                        (Fin 100)))).

End Geo.

(** ** Wind lookup  (api/openmeteo: [fetchWinds]) *)

(** The object [fetchWinds] returns when it reads the series. *)
Record winds : Type := {
  w_wind500 : value;
  w_dir500 : value;
  w_wind700 : value;
  w_dir700 : value
}.

Section Winds.

Variable B : Builtins.

(** [v.k], for a property name [k] that no prototype defines, or [length]. *)
Definition get (v : value) (k : string) : completion value :=
  match v with
  | VUndefined | VNull => Throw
  | VObj o => Normal (prop o k)
  | VArr l =>
      Normal (if String.eqb k "length" then VNum (of_nat (List.length l))
              else VUndefined)
  | VStr s =>
      Normal (if String.eqb k "length" then VNum (of_nat (String.length s))
              else VUndefined)
  | VBool _ | VNum _ => Normal VUndefined
  end.

(** [v?.k] *)
Definition get_opt (v : value) (k : string) : value :=
  if nullish v then VUndefined
  else match get v k with Normal x => x | Throw => VUndefined end.

(** The natural number a property key denotes, when it denotes one. *)
Definition index_of (i : num) : option nat :=
  match i with
  | Fin q =>
      if Qle_bool 0 q && Qeq_bool q (inject_Z (Qfloor q))
      then Some (Z.to_nat (Qfloor q))
      else None
  | _ => None
  end.

(** [v?.[i]] for a number [i]. *)
Definition get_index_opt (v : value) (i : num) : value :=
  match v with
  | VUndefined | VNull => VUndefined
  | VArr l =>
      match index_of i with
      | Some k => nth k l VUndefined
      | None => VUndefined
      end
  | VStr s =>
      match index_of i with
      | Some k =>
          match String.get k s with
          | Some c => VStr (String c EmptyString)
          | None => VUndefined
          end
      | None => VUndefined
      end
  | VObj o => prop o (NumberToString B i)
  | VBool _ | VNum _ => VUndefined
  end.

(** What [try { ... }] computes once the body [j] is at hand. *)
Definition read_winds (j : value) : completion (option winds) :=
  hourly <- get j "hourly" ;;
  let n := get_opt (get_opt hourly "time") "length" ?? VNum (Fin 0) in
  if negb (truthy n) then Normal None
  else
    nn <- ToNumber B n ;;
    let i := sub nn (Fin 1) in
    Normal (Some
      {| w_wind500 := get_index_opt (get_opt hourly "windspeed_500hPa") i;
         w_dir500 := get_index_opt (get_opt hourly "winddirection_500hPa") i;
         w_wind700 := get_index_opt (get_opt hourly "windspeed_700hPa") i;
         w_dir700 := get_index_opt (get_opt hourly "winddirection_700hPa") i |}).

(** [fetchWinds(lat, lon)], given what the transport answers to the request
    the coordinates select.  [None] is the empty object. *)
Definition fetchWinds (r : http_response) : option winds :=
  match r with
  | NetworkError => None
  | Response false _ => None
  | Response true None => None
  | Response true (Some j) =>
      match read_winds j with
      | Normal w => w
      | Throw => None
      end
  end.

End Winds.

(** ** Kinematics, enrichment and merge  (App: [fmtAge], [enrichInBatches], [load]) *)

Definition ENRICH_SUBSET : nat := 50.
Definition ENRICH_BATCH : nat := 25.
Definition STALE_SEC : num := Fin 3600.
Definition GAP_KM : num := Fin 300.

(** A track object.  [driftKmh] and [headingDeg] are a number or undefined,
    [_ageSec] a number or null; a wind field that was never written reads as
    undefined. *)
Record track : Type := {
  id : string;
  points : list Point;
  driftKmh : option num;
  headingDeg : option num;
  risk : value;
  wind700 : value;
  dir700 : value;
  wind500 : value;
  dir500 : value;
  _stale : bool;
  _ageSec : option num;
  _ageLabel : string;
  _gapKm : num;
  _gap : bool
}.

(** The object an enrichment call returns next to the id: [{}] or
    [{ ...winds, risk }].  [None] is a property the object does not have. *)
Record patch_obj : Type := {
  p_winds : option winds;
  p_risk : option value
}.

Definition empty_patch : patch_obj := {| p_winds := None; p_risk := None |}.

Definition opt_value (x : option num) : value :=
  match x with Some n => VNum n | None => VUndefined end.

(** The dash the label shows for an unknown age (U+2014). *)
Definition em_dash : string :=
  String (ascii_of_nat 226) (String (ascii_of_nat 128)
    (String (ascii_of_nat 148) EmptyString)).

(** [points.at(-1)] *)
Definition at_last {A : Type} (l : list A) : option A :=
  match rev l with
  | [] => None
  | x :: _ => Some x
  end.

(** [items.slice(i, j)] *)
Definition slice {A : Type} (i j : nat) (l : list A) : list A :=
  firstn (j - i) (skipn i l).

Fixpoint mapi_from {A C : Type} (f : nat -> A -> C) (i : nat) (l : list A)
  : list C :=
  match l with
  | [] => []
  | x :: rest => f i x :: mapi_from f (S i) rest
  end.

Section App.

Variable B : Builtins.

Definition fmtAge (sec : num) : string :=
  if gt (Fin 90) sec then (NumberToString B (round sec) ++ "s")%string
  else
    let min := div sec (Fin 60) in
    if gt (Fin 90) min then (NumberToString B (round min) ++ "m")%string
    else (Number_toFixed B (div min (Fin 60)) 1 ++ "h")%string.

(** The callback of [Object.entries(byId).map(...)] in [load]. *)
Definition derive (nowSec : Z) (entry : string * list Point) : track :=
  let '(id, points) := entry in
  let ageSec :=
    match at_last points with
    | Some last => Some (max (Fin 0) (sub (of_Z nowSec) (Fin (ts last))))
    | None => None
    end in
  let ageLabel :=
    match ageSec with
    | Some a => fmtAge a
    | None => em_dash
    end in
  let n := List.length points in
  let hop :=
    if (2 <=? n)%nat then
      match nth_error points (n - 2), nth_error points (n - 1) with
      | Some prev, Some last =>
          let distM := haversineMeters B prev last in
          let dtH :=
            max (div (sub (Fin (ts last)) (Fin (ts prev))) (Fin 3600))
                (Fin (1 # 1000000)) in
          Some (div (div distM (Fin 1000)) dtH,
                bearingDeg B prev last,
                div distM (Fin 1000))
      | _, _ => None
      end
    else None in
  let stale :=
    match ageSec with
    | Some a => gt a STALE_SEC
    | None => false
    end in
  {| id := id;
     points := points;
     driftKmh := match hop with Some (d, _, _) => Some d | None => None end;
     headingDeg := match hop with Some (_, h, _) => Some h | None => None end;
     risk := VUndefined;
     wind700 := VUndefined; dir700 := VUndefined;
     wind500 := VUndefined; dir500 := VUndefined;
     _stale := stale;
     _ageSec := ageSec;
     _ageLabel := ageLabel;
     _gapKm := match hop with Some (_, _, g) => g | None => Fin 0 end;
     _gap := match hop with Some (_, _, g) => gt g GAP_KM | None => false end |}.

(** [{ ...tr, ...winds }] read at a wind key. *)
Definition spread_wind (w : option winds) (f : winds -> value) (old : value)
  : value :=
  match w with Some x => f x | None => old end.

(** The async callback of [batch.map] for one item, given what the transport
    answers to its wind request.  A throw inside the callback rejects its
    promise. *)
Definition enrich_one (tr : track) (r : http_response)
  : settled (string * patch_obj) :=
  match at_last (points tr) with
  | None => Fulfilled (id tr, empty_patch)
  | Some last =>
      let w := fetchWinds B r in
      match computeRisk B (opt_value (driftKmh tr)) (opt_value (headingDeg tr))
              (spread_wind w w_dir700 (dir700 tr))
              (spread_wind w w_dir500 (dir500 tr))
              (spread_wind w w_wind700 (wind700 tr))
              (spread_wind w w_wind500 (wind500 tr)) with
      | Normal r => Fulfilled (id tr, {| p_winds := w; p_risk := Some r |})
      | Throw => Rejected
      end
  end.

(** The wind transport: [net k] answers the request of the item at position
    [k] of [items]. *)
Variable net : nat -> http_response.

(** The [for] loop of [enrichInBatches], one list of settled results per
    iteration.  [fuel] bounds the number of iterations the model runs; [None]
    is a loop that has not ended within it. *)
Fixpoint enrich_rounds (fuel : nat) (items : list track) (batchSize i : nat)
  : option (list (list (settled (string * patch_obj)))) :=
  if (i <? List.length items)%nat then
    match fuel with
    | O => None
    | S fuel' =>
        let batch := slice i (i + batchSize) items in
        let res := mapi_from (fun k tr => enrich_one tr (net k)) i batch in
        match enrich_rounds fuel' items batchSize (i + batchSize) with
        | Some more => Some (res :: more)
        | None => None
        end
    end
  else Some [].

(** [enrichInBatches(items, batchSize)]: [out.push(...res)] after each batch. *)
Definition enrichInBatches (items : list track) (batchSize : nat)
  : option (list (settled (string * patch_obj))) :=
  match enrich_rounds (List.length items) items batchSize 0 with
  | Some rounds => Some (List.concat rounds)
  | None => None
  end.

(** [Object.fromEntries(results.filter(r => r.status === "fulfilled")
                              .map(r => r.value))] *)
Fixpoint fulfilled_values {A : Type} (l : list (settled A)) : list A :=
  match l with
  | [] => []
  | Fulfilled v :: rest => v :: fulfilled_values rest
  | Rejected :: rest => fulfilled_values rest
  end.

Definition Object_fromEntries {A : Type} (entries : list (string * A)) : dict A :=
  fold_left (fun o kv => dict_set o (fst kv) (snd kv)) entries [].

(** [{ ...tr, ...(patch[tr.id] ?? {}) }].  When [patch] has no own property
    [tr.id] the read yields undefined or a member of [Object.prototype], and
    spreading either copies no property. *)
Definition merge_patch (patch : dict patch_obj) (tr : track) : track :=
  let p := match own patch (id tr) with
           | Some p => p
           | None => empty_patch
           end in
  {| id := id tr;
     points := points tr;
     driftKmh := driftKmh tr;
     headingDeg := headingDeg tr;
     risk := match p_risk p with Some r => r | None => risk tr end;
     wind700 := spread_wind (p_winds p) w_wind700 (wind700 tr);
     dir700 := spread_wind (p_winds p) w_dir700 (dir700 tr);
     wind500 := spread_wind (p_winds p) w_wind500 (wind500 tr);
     dir500 := spread_wind (p_winds p) w_dir500 (dir500 tr);
     _stale := _stale tr;
     _ageSec := _ageSec tr;
     _ageLabel := _ageLabel tr;
     _gapKm := _gapKm tr;
     _gap := _gap tr |}.

(** Phase 1 of [load]: the list handed to [setTracks]. *)
Definition build_list (nowSec : Z) (o : dict (list Point)) : list track :=
  map (derive nowSec) (Object_entries o).

(** Phase 2 of [load] over the published list: the sample, its enrichment,
    the patch and the merge into the track state. *)
Definition enrich_phase (tracks : list track) : option (list track) :=
  let sample := slice 0 ENRICH_SUBSET tracks in
  match enrichInBatches sample ENRICH_BATCH with
  | Some results =>
      let patch := Object_fromEntries (fulfilled_values results) in
      Some (map (merge_patch patch) tracks)
  | None => None
  end.

(** What one run of [load] leaves in the application state. *)
Record loaded : Type := {
  published : list track;      (* setTracks(list) *)
  ingestStats : IngestStats;   (* setIngestStats(stats) *)
  enriched : list track        (* setTracks(prev => prev.map(...)) *)
}.

Variable clock : nat -> nat -> Z.

Definition load (upstream : nat -> http_response) (nowSec : Z)
  : completion (option loaded) :=
  fetched <- fetchLast24h B clock upstream ;;
  let '(o, stats) := fetched in
  let tracks := build_list nowSec o in
  Normal
    match enrich_phase tracks with
    | Some final =>
        Some {| published := tracks; ingestStats := stats; enriched := final |}
    | None => None
    end.

End App.

(** ** Vocabulary of the specification *)

(** The two values [normalizeRow] converts into latitude and longitude. *)
Definition row_latlon (row : value) : option (value * value) :=
  match row with
  | VObj o =>
      Some (prop o "lat" ?? prop o "latitude",
            prop o "lon" ?? prop o "lng" ?? prop o "longitude")
  | VArr l =>
      if (2 <=? List.length l)%nat
      then Some (nth 0 l VUndefined, nth 1 l VUndefined)
      else None
  | _ => None
  end.

(** The coordinate ranges of the data model. *)
Definition in_range (p : NPoint) : Prop :=
  (-90 <= n_lat p /\ n_lat p <= 90 /\ -180 <= n_lon p /\ n_lon p <= 180)%Q.

(** The template literal [`${p.ts}`] identifies the timestamp: two finite
    numbers print alike exactly when they are equal. *)
Definition key_faithful (B : Builtins) : Prop :=
  forall a b : Q,
    NumberToString B (Fin a) = NumberToString B (Fin b) <-> (a == b)%Q.

Definition ts_le (a b : Point) : Prop := (ts a <= ts b)%Q.
Definition ts_lt (a b : Point) : Prop := (ts a < ts b)%Q.

(** [same_ts q x]: [x] has the timestamp of [q]. *)
Definition same_ts (q x : Point) : bool := Qeq_bool (ts x) (ts q).

(** [q] is the first point of [l], in the order of [l], that has its
    timestamp. *)
Definition first_with_its_ts (q : Point) (l : list Point) : Prop :=
  hd_error (filter (same_ts q) l) = Some q.

(** The risk model in the specification's words.  The circular difference of
    two angles is the absolute difference modulo 360, folded back through
    [360 - d] above 180. *)
Definition circular_difference (a b : Q) : Q :=
  let d := (Qabs (a - b) - 360 * inject_Z (Qfloor (Qabs (a - b) / 360)))%Q in
  if Qle_bool d 180 then d else (360 - d)%Q.

Definition preferred_dir (dir700 dir500 : option Q) : option Q :=
  match dir700 with Some d => Some d | None => dir500 end.

Definition mismatch_deg (heading dir700 dir500 : option Q) : option Q :=
  match heading, preferred_dir dir700 dir500 with
  | Some h, Some d => Some (circular_difference h d)
  | _, _ => None
  end.

Definition shear_of (wind700 wind500 : option Q) : option Q :=
  match wind700, wind500 with
  | Some a, Some b => Some (Qabs (a - b))
  | _, _ => None
  end.

(** [min(x / cap, 1)] *)
Definition capped (x cap : Q) : Q := Qmin (x / cap) 1.

(** [round((0.4 d + 0.4 m + 0.2 s) * 100)], an absent component counting 0. *)
Definition risk_score (drift : Q) (mismatch shear : option Q) : Z :=
  let d := capped drift 100 in
  let m := match mismatch with Some x => capped x 90 | None => 0%Q end in
  let s := match shear with Some x => capped x 30 | None => 0%Q end in
  Qfloor (((2 # 5) * d + (2 # 5) * m + (1 # 5) * s) * 100 + (1 # 2)).

(** The value [v] is the finite number [x], or is absent (null or undefined). *)
Definition reads_as (v : value) (x : option Q) : Prop :=
  match x with
  | Some q => v = VNum (Fin q)
  | None => nullish v = true
  end.

(** Kinematics in the specification's words.  Angles in radians are
    [deg * pi / 180]; the great-circle distance on a sphere of radius [R] is
    the haversine formula; the initial bearing is the atan2 formula, brought
    into [0, 360) through [(theta + 360) mod 360]. *)
Definition radians (deg : Q) : num := div (mul (Fin deg) Math_PI) (Fin 180).

Definition haversine_distance (B : Builtins) (R : Q) (a b : Point) : num :=
  let h :=
    add (sq (Math_sin B (div (radians (lat b - lat a)) (Fin 2))))
        (mul (mul (Math_cos B (radians (lat a))) (Math_cos B (radians (lat b))))
             (sq (Math_sin B (div (radians (lon b - lon a)) (Fin 2))))) in
  mul (Fin (2 * R)) (Math_asin B (Math_sqrt B h)).

Definition haversine_km (B : Builtins) (a b : Point) : num :=
  div (haversine_distance B 6371000 a b) (Fin 1000).

Definition bearing_theta (B : Builtins) (a b : Point) : num :=
  let dlam := sub (radians (lon b)) (radians (lon a)) in
  Math_atan2 B
    (mul (Math_sin B dlam) (Math_cos B (radians (lat b))))
    (sub (mul (Math_cos B (radians (lat a))) (Math_sin B (radians (lat b))))
         (mul (mul (Math_sin B (radians (lat a))) (Math_cos B (radians (lat b))))
              (Math_cos B dlam))).

Definition initial_bearing_deg (B : Builtins) (a b : Point) : num :=
  rem (add (div (mul (bearing_theta B a b) (Fin 180)) Math_PI) (Fin 360))
      (Fin 360).

(** [max((last.ts - prev.ts) / 3600, 1e-6)] *)
Definition elapsed_hours (prev last : Point) : Q :=
  Qmax ((ts last - ts prev) / 3600) (1 # 1000000).

(** [max(0, now - last.ts)] *)
Definition age_seconds (nowSec : Z) (last : Point) : Q :=
  Qmax 0 (inject_Z nowSec - ts last).

(** The value of pi the code uses, as a rational. *)
Definition pi_Q : Q := 884279719003555 # 281474976710656.

(** The wind response in the specification's words: the [hourly] object of a
    body, one of its series, and the entry of a series at a position. *)
Definition hourly_of (j : value) : value :=
  match j with
  | VObj o => prop o "hourly"
  | _ => VUndefined
  end.

Definition series (j : value) (name : string) : value :=
  match hourly_of j with
  | VObj h => prop h name
  | _ => VUndefined
  end.

Definition entry (s : value) (k : nat) : value :=
  match s with
  | VArr l => nth k l VUndefined
  | _ => VUndefined
  end.

(** The fetch in the specification's words.  [rows_of res] is the sequence of
    rows an hour contributes: the body when the fetch succeeded and the body
    is an array, nothing otherwise. *)
Definition rows_of (res : settled value) : list value :=
  match res with
  | Fulfilled (VArr arr) => arr
  | _ => []
  end.

Section FetchVocabulary.

Variable B : Builtins.
Variable clock : nat -> nat -> Z.

(** The calls of [normalizeRow] for hour [h], row by row, and for the hours
    from [h] on, hour by hour. *)
Definition hour_calls (h : nat) (res : settled value)
  : list (completion (option NPoint)) :=
  mapi_from (fun i raw => normalizeRow B (clock h i) raw h i) 0 (rows_of res).

Definition all_calls (h : nat) (results : list (settled value))
  : list (completion (option NPoint)) :=
  List.concat (mapi_from hour_calls h results).

End FetchVocabulary.

(** The points normalization accepted, in encounter order. *)
Fixpoint accepted (calls : list (completion (option NPoint))) : list NPoint :=
  match calls with
  | [] => []
  | Normal (Some n) :: rest => n :: accepted rest
  | _ :: rest => accepted rest
  end.

(** No call throws, and no accepted id names a member of [Object.prototype]. *)
Definition call_ok (c : completion (option NPoint)) : bool :=
  match c with
  | Throw => false
  | Normal None => true
  | Normal (Some n) => negb (inherited (n_id n))
  end.

Definition point_of (n : NPoint) : Point :=
  {| lat := n_lat n; lon := n_lon n; ts := n_ts n |}.

(** The points accepted for one id, in encounter order. *)
Definition points_of_id (id : string) (l : list NPoint) : list Point :=
  map point_of (filter (fun n => String.eqb (n_id n) id) l).

(** The distinct elements of a list, in the order of their first appearance. *)
Fixpoint first_appearances (l : list string) : list string :=
  match l with
  | [] => []
  | x :: rest =>
      x :: filter (fun y => negb (String.eqb y x)) (first_appearances rest)
  end.

(** Grouping without the inherited members: append to the list of the id. *)
Definition push_pure (o : dict (list Point)) (n : NPoint) : dict (list Point) :=
  dict_set o (n_id n)
    match own o (n_id n) with
    | Some pts => pts ++ [point_of n]
    | None => [point_of n]
    end.

Definition group_points (l : list NPoint) : dict (list Point) :=
  fold_left push_pure l [].

(** The creation order of the keys of a dictionary. *)
Definition insertion_order {A : Type} (o : dict A) : list string := map fst o.

(** Batching in the specification's words: [m] items in consecutive groups of
    [b], the last one holding the remainder. *)
Definition group_sizes (b m : nat) : list nat :=
  repeat b (m / b) ++ (if (m mod b =? 0)%nat then [] else [m mod b]).


(** The order of the enrichment calls in time.  [Started k] is the call for
    the item at position [k] being made, [Settled k] its promise settling.
    [batch.map] makes the calls of a batch one after the other, they settle
    in any order, and [await Promise.allSettled] lets the loop go on once
    every one of them has settled. *)
Inductive event : Type :=
| Started (k : nat)
| Settled (k : nat).

Inductive enrich_trace (n batchSize : nat) : nat -> list event -> Prop :=
| trace_end (i : nat) :
    (n <= i)%nat -> enrich_trace n batchSize i []
| trace_batch (i : nat) (order : list nat) (rest : list event) :
    (i < n)%nat ->
    Permutation order (seq i (Nat.min batchSize (n - i))) ->
    enrich_trace n batchSize (i + batchSize) rest ->
    enrich_trace n batchSize i
      (map Started (seq i (Nat.min batchSize (n - i)))
         ++ map Settled order ++ rest).

(** An id is an array index. *)
Definition is_index_key (k : string) : bool :=
  match array_index k with Some _ => true | None => false end.


(** The keys of the dictionary are not members of [Object.prototype]. *)
Definition safe_keys (o : dict (list Point)) : Prop :=
  forall k, In k (insertion_order o) -> inherited k = false.

(** The settled results of the 24 hourly requests. *)
Definition settled_hours (upstream : nat -> http_response) : list (settled value) :=
  map (fun h => fetch_json (upstream h)) (seq 0 24).

(** A sample interpretation of the built-ins, to run the definitions on
    concrete inputs: numbers print as the binary digits of their reduced
    fraction, which tells any two different numbers apart.  The conversions
    from strings and the trigonometric functions are not exercised by the
    examples that use it. *)
Module Sample.

Fixpoint print_pos (p : positive) (k : string) : string :=
  match p with
  | xH => String "1" (String "." k)
  | xO p' => String "0" (print_pos p' k)
  | xI p' => String "1" (print_pos p' k)
  end.

Definition print_Z (z : Z) (k : string) : string :=
  match z with
  | Z0 => String "z" k
  | Zpos p => String "+" (print_pos p k)
  | Zneg p => String "-" (print_pos p k)
  end.

Definition print_Q (q : Q) : string :=
  let r := Qred q in print_Z (Qnum r) (print_pos (Qden r) EmptyString).

Definition print_num (x : num) : string :=
  match x with
  | Fin q => print_Q q
  | PInf => "Infinity"
  | NInf => "-Infinity"
  | NaN => "NaN"
  end.

Definition builtins : Builtins :=
  {| StringToNumber := fun _ => NaN;
     NumberToString := print_num;
     Number_toFixed := fun x _ => print_num x;
     Math_sin := fun _ => NaN;
     Math_cos := fun _ => NaN;
     Math_asin := fun _ => NaN;
     Math_sqrt := fun _ => NaN;
     Math_atan2 := fun _ _ => NaN |}.

(** Sample inputs: a keyed row, and an hour whose 51 rows carry the ids
    [50], [49], ..., [0] in that order. *)
Definition keyed_row (k : string) (t : Q) : value :=
  VObj [("id", VStr k); ("lat", VNum (Fin 1)); ("lon", VNum (Fin 2));
        ("ts", VNum (Fin t))]%string.

Definition decimal (n : nat) : string :=
  NilEmpty.string_of_uint (Nat.to_uint n).

Definition countdown : list nat := rev (seq 0 51).

Definition countdown_upstream (h : nat) : http_response :=
  match h with
  | O => Response true
           (Some (VArr (map (fun n => keyed_row (decimal n) 1) countdown)))
  | _ => NetworkError
  end.

Definition countdown_byId : dict (list Point) :=
  map (fun n => (decimal n, [ {| lat := 1; lon := 2; ts := 1 |} ])) countdown.

(** Ten tracks with one point each. *)
Definition ten_tracks : list track :=
  map (fun n =>
         {| id := decimal n;
            points := [ {| lat := 1; lon := 2; ts := 1 |} ];
            driftKmh := None; headingDeg := None; risk := VUndefined;
            wind700 := VUndefined; dir700 := VUndefined;
            wind500 := VUndefined; dir500 := VUndefined;
            _stale := false; _ageSec := Some (Fin 0); _ageLabel := "0s";
            _gapKm := Fin 0; _gap := false |})
      (seq 0 10).

End Sample.

(** ** Request paths  (api/windborne: [BASE], [hours]; the proxy [handler];
       vite.config: the development proxy) *)

Definition BASE : string := "/api/windborne/treasure".

Definition UPSTREAM_ORIGIN : string := "https://a.windbornesystems.com".

(** [String(i)] for an array index [i]: its decimal numeral. *)
Definition String_of_index (i : nat) : string :=
  NilEmpty.string_of_uint (Nat.to_uint i).

(** The first [n] code units of [cur] followed by [pad], [pad], ... *)
Fixpoint fill_from (pad cur : string) (n : nat) : string :=
  match n with
  | O => EmptyString
  | S n' =>
      match cur with
      | String c rest => String c (fill_from pad rest n')
      | EmptyString =>
          match pad with
          | String c rest => String c (fill_from pad rest n')
          | EmptyString => EmptyString
          end
      end
  end.

(** [s.padStart(n, pad)] *)
Definition padStart (s : string) (n : nat) (pad : string) : string :=
  if (n <=? String.length s)%nat then s
  else (fill_from pad pad (n - String.length s) ++ s)%string.

(** [Array.from({ length: 24 }, (_, i) => String(i).padStart(2, "0"))] *)
Definition hours : list string :=
  map (fun i => padStart (String_of_index i) 2 "0") (seq 0 24).

(** [`${BASE}/${hh}.json`] *)
Definition hour_url (hh : string) : string :=
  (BASE ++ "/" ++ hh ++ ".json")%string.

(** The development proxy: [path.replace(/^\/api\/windborne/, '')]. *)
Definition proxy_rewrite (path : string) : string :=
  if String.prefix "/api/windborne" path
  then String.substring 14 (String.length path - 14) path
  else path.

(** [req.query.path] as the platform parses it: missing, one string, or the
    list of the segments a catch-all route matched. *)
Inductive query_value : Type :=
| QMissing
| QString (s : string)
| QArray (segs : list string).

(** What [fetch(upstream)] followed by [r.arrayBuffer()] gives the handler:
    the request fails, the response arrives but reading its body fails (each
    with the text of the error), or the response arrives with its status, its
    [content-type] header ([None] when it has none) and its body. *)
Inductive upstream_outcome : Type :=
| FetchRejects (error : string)
| BodyRejects (status : nat) (ctype : option string) (error : string)
| Answers (status : nat) (ctype : option string) (body : string).

(** What the handler sends: the upstream response with its three headers, or
    the 502 answer [{ error: "proxy_upstream_failed", message }] of the
    [catch] block. *)
Inductive proxy_response : Type :=
| Forwarded (status : nat) (headers : list (string * string)) (body : string)
| UpstreamFailed (message : string).

(** [`https://a.windbornesystems.com/${path}`], with [path] the joined
    segments of [req.query.path] when that is an array. *)
Definition handler_upstream (query_path : query_value) : string :=
  let path := match query_path with
              | QArray segs => join_with "/" segs
              | _ => EmptyString
              end in
  (UPSTREAM_ORIGIN ++ "/" ++ path)%string.

(** [handler(req, res)], given [req.query.path] and what each URL answers. *)
Definition handler (query_path : query_value) (net : string -> upstream_outcome)
  : proxy_response :=
  match net (handler_upstream query_path) with
  | Answers status ctype body =>
      Forwarded status
        [ ("Content-Type",
           match ctype with
           | Some c =>
               if String.eqb c EmptyString
               then "application/json; charset=utf-8"
               else c
           | None => "application/json; charset=utf-8"
           end);
          ("Cache-Control", "no-store");
          ("Access-Control-Allow-Origin", "*") ]%string
        body
  | FetchRejects e => UpstreamFailed e
  | BodyRejects _ _ e => UpstreamFailed e
  end.

(** How [fetch] in [fetchLast24h] reads an answer: [r.ok] is a status from 200
    to 299, [r.json()] parses the body. *)
Definition status_ok (status : nat) : bool :=
  (200 <=? status)%nat && (status <=? 299)%nat.

Section ClientView.

Variable JSON_parse : string -> option value.

(** The request answered by the upstream itself. *)
Definition direct_view (o : upstream_outcome) : http_response :=
  match o with
  | FetchRejects _ => NetworkError
  | BodyRejects status _ _ => Response (status_ok status) None
  | Answers status _ body => Response (status_ok status) (JSON_parse body)
  end.

(** The request answered by the handler. *)
Definition proxied_view (r : proxy_response) : http_response :=
  match r with
  | Forwarded status _ body => Response (status_ok status) (JSON_parse body)
  | UpstreamFailed m =>
      Response false
        (Some (VObj [("error", VStr "proxy_upstream_failed");
                     ("message", VStr m)]%string))
  end.

End ClientView.

(** ** Presentation  (App: [sampleByZoom], the playback controls, the
       windowed tracks, the markers and the watchlist) *)

(** [x === y] on numbers. *)
Definition strict_eq (x y : num) : bool :=
  match x, y with
  | Fin a, Fin b => Qeq_bool a b
  | PInf, PInf | NInf, NInf => true
  | _, _ => false
  end.

Definition sampleByZoom {A : Type} (tracks : list A) (zoom : num) : list A :=
  let limit :=
    if ge (Fin 2) zoom then 0%nat
    else if strict_eq zoom (Fin 3) then 120%nat
    else if strict_eq zoom (Fin 4) then 300%nat
    else if strict_eq zoom (Fin 5) then 600%nat
    else List.length tracks in
  slice 0 (Nat.min limit (List.length tracks)) tracks.

Definition WATCHLIST_LIMIT : nat := 100.





(** [nowSec - hoursBack * 3600] *)
Definition window_cutoff (nowSec : Z) (hoursBack : num) : num :=
  sub (of_Z nowSec) (mul hoursBack (Fin 3600)).

(** [t.points.filter(p => p.ts >= cutoff)] *)
Definition window_points (cutoff : num) (pts : list Point) : list Point :=
  filter (fun p => ge (Fin (ts p)) cutoff) pts.

(** [{ ...t, _winPts }] *)
Record wtrack : Type := {
  w_track : track;
  _winPts : list Point
}.

Definition nonempty {A : Type} (l : list A) : bool :=
  match l with [] => false | _ :: _ => true end.

Definition tracksWindowed (cutoff : num) (tracks : list track) : list wtrack :=
  map (fun t => {| w_track := t; _winPts := window_points cutoff (points t) |})
      tracks.

(** [pinnedId ? tracks.find(t => t.id === pinnedId) : null]; the empty string
    is falsy. *)
Definition pinned (pinnedId : option string) (tracks : list track)
  : option track :=
  match pinnedId with
  | Some s =>
      if String.eqb s EmptyString then None
      else find (fun t => String.eqb (id t) s) tracks
  | None => None
  end.

Definition pinnedWindowed (pinnedId : option string) (tracks : list track)
    (windowed : list wtrack) : option wtrack :=
  match pinned pinnedId tracks with
  | Some p => find (fun t => String.eqb (id (w_track t)) (id p)) windowed
  | None => None
  end.

Definition baseMarkers (windowed : list wtrack) (zoom : num) : list wtrack :=
  sampleByZoom (filter (fun t => nonempty (_winPts t)) windowed) zoom.

Definition visibleMarkers (pw : option wtrack) (base : list wtrack)
  : list wtrack :=
  match pw with
  | Some p =>
      if nonempty (_winPts p)
         && negb (existsb (fun t => String.eqb (id (w_track t)) (id (w_track p)))
                    base)
      then base ++ [p]
      else base
  | None => base
  end.

(** What one render shows, from the state it reads. *)
Definition render_markers (tracks : list track) (pinnedId : option string)
    (nowSec : Z) (hoursBack zoom : num) : list wtrack :=
  let windowed := tracksWindowed (window_cutoff nowSec hoursBack) tracks in
  visibleMarkers (pinnedWindowed pinnedId tracks windowed)
    (baseMarkers windowed zoom).

Section Presentation.

Variable B : Builtins.

(** [fmtAge(sec)], with [None] for null. *)
Definition fmtAge_label (sec : option num) : string :=
  match sec with
  | None => em_dash
  | Some s => fmtAge B s
  end.

(** The speed and bearing a marker's popup shows: those of the track, or,
    when the window holds two points or more, recomputed from its last two. *)
Definition marker_kinematics (tr : wtrack) : option num * option num :=
  let pts := _winPts tr in
  let n := List.length pts in
  if (2 <=? n)%nat then
    match nth_error pts (n - 2), nth_error pts (n - 1) with
    | Some prev, Some last =>
        let distM := haversineMeters B prev last in
        let dtH :=
          JSNum.max (div (sub (Fin (ts last)) (Fin (ts prev))) (Fin 3600))
                    (Fin (1 # 1000000)) in
        (Some (div (div distM (Fin 1000)) dtH), Some (bearingDeg B prev last))
    | _, _ => (driftKmh (w_track tr), headingDeg (w_track tr))
    end
  else (driftKmh (w_track tr), headingDeg (w_track tr)).

(** [Math.max(0, Math.min(100, Math.round(t.risk ?? 0)))] *)
Definition normRisk (riskv : value) : completion num :=
  r <- ToNumber B (riskv ?? VNum (Fin 0)) ;;
  Normal (JSNum.max (Fin 0) (JSNum.min (Fin 100) (round r))).

(** The comparator [(a, b) => (b.risk ?? -1) - (a.risk ?? -1)]. *)
Definition by_risk (a b : track) : completion num :=
  x <- ToNumber B (risk b ?? VNum (Fin (-1))) ;;
  y <- ToNumber B (risk a ?? VNum (Fin (-1))) ;;
  Normal (sub x y).

(** [Array.prototype.sort] with that comparator: stable, [q] going before
    [t] only when the comparator is positive; a comparator that throws ends
    the sort. *)
Fixpoint insert_by_risk (t : track) (l : list track) : completion (list track) :=
  match l with
  | [] => Normal [t]
  | q :: rest =>
      c <- by_risk t q ;;
      if gt c (Fin 0)
      then r <- insert_by_risk t rest ;; Normal (q :: r)
      else Normal (t :: q :: rest)
  end.

Fixpoint sort_by_risk (l : list track) : completion (list track) :=
  match l with
  | [] => Normal []
  | t :: rest => s <- sort_by_risk rest ;; insert_by_risk t s
  end.

(** [tracks.slice().sort(...).slice(0, WATCHLIST_LIMIT)] *)
Definition watchlist (tracks : list track) : completion (list track) :=
  s <- sort_by_risk tracks ;; Normal (slice 0 WATCHLIST_LIMIT s).

End Presentation.

(** ** CSV export  (App: [downloadCSV], the text it builds) *)

Definition csv_header : list string :=
  ["id"; "lat"; "lon"; "speed_kmh"; "bearing_deg"; "risk"; "stale"]%string.

Section CsvExport.

Variable B : Builtins.

(** The callback of [rows.map]: the line of one row.  [join] prints each
    element with [String], a number through the number-to-string
    conversion. *)
Definition csv_line (r : wtrack) : completion string :=
  let t := w_track r in
  let last :=
    if nonempty (_winPts r) then at_last (_winPts r) else at_last (points t) in
  let lat :=
    match last with
    | Some p => NumberToString B (Fin (lat p))
    | None => EmptyString
    end in
  let lon :=
    match last with
    | Some p => NumberToString B (Fin (lon p))
    | None => EmptyString
    end in
  let speed :=
    match driftKmh t with
    | Some d => Number_toFixed B d 1
    | None => EmptyString
    end in
  let bearing :=
    match headingDeg t with
    | Some h => Number_toFixed B h 1
    | None => EmptyString
    end in
  riskText <- (if nullish (risk t) then Normal EmptyString
               else ToString B (risk t)) ;;
  let stale := if _stale t then "TRUE"%string else "FALSE"%string in
  Normal (join_with "," [id t; lat; lon; speed; bearing; riskText; stale]).

Fixpoint csv_lines (rows : list wtrack) : completion (list string) :=
  match rows with
  | [] => Normal []
  | r :: rest =>
      line <- csv_line r ;;
      more <- csv_lines rest ;;
      Normal (line :: more)
  end.

(** [[header.join(","), ...lines].join("\n")] *)
Definition csv_text (rows : list wtrack) : completion string :=
  lines <- csv_lines rows ;;
  Normal (join_with (String (ascii_of_nat 10) EmptyString)
            (join_with "," csv_header :: lines)).

End CsvExport.

(** ** Vocabulary of the further properties *)

(** The number of markers a whole-number zoom level allows. *)
Definition zoom_limit (z : Z) (len : nat) : nat :=
  if (z <=? 2)%Z then 0
  else if (z =? 3)%Z then Nat.min 120 len
  else if (z =? 4)%Z then Nat.min 300 len
  else if (z =? 5)%Z then Nat.min 600 len
  else len.

(** The number of points a grouped collection holds. *)
Definition total_points (o : dict (list Point)) : nat :=
  list_sum (map (fun kv => List.length (snd kv)) o).

(** The key the watchlist orders by: the risk, or -1 when there is none. *)
Definition rank_of (t : track) : Q :=
  match risk t with
  | VNum (Fin q) => q
  | _ => (-1)%Q
  end.

(** The risk is a finite number or absent. *)
Definition ranked (t : track) : bool :=
  match risk t with
  | VNum (Fin _) | VUndefined | VNull => true
  | _ => false
  end.

Definition rank_ge (a b : track) : Prop := (rank_of b <= rank_of a)%Q.

Definition same_rank (q x : track) : bool := Qeq_bool (rank_of x) (rank_of q).

Module SampleTracks.
Definition with_risk (k : string) (r : value) : track :=
  {| id := k;
     points := [ {| lat := 1; lon := 2; ts := 1 |} ];
     driftKmh := None; headingDeg := None; risk := r;
     wind700 := VUndefined; dir700 := VUndefined;
     wind500 := VUndefined; dir500 := VUndefined;
     _stale := false; _ageSec := Some (Fin 0); _ageLabel := "0s";
     _gapKm := Fin 0; _gap := false |}.
End SampleTracks.

(** A value that is neither an array nor an object. *)
Definition primitive (v : value) : bool :=
  match v with
  | VArr _ | VObj _ => false
  | _ => true
  end.

(** A row all of whose fields, or elements, are primitive. *)
Definition flat_row (row : value) : bool :=
  match row with
  | VObj o => forallb (fun kv => primitive (snd kv)) o
  | VArr l => forallb primitive l
  | _ => true
  end.

(** The number of occurrences of a character in a string. *)
Fixpoint count_char (c : ascii) (s : string) : nat :=
  match s with
  | EmptyString => 0
  | String x rest => (if Ascii.eqb x c then 1 else 0) + count_char c rest
  end.

(** The line feed. *)
Definition LF : ascii := ascii_of_nat 10.

(** The conversions of numbers to text never print the character [c]. *)
Definition prints_without (B : Builtins) (c : ascii) : Prop :=
  (forall n, count_char c (NumberToString B n) = 0%nat)
  /\ (forall n d, count_char c (Number_toFixed B n d) = 0%nat).

(** What the geometry relies on in [Math.sin], [Math.cos], [Math.sqrt] and
    [Math.asin]: they are functions of the number, whichever fraction
    denotes it; the sine is odd and vanishes at 0; the cosine of a finite
    number is finite; the square root and the arc sine vanish at 0. *)
Record trig_facts (B : Builtins) : Prop := {
  sin_ext : forall x y : Q, (x == y)%Q -> Math_sin B (Fin x) = Math_sin B (Fin y);
  cos_ext : forall x y : Q, (x == y)%Q -> Math_cos B (Fin x) = Math_cos B (Fin y);
  sqrt_ext : forall x y : Q, (x == y)%Q -> Math_sqrt B (Fin x) = Math_sqrt B (Fin y);
  sin_odd : forall x : Q, Math_sin B (Fin (- x)) = neg (Math_sin B (Fin x));
  sin_0 : Math_sin B (Fin 0) = Fin 0;
  cos_finite : forall x : Q, exists c : Q, Math_cos B (Fin x) = Fin c;
  sqrt_0 : Math_sqrt B (Fin 0) = Fin 0;
  asin_0 : Math_asin B (Fin 0) = Fin 0
}.

Module SampleTrig.

(** An interpretation that satisfies [trig_facts]: a sphere on which every
    distance is 0. *)
Definition builtins : Builtins :=
  {| StringToNumber := fun _ => NaN;
     NumberToString := Sample.print_num;
     Number_toFixed := fun x _ => Sample.print_num x;
     Math_sin := fun _ => Fin 0;
     Math_cos := fun _ => Fin 1;
     Math_asin := fun _ => Fin 0;
     Math_sqrt := fun _ => Fin 0;
     Math_atan2 := fun _ _ => Fin 0 |}.

End SampleTrig.

(** * Properties *)

Unset Implicit Arguments.

Lemma bind_Normal_inv {A C : Type} (c : completion A) (k : A -> completion C)
    (r : C) :
  bind c k = Normal r -> exists a, c = Normal a /\ k a = Normal r.
Proof. destruct c; simpl; [eauto | discriminate]. Qed.

(** ** Row Normalizer *)

Lemma normalizeRow_coordinates B now row h i p :
  normalizeRow B now row h i = Normal (Some p) ->
  exists latv lonv,
    row_latlon row = Some (latv, lonv) /\
    ToNumber B latv = Normal (Fin (n_lat p)) /\
    ToNumber B lonv = Normal (Fin (n_lon p)).
Proof.
  unfold normalizeRow, row_latlon.
  destruct row as [ | | b | n | s | l | o]; try discriminate.
  - destruct (2 <=? List.length l)%nat; [ | discriminate].
    intros H.
    apply bind_Normal_inv in H as (x & Hx & H).
    apply bind_Normal_inv in H as (y & Hy & H).
    destruct x, y; inversion H; subst; simpl; eauto.
  - intros H.
    apply bind_Normal_inv in H as (x & Hx & H).
    apply bind_Normal_inv in H as (y & Hy & H).
    apply bind_Normal_inv in H as (t & Ht & H).
    destruct x, y; try discriminate.
    apply bind_Normal_inv in H as (sid & Hs & H).
    inversion H; subst; simpl; eauto.
Qed.

Lemma normalizeRow_positional B now l h i p :
  normalizeRow B now (VArr l) h i = Normal (Some p) ->
  n_ts p = synth_ts now h /\ n_id p = synth_id B i.
Proof.
  unfold normalizeRow.
  destruct (2 <=? List.length l)%nat; [ | discriminate].
  intros H.
  apply bind_Normal_inv in H as (x & Hx & H).
  apply bind_Normal_inv in H as (y & Hy & H).
  destruct x, y; inversion H; subst; simpl; eauto.
Qed.

(** C1 (as amended).  A row is accepted exactly on the finiteness of its two
    coordinates: an accepted point carries the finite numbers its latitude and
    longitude values convert to; a row one of whose coordinates does not
    convert to a finite number is never accepted; and no range is checked, a
    positional row with any two finite numbers is accepted with them. *)
Theorem normalizeRow_accepts_finite_coordinates :
  forall (B : Builtins) (now : Z) (h i : nat),
    (forall row p,
        normalizeRow B now row h i = Normal (Some p) ->
        exists latv lonv,
          row_latlon row = Some (latv, lonv) /\
          ToNumber B latv = Normal (Fin (n_lat p)) /\
          ToNumber B lonv = Normal (Fin (n_lon p)))
    /\ (forall row latv lonv,
          row_latlon row = Some (latv, lonv) ->
          (forall q, ToNumber B latv <> Normal (Fin q)) \/
          (forall q, ToNumber B lonv <> Normal (Fin q)) ->
          forall p, normalizeRow B now row h i <> Normal (Some p))
    /\ (forall la lo : Q,
          normalizeRow B now (VArr [VNum (Fin la); VNum (Fin lo)]) h i
          = Normal (Some {| n_id := synth_id B i; n_lat := la; n_lon := lo;
                            n_ts := synth_ts now h |})).
Proof.
  intros B now h i. split; [ | split].
  - intros row p. apply normalizeRow_coordinates.
  - intros row latv lonv Hrow Hbad p Hacc.
    apply normalizeRow_coordinates in Hacc as (latv' & lonv' & Hrow' & Hla & Hlo).
    rewrite Hrow in Hrow'. inversion Hrow'; subst.
    destruct Hbad as [Hbad | Hbad]; eapply Hbad; eassumption.
  - intros la lo. reflexivity.
Qed.

Lemma normalizeRow_accepts_finite_coordinates_witness :
  let row := VObj [("id", VStr "a"); ("latitude", VNum (Fin 45));
                   ("lng", VNum (Fin (-120))); ("time", VNum (Fin 1700000000))]%string in
  let p := {| n_id := "a"; n_lat := 45; n_lon := -120; n_ts := 1700000000 |} in
  (forall B, normalizeRow B 1700003600 row 1 0 = Normal (Some p)) /\
  (forall B, exists latv lonv,
      row_latlon row = Some (latv, lonv) /\
      ToNumber B latv = Normal (Fin 45) /\
      ToNumber B lonv = Normal (Fin (-120))).
Proof.
  split.
  - intros B. reflexivity.
  - intros B.
    destruct (normalizeRow_accepts_finite_coordinates B 1700003600 1 0) as [H _].
    apply (H (VObj [("id", VStr "a"); ("latitude", VNum (Fin 45));
                    ("lng", VNum (Fin (-120)));
                    ("time", VNum (Fin 1700000000))]%string)
             {| n_id := "a"; n_lat := 45; n_lon := -120; n_ts := 1700000000 |}).
    reflexivity.
Defined.

(** C1 (as stated) fails: a keyed row with latitude 100 and longitude 200 is
    accepted, whatever the clock, the hour and the row index. *)
Lemma normalizeRow_accepts_out_of_range :
  exists p,
    (forall B now h i,
        normalizeRow B now
          (VObj [("id", VStr "a"); ("lat", VNum (Fin 100));
                 ("lon", VNum (Fin 200)); ("ts", VNum (Fin 1))]%string) h i
        = Normal (Some p))
    /\ ~ in_range p.
Proof.
  exists {| n_id := "a"; n_lat := 100; n_lon := 200; n_ts := 1 |}.
  split.
  - intros; reflexivity.
  - unfold in_range; simpl. intros (_ & H & _). revert H. apply Qlt_not_le.
    reflexivity.
Qed.

(** C2 (what the code does).  A keyed record with none of the keys [ts],
    [timestamp], [time] gets the timestamp 0: the missing value is replaced by
    [null], which converts to the finite number 0, so the synthesized
    timestamp is never used for it. *)
Theorem normalizeRow_keyed_without_time_key :
  forall (B : Builtins) (now : Z) (o : list (string * value)) (h i : nat)
         (p : NPoint),
    own o "ts"%string = None ->
    own o "timestamp"%string = None ->
    own o "time"%string = None ->
    normalizeRow B now (VObj o) h i = Normal (Some p) ->
    n_ts p = 0%Q.
Proof.
  intros B now o h i p H1 H2 H3 H. unfold normalizeRow in H.
  apply bind_Normal_inv in H as (x & Hx & H).
  apply bind_Normal_inv in H as (y & Hy & H).
  apply bind_Normal_inv in H as (t & Ht & H).
  unfold prop in Ht. rewrite H1, H2, H3 in Ht. simpl in Ht.
  inversion Ht; subst.
  destruct x, y; try discriminate.
  apply bind_Normal_inv in H as (sid & Hs & H).
  inversion H; subst; reflexivity.
Qed.

Lemma normalizeRow_keyed_without_time_key_witness :
  let o := [("id", VStr "a"); ("lat", VNum (Fin 1)); ("lon", VNum (Fin 2))]%string in
  (forall B, normalizeRow B 1700000000 (VObj o) 3 0
             = Normal (Some {| n_id := "a"; n_lat := 1; n_lon := 2; n_ts := 0 |}))
  /\ ~ (synth_ts 1700000000 3 == 0)%Q
  /\ (forall B p, normalizeRow B 1700000000 (VObj o) 3 0 = Normal (Some p) ->
                  n_ts p = 0%Q).
Proof.
  split; [ | split].
  - intros B. reflexivity.
  - intros H. discriminate H.
  - intros B p.
    apply (normalizeRow_keyed_without_time_key B 1700000000
             [("id", VStr "a"); ("lat", VNum (Fin 1)); ("lon", VNum (Fin 2))]%string
             3 0 p); reflexivity.
Defined.

(** The other two cases of C2 hold: a positional row always gets the
    synthesized timestamp, and so does a keyed record whose timestamp value
    does not convert to a finite number. *)
Theorem normalizeRow_synthesizes_timestamp :
  forall (B : Builtins) (now : Z) (h i : nat),
    (forall l p,
        normalizeRow B now (VArr l) h i = Normal (Some p) ->
        n_ts p = synth_ts now h)
    /\ (forall o p tsn,
          ToNumber B (prop o "ts" ?? prop o "timestamp" ?? prop o "time" ?? VNull)
          = Normal tsn ->
          isFinite tsn = false ->
          normalizeRow B now (VObj o) h i = Normal (Some p) ->
          n_ts p = synth_ts now h).
Proof.
  intros B now h i. split.
  - intros l p H. apply (normalizeRow_positional B now l h i p H).
  - intros o p tsn Hts Hfin H. unfold normalizeRow in H.
    apply bind_Normal_inv in H as (x & Hx & H).
    apply bind_Normal_inv in H as (y & Hy & H).
    apply bind_Normal_inv in H as (t & Ht & H).
    rewrite Hts in Ht. inversion Ht; subst t.
    destruct x, y; try discriminate.
    apply bind_Normal_inv in H as (sid & Hs & H).
    inversion H; subst; simpl.
    destruct tsn; [discriminate | reflexivity ..].
Qed.

(** ** The sample number printer is faithful *)

Lemma print_pos_inj p p' k k' :
  Sample.print_pos p k = Sample.print_pos p' k' -> p = p' /\ k = k'.
Proof.
  revert p'. induction p as [p IH | p IH | ]; intros [p' | p' | ]; simpl;
    intros H; inversion H; subst.
  - apply IH in H1 as [-> ->]. now split.
  - destruct p; discriminate.
  - apply IH in H1 as [-> ->]. now split.
  - destruct p'; discriminate.
  - now split.
Qed.

Lemma print_Z_inj z z' k k' :
  Sample.print_Z z k = Sample.print_Z z' k' -> z = z' /\ k = k'.
Proof.
  destruct z, z'; simpl; intros H; inversion H; subst; try now split.
  - apply print_pos_inj in H1 as [-> ->]. now split.
  - apply print_pos_inj in H1 as [-> ->]. now split.
Qed.

Lemma sample_key_faithful : key_faithful Sample.builtins.
Proof.
  intros a b. simpl. unfold Sample.print_Q. split.
  - intros H. apply print_Z_inj in H as [Hn H].
    apply print_pos_inj in H as [Hd _].
    apply Qred_eq_iff.
    destruct (Qred a), (Qred b); simpl in *; congruence.
  - intros H. apply Qred_complete in H. now rewrite H.
Qed.

(** ** Trajectory Builder: the stable sort *)

Lemma cmp_positive_true a b : cmp_positive a b = true <-> (ts b < ts a)%Q.
Proof.
  unfold cmp_positive. rewrite negb_true_iff.
  split; intros H.
  - apply Qnot_le_lt. intros Hle. apply Qle_bool_iff in Hle. congruence.
  - destruct (Qle_bool (ts a) (ts b)) eqn:E; [ | reflexivity].
    apply Qle_bool_iff in E. exfalso. apply (Qlt_not_le _ _ H E).
Qed.

Lemma cmp_positive_false a b : cmp_positive a b = false <-> (ts a <= ts b)%Q.
Proof.
  unfold cmp_positive. rewrite negb_false_iff. apply Qle_bool_iff.
Qed.

Lemma insert_sorted_perm p l : Permutation (insert_sorted p l) (p :: l).
Proof.
  induction l as [ | q l IH]; simpl; [reflexivity | ].
  destruct (cmp_positive p q); [ | reflexivity].
  rewrite IH. apply perm_swap.
Qed.

Lemma sort_by_ts_perm l : Permutation (sort_by_ts l) l.
Proof.
  induction l as [ | p l IH]; simpl; [reflexivity | ].
  unfold sort_by_ts in *. simpl. rewrite insert_sorted_perm. now constructor.
Qed.

Lemma insert_sorted_sorted p l :
  StronglySorted ts_le l -> StronglySorted ts_le (insert_sorted p l).
Proof.
  induction 1 as [ | q l Hs IH Hq]; simpl.
  - repeat constructor.
  - destruct (cmp_positive p q) eqn:E.
    + constructor; [exact IH | ].
      rewrite insert_sorted_perm. constructor; [ | exact Hq].
      apply cmp_positive_true in E. unfold ts_le. now apply Qlt_le_weak.
    + apply cmp_positive_false in E.
      constructor; [now constructor | ].
      constructor; [exact E | ].
      eapply Forall_impl; [ | exact Hq].
      intros r Hr. unfold ts_le in *. eapply Qle_trans; eassumption.
Qed.

Lemma sort_by_ts_sorted l : StronglySorted ts_le (sort_by_ts l).
Proof.
  induction l as [ | p l IH]; [constructor | ].
  apply insert_sorted_sorted, IH.
Qed.

Lemma same_ts_true q x : same_ts q x = true <-> (ts x == ts q)%Q.
Proof. apply Qeq_bool_iff. Qed.

Lemma same_ts_refl q : same_ts q q = true.
Proof. apply same_ts_true. reflexivity. Qed.

(** Stability: points of one timestamp keep their encounter order. *)
Lemma insert_sorted_stable q p l :
  filter (same_ts q) (insert_sorted p l) = filter (same_ts q) (p :: l).
Proof.
  induction l as [ | r l IH]; [reflexivity | ].
  simpl. destruct (cmp_positive p r) eqn:E; [ | reflexivity].
  apply cmp_positive_true in E.
  simpl. rewrite IH. simpl.
  destruct (same_ts q p) eqn:Ep, (same_ts q r) eqn:Er; try reflexivity.
  apply same_ts_true in Ep, Er. exfalso.
  rewrite Ep, Er in E. apply (Qlt_irrefl _ E).
Qed.

Lemma sort_by_ts_stable q l :
  filter (same_ts q) (sort_by_ts l) = filter (same_ts q) l.
Proof.
  induction l as [ | p l IH]; [reflexivity | ].
  change (sort_by_ts (p :: l)) with (insert_sorted p (sort_by_ts l)).
  rewrite insert_sorted_stable. simpl. now rewrite IH.
Qed.

Lemma first_with_its_ts_In q l : first_with_its_ts q l -> In q l.
Proof.
  unfold first_with_its_ts. intros Hf.
  destruct (filter (same_ts q) l) as [ | x xs] eqn:E; [discriminate | ].
  inversion Hf; subst x.
  assert (H : In q (filter (same_ts q) l)) by (rewrite E; now left).
  now apply filter_In in H.
Qed.

(** ** Trajectory Builder: the filter over the set of seen keys *)

Section Dedupe.

Variable B : Builtins.
Hypothesis HB : key_faithful B.

Lemma ts_key_eq p q : ts_key B p = ts_key B q <-> (ts p == ts q)%Q.
Proof. apply HB. Qed.

Lemma existsb_key k seen :
  existsb (String.eqb k) seen = true <-> In k seen.
Proof.
  rewrite existsb_exists. split.
  - intros (x & Hx & E). apply String.eqb_eq in E. now subst.
  - intros H. exists k. split; [exact H | apply String.eqb_refl].
Qed.

Lemma filter_seen_In seen l q :
  In q (filter_seen B seen l) <->
  ~ In (ts_key B q) seen /\ first_with_its_ts q l.
Proof.
  unfold first_with_its_ts.
  revert seen. induction l as [ | p l IH]; intros seen; simpl.
  - split; [tauto | intros (_ & H); discriminate].
  - destruct (existsb (String.eqb (ts_key B p)) seen) eqn:E.
    + apply existsb_key in E. rewrite IH.
      destruct (same_ts q p) eqn:Es; [ | tauto].
      apply same_ts_true in Es. apply ts_key_eq in Es.
      rewrite <- Es. simpl. tauto.
    + assert (Hn : ~ In (ts_key B p) seen).
      { intros H. apply existsb_key in H. congruence. }
      simpl. rewrite IH. simpl.
      destruct (same_ts q p) eqn:Es; simpl.
      * apply same_ts_true in Es. apply ts_key_eq in Es.
        rewrite <- Es. split.
        -- intros [-> | (Hne & _)].
           ++ split; [exact Hn | reflexivity].
           ++ exfalso. apply Hne. now left.
        -- intros (_ & H). inversion H. now left.
      * assert (Hk : ts_key B p <> ts_key B q).
        { intros Hk. apply ts_key_eq in Hk.
          assert (same_ts q p = true) by now apply same_ts_true.
          congruence. }
        split.
        -- intros [-> | (Hq & H)].
           ++ rewrite same_ts_refl in Es. discriminate.
           ++ tauto.
        -- intros (Hq & H). right. tauto.
Qed.

Lemma filter_seen_sorted seen l :
  StronglySorted ts_le l -> StronglySorted ts_lt (filter_seen B seen l).
Proof.
  intros Hs. revert seen.
  induction Hs as [ | p l Hs IH Hp]; intros seen; simpl; [constructor | ].
  destruct (existsb (String.eqb (ts_key B p)) seen); [apply IH | ].
  constructor; [apply IH | ].
  apply Forall_forall. intros q Hq.
  apply filter_seen_In in Hq as (Hk & Hf).
  apply first_with_its_ts_In in Hf.
  rewrite Forall_forall in Hp. specialize (Hp q Hf).
  unfold ts_le in Hp. unfold ts_lt.
  apply Qle_lteq in Hp as [Hlt | Heq]; [exact Hlt | ].
  exfalso. apply Hk. left. now apply ts_key_eq.
Qed.

Lemma sort_dedupe_In pts q :
  In q (sort_dedupe B pts) <-> first_with_its_ts q pts.
Proof.
  unfold sort_dedupe. rewrite filter_seen_In.
  unfold first_with_its_ts. rewrite sort_by_ts_stable. simpl. tauto.
Qed.

Lemma sort_dedupe_keeps_every_ts pts p :
  In p pts -> exists q, In q (sort_dedupe B pts) /\ (ts q == ts p)%Q.
Proof.
  intros Hp.
  destruct (filter (same_ts p) pts) as [ | q rest] eqn:E.
  - assert (H : In p (filter (same_ts p) pts)).
    { apply filter_In. split; [exact Hp | apply same_ts_refl]. }
    rewrite E in H. contradiction.
  - assert (Hq : In q (filter (same_ts p) pts)) by (rewrite E; now left).
    apply filter_In in Hq as (Hq & Hs). apply same_ts_true in Hs.
    exists q. split; [ | exact Hs].
    apply sort_dedupe_In. unfold first_with_its_ts.
    assert (Hext : filter (same_ts q) pts = filter (same_ts p) pts).
    { apply filter_ext. intros x. unfold same_ts.
      destruct (Qeq_bool (ts x) (ts q)) eqn:E1, (Qeq_bool (ts x) (ts p)) eqn:E2;
        try reflexivity; exfalso.
      - apply Qeq_bool_iff in E1.
        assert (Qeq_bool (ts x) (ts p) = true)
          by (apply Qeq_bool_iff; now rewrite E1).
        congruence.
      - apply Qeq_bool_iff in E2.
        assert (Qeq_bool (ts x) (ts q) = true)
          by (apply Qeq_bool_iff; now rewrite E2, Hs).
        congruence. }
    rewrite Hext, E. reflexivity.
Qed.

End Dedupe.

Lemma own_sort_dedupe_all B (g : dict (list Point)) id :
  own (sort_dedupe_all B g) id =
  match own g id with
  | Some pts => Some (sort_dedupe B pts)
  | None => None
  end.
Proof.
  induction g as [ | [k v] g IH]; [reflexivity | ].
  simpl. destruct (String.eqb id k); [reflexivity | exact IH].
Qed.

Lemma keys_sort_dedupe_all B (g : dict (list Point)) :
  map fst (sort_dedupe_all B g) = map fst g.
Proof.
  unfold sort_dedupe_all. rewrite map_map. reflexivity.
Qed.

(** C3.  For every grouped collection [g] and every id with points [pts], the
    builder stores [sort_dedupe pts]: the stable ascending sort of [pts]
    (a permutation, ascending, points of one timestamp in encounter order)
    filtered so that a point is kept exactly when it is the first of [pts]
    with its timestamp; the stored sequence has strictly increasing
    timestamps, and every timestamp of [pts] is still present. *)
Theorem trajectory_builder_sorts_and_dedupes :
  forall (B : Builtins),
    key_faithful B ->
    forall (g : dict (list Point)) (id : string) (pts : list Point),
      own g id = Some pts ->
      exists out,
        own (sort_dedupe_all B g) id = Some out /\
        out = filter_seen B [] (sort_by_ts pts) /\
        Permutation (sort_by_ts pts) pts /\
        StronglySorted ts_le (sort_by_ts pts) /\
        (forall q, filter (same_ts q) (sort_by_ts pts) = filter (same_ts q) pts) /\
        (forall q, In q out <-> first_with_its_ts q (sort_by_ts pts)) /\
        (forall q, In q out <-> first_with_its_ts q pts) /\
        StronglySorted ts_lt out /\
        (forall p, In p pts -> exists q, In q out /\ (ts q == ts p)%Q).
Proof.
  intros B HB g id pts Hown.
  exists (sort_dedupe B pts).
  rewrite own_sort_dedupe_all, Hown.
  repeat split.
  - apply sort_by_ts_perm.
  - apply sort_by_ts_sorted.
  - intros q. apply sort_by_ts_stable.
  - intros H. apply (filter_seen_In B HB) in H as (_ & H). exact H.
  - intros H. apply (filter_seen_In B HB). split; [tauto | exact H].
  - apply (sort_dedupe_In B HB).
  - apply (sort_dedupe_In B HB).
  - apply (filter_seen_sorted B HB), sort_by_ts_sorted.
  - intros p Hp. apply (sort_dedupe_keeps_every_ts B HB pts p Hp).
Qed.

Lemma trajectory_builder_sorts_and_dedupes_witness :
  let p1 := {| lat := 1; lon := 1; ts := 300 |} in
  let p2 := {| lat := 2; lon := 2; ts := 100 |} in
  let p3 := {| lat := 3; lon := 3; ts := 300 |} in
  let p4 := {| lat := 4; lon := 4; ts := 200 |} in
  let g := [("a"%string, [p1; p2; p3; p4])] in
  key_faithful Sample.builtins /\
  own g "a"%string = Some [p1; p2; p3; p4] /\
  sort_dedupe_all Sample.builtins g = [("a"%string, [p2; p4; p1])] /\
  exists out,
    own (sort_dedupe_all Sample.builtins g) "a"%string = Some out /\
    out = filter_seen Sample.builtins [] (sort_by_ts [p1; p2; p3; p4]) /\
    Permutation (sort_by_ts [p1; p2; p3; p4]) [p1; p2; p3; p4] /\
    StronglySorted ts_le (sort_by_ts [p1; p2; p3; p4]) /\
    (forall q, filter (same_ts q) (sort_by_ts [p1; p2; p3; p4])
               = filter (same_ts q) [p1; p2; p3; p4]) /\
    (forall q, In q out <-> first_with_its_ts q (sort_by_ts [p1; p2; p3; p4])) /\
    (forall q, In q out <-> first_with_its_ts q [p1; p2; p3; p4]) /\
    StronglySorted ts_lt out /\
    (forall p, In p [p1; p2; p3; p4] -> exists q, In q out /\ (ts q == ts p)%Q).
Proof.
  cbv zeta.
  split; [exact sample_key_faithful | ].
  split; [reflexivity | ].
  split; [vm_compute; reflexivity | ].
  apply (trajectory_builder_sorts_and_dedupes Sample.builtins
           sample_key_faithful
           [("a"%string, [ {| lat := 1; lon := 1; ts := 300 |};
                           {| lat := 2; lon := 2; ts := 100 |};
                           {| lat := 3; lon := 3; ts := 300 |};
                           {| lat := 4; lon := 4; ts := 200 |} ])]
           "a"%string).
  reflexivity.
Defined.

(** ** Risk Model *)

Section RiskModel.

Local Open Scope Q_scope.

Lemma Qtrunc_nonneg q : 0 <= q -> Qtrunc q = Qfloor q.
Proof. intros H. unfold Qtrunc. apply Qle_bool_iff in H. now rewrite H. Qed.

Lemma Qmod_bounds a :
  0 <= a ->
  0 <= a - 360 * inject_Z (Qfloor (a / 360)) /\
  a - 360 * inject_Z (Qfloor (a / 360)) < 360.
Proof.
  intros Ha.
  pose proof (Qfloor_le (a / 360)) as H1.
  pose proof (Qlt_floor (a / 360)) as H2.
  rewrite inject_Z_plus in H2. simpl inject_Z in H2 at 2.
  set (f := inject_Z (Qfloor (a / 360))) in *.
  assert (E : a == (a / 360) * 360) by (field).
  split.
  - assert (f * 360 <= a / 360 * 360)
      by (apply Qmult_le_compat_r; [exact H1 | lra]).
    lra.
  - assert (a / 360 * 360 < (f + 1) * 360)
      by (apply Qmult_lt_compat_r; [lra | exact H2]).
    lra.
Qed.

Lemma circular_difference_bounds a b :
  0 <= circular_difference a b /\ circular_difference a b <= 180.
Proof.
  unfold circular_difference.
  pose proof (Qmod_bounds (Qabs (a - b)) (Qabs_nonneg _)) as [H1 H2].
  set (d := Qabs (a - b) - 360 * inject_Z (Qfloor (Qabs (a - b) / 360))) in *.
  destruct (Qle_bool d 180) eqn:E.
  - apply Qle_bool_iff in E. lra.
  - assert (~ d <= 180) by (intros H; apply Qle_bool_iff in H; congruence).
    lra.
Qed.

Lemma Qsign_pos b : 0 < b -> Qsign b = Gt.
Proof. intros H. unfold Qsign. now apply Qgt_alt. Qed.

Lemma div_Fin_pos a b : 0 < b -> div (Fin a) (Fin b) = Fin (a / b).
Proof. intros H. unfold div. now rewrite (Qsign_pos b H). Qed.

Lemma rem_Fin_pos a b :
  0 < b -> rem (Fin a) (Fin b) = Fin (a - b * inject_Z (Qtrunc (a / b))).
Proof. intros H. unfold rem. now rewrite (Qsign_pos b H). Qed.

Lemma sub_Fin a b : sub (Fin a) (Fin b) = Fin (a - b).
Proof. reflexivity. Qed.

Arguments add : simpl never.
Arguments sub : simpl never.
Arguments mul : simpl never.
Arguments div : simpl never.
Arguments rem : simpl never.
Arguments JSNum.abs : simpl never.
Arguments JSNum.min : simpl never.
Arguments JSNum.max : simpl never.
Arguments round : simpl never.
Arguments gt : simpl never.

Lemma angleDelta_numbers B (a b : Q) :
  exists q, angleDelta B (VNum (Fin a)) (VNum (Fin b)) = Normal (VNum (Fin q))
            /\ q == circular_difference a b.
Proof.
  unfold angleDelta. simpl.
  rewrite sub_Fin. unfold JSNum.abs.
  rewrite rem_Fin_pos by reflexivity.
  rewrite Qtrunc_nonneg.
  2:{ apply Qle_shift_div_l; [reflexivity | ].
      rewrite Qmult_0_l. apply Qabs_nonneg. }
  unfold circular_difference.
  set (d := Qabs (a - b) - 360 * inject_Z (Qfloor (Qabs (a - b) / 360))).
  unfold gt. destruct (Qle_bool d 180); simpl; eexists; split; reflexivity.
Qed.

Lemma angleDelta_absent B a b :
  nullish a || nullish b = true -> angleDelta B a b = Normal VUndefined.
Proof. intros H. unfold angleDelta. now rewrite H. Qed.

Lemma reads_as_nullish v x :
  reads_as v x ->
  nullish v = match x with Some _ => false | None => true end.
Proof. destruct x; simpl; intros H; [now subst | exact H]. Qed.

Lemma capped_bounds x c :
  0 <= x -> 0 < c -> 0 <= capped x c /\ capped x c <= 1.
Proof.
  intros Hx Hc. unfold capped.
  assert (0 <= x / c).
  { apply Qle_shift_div_l; [exact Hc | ]. now rewrite Qmult_0_l. }
  split.
  - apply Q.min_glb; [exact H | lra].
  - apply Q.le_min_r.
Qed.

Lemma capped_le_1 x c : capped x c <= 1.
Proof. apply Q.le_min_r. Qed.


Lemma capped_proper x y c : x == y -> capped x c == capped y c.
Proof. intros H. unfold capped. now rewrite H. Qed.

Lemma coalesce_reads_as a b x y :
  reads_as a x -> reads_as b y -> reads_as (a ?? b) (preferred_dir x y).
Proof.
  intros Ha Hb. unfold coalesce, preferred_dir.
  destruct x as [q | ]; simpl in Ha.
  - subst a. reflexivity.
  - rewrite Ha. exact Hb.
Qed.

Lemma min_Fin a b : JSNum.min (Fin a) (Fin b) = Fin (Qmin a b).
Proof. reflexivity. Qed.
Lemma mul_Fin a b : mul (Fin a) (Fin b) = Fin (a * b).
Proof. reflexivity. Qed.
Lemma add_Fin a b : add (Fin a) (Fin b) = Fin (a + b).
Proof. reflexivity. Qed.
Lemma round_Fin a : round (Fin a) = Fin (inject_Z (Qfloor (a + (1 # 2)))).
Proof. reflexivity. Qed.

Lemma rounded_eq (e1 e2 : Q) :
  e1 == e2 ->
  @Normal value (VNum (Fin (inject_Z (Qfloor e1))))
  = Normal (VNum (Fin (inject_Z (Qfloor e2)))).
Proof. intros H. now rewrite (Qfloor_comp _ _ H). Qed.

Lemma computeRisk_numbers B dr hv d7v d5v w7v w5v heading d7 d5 w7 w5 :
  reads_as hv heading -> reads_as d7v d7 -> reads_as d5v d5 ->
  reads_as w7v w7 -> reads_as w5v w5 ->
  computeRisk B (VNum (Fin dr)) hv d7v d5v w7v w5v
  = Normal (VNum (of_Z (risk_score dr (mismatch_deg heading d7 d5)
                                   (shear_of w7 w5)))).
Proof.
  intros Hh H7 H5 Hw7 Hw5.
  pose proof (coalesce_reads_as _ _ _ _ H7 H5) as Hdir.
  unfold computeRisk. cbn [nullish].
  assert (Hm : exists mv mq,
             angleDelta B hv (d7v ?? d5v) = Normal mv /\
             reads_as mv mq /\
             match mq, mismatch_deg heading d7 d5 with
             | Some a, Some b => a == b
             | None, None => True
             | _, _ => False
             end).
  { unfold mismatch_deg.
    destruct heading as [h | ], (preferred_dir d7 d5) as [d | ];
      simpl in Hh, Hdir.
    - rewrite Hh, Hdir.
      destruct (angleDelta_numbers B h d) as (q & Hq & Heq).
      exists (VNum (Fin q)), (Some q). now repeat split.
    - exists VUndefined, None. split; [ | now split].
      apply angleDelta_absent. rewrite Hdir. apply orb_true_r.
    - exists VUndefined, None. split; [ | now split].
      apply angleDelta_absent. now rewrite Hh.
    - exists VUndefined, None. split; [ | now split].
      apply angleDelta_absent. now rewrite Hh. }
  destruct Hm as (mv & mq & Hmv & Hmr & Hmq).
  rewrite Hmv. cbn [bind].
  rewrite (reads_as_nullish _ _ Hw7), (reads_as_nullish _ _ Hw5).
  assert (Hs : exists sv,
             (if negb match w7 with Some _ => false | None => true end
                 && negb match w5 with Some _ => false | None => true end
              then x <- ToNumber B w7v ;; y <- ToNumber B w5v ;;
                   Normal (VNum (JSNum.abs (sub x y)))
              else Normal VUndefined) = Normal sv /\
             reads_as sv (shear_of w7 w5)).
  { destruct w7 as [a | ], w5 as [b | ]; simpl in Hw7, Hw5; simpl.
    - subst. exists (VNum (Fin (Qabs (a - b)))). split; reflexivity.
    - exists VUndefined. now split.
    - exists VUndefined. now split.
    - exists VUndefined. now split. }
  destruct Hs as (sv & Hsv & Hsr).
  rewrite Hsv. cbn [bind ToNumber].
  rewrite (reads_as_nullish _ _ Hmr), (reads_as_nullish _ _ Hsr).
  rewrite div_Fin_pos by reflexivity. rewrite min_Fin.
  unfold risk_score, of_Z.
  destruct mq as [a | ], (mismatch_deg heading d7 d5) as [a' | ];
    try contradiction;
    destruct (shear_of w7 w5) as [s | ]; simpl in Hmr, Hsr; subst;
    cbn [bind ToNumber];
    rewrite ?div_Fin_pos by reflexivity;
    rewrite ?min_Fin, ?mul_Fin, ?add_Fin, ?mul_Fin, round_Fin;
    apply rounded_eq; unfold capped;
    try rewrite Hmq; reflexivity.
Qed.


Lemma component_bounds (c : Q) (x : option Q) :
  0 < c -> (forall q, x = Some q -> 0 <= q) ->
  0 <= match x with Some q => capped q c | None => 0 end <= 1.
Proof.
  intros Hc Hx. destruct x as [q | ].
  - apply capped_bounds; [now apply Hx | exact Hc].
  - lra.
Qed.

Lemma risk_score_bounds dr mm sh :
  0 <= dr ->
  (forall q, mm = Some q -> 0 <= q) ->
  (forall q, sh = Some q -> 0 <= q) ->
  (0 <= risk_score dr mm sh <= 100)%Z.
Proof.
  intros Hd Hm Hs. unfold risk_score.
  pose proof (capped_bounds dr 100 Hd eq_refl) as [Hd1 Hd2].
  pose proof (component_bounds 90 mm eq_refl Hm) as [Hm1 Hm2].
  pose proof (component_bounds 30 sh eq_refl Hs) as [Hs1 Hs2].
  set (d := capped dr 100) in *.
  set (m := match mm with Some x => capped x 90 | None => 0 end) in *.
  set (s := match sh with Some x => capped x 30 | None => 0 end) in *.
  clearbody d m s.
  split.
  - apply Z.le_trans with (Qfloor 0); [discriminate | ].
    apply Qfloor_resp_le. lra.
  - apply Z.le_trans with (Qfloor (100 + (1 # 2))); [ | discriminate].
    apply Qfloor_resp_le. lra.
Qed.

Lemma mismatch_deg_nonneg heading d7 d5 q :
  mismatch_deg heading d7 d5 = Some q -> 0 <= q.
Proof.
  unfold mismatch_deg.
  destruct heading as [h | ], (preferred_dir d7 d5) as [d | ];
    try discriminate.
  intros H. replace q with (circular_difference h d) by congruence.
  apply circular_difference_bounds.
Qed.

Lemma shear_of_nonneg w7 w5 q : shear_of w7 w5 = Some q -> 0 <= q.
Proof.
  unfold shear_of. destruct w7 as [a | ], w5 as [b | ]; try discriminate.
  intros H. replace q with (Qabs (a - b)) by congruence. apply Qabs_nonneg.
Qed.








End RiskModel.

(** ** Kinematics and Diagnostics *)

Section Kinematics.

Local Open Scope Q_scope.

Lemma at_last_snoc {A : Type} (l : list A) (x : A) : at_last (l ++ [x]) = Some x.
Proof. unfold at_last. now rewrite rev_app_distr. Qed.

Lemma nth_error_snoc2 {A : Type} (l : list A) (x y : A) :
  nth_error (l ++ [x; y]) (List.length (l ++ [x; y]) - 2) = Some x /\
  nth_error (l ++ [x; y]) (List.length (l ++ [x; y]) - 1) = Some y.
Proof.
  rewrite length_app. simpl.
  replace (List.length l + 2 - 2)%nat with (List.length l + 0)%nat by lia.
  replace (List.length l + 2 - 1)%nat with (List.length l + 1)%nat by lia.
  split; rewrite nth_error_app2 by lia.
  - now replace (List.length l + 0 - List.length l)%nat with 0%nat by lia.
  - now replace (List.length l + 1 - List.length l)%nat with 1%nat by lia.
Qed.

Lemma haversineMeters_formula B a b :
  haversineMeters B a b = haversine_distance B 6371000 a b.
Proof. reflexivity. Qed.

Lemma bearingDeg_formula B a b : bearingDeg B a b = initial_bearing_deg B a b.
Proof. reflexivity. Qed.

Lemma gt_Fin_true a b : gt (Fin a) (Fin b) = true <-> b < a.
Proof.
  unfold gt. rewrite negb_true_iff. split; intros H.
  - apply Qnot_le_lt. intros Hle. apply Qle_bool_iff in Hle. congruence.
  - destruct (Qle_bool a b) eqn:E; [ | reflexivity].
    apply Qle_bool_iff in E. exfalso. apply (Qlt_not_le _ _ H E).
Qed.

Lemma initial_bearing_range B prev last theta :
  bearing_theta B prev last = Fin theta ->
  - pi_Q <= theta <= pi_Q ->
  exists h, initial_bearing_deg B prev last = Fin h /\ 0 <= h < 360.
Proof.
  intros Ht [Hlo Hhi]. unfold initial_bearing_deg. rewrite Ht.
  rewrite mul_Fin. unfold Math_PI.
  rewrite div_Fin_pos by reflexivity. rewrite add_Fin.
  rewrite rem_Fin_pos by reflexivity.
  fold pi_Q.
  set (x := theta * 180 / pi_Q + 360).
  assert (Hx : 0 <= x).
  { unfold x.
    assert (-180 <= theta * 180 / pi_Q).
    { apply Qle_shift_div_l; [reflexivity | ].
      unfold pi_Q in *. lra. }
    lra. }
  rewrite Qtrunc_nonneg.
  2:{ apply Qle_shift_div_l; [reflexivity | ]. now rewrite Qmult_0_l. }
  eexists. split; [reflexivity | ]. apply (Qmod_bounds x Hx).
Qed.

(** C5.  For the points of one id, [derive] computes: over a non-empty
    sequence, the age [max(0, now - last.ts)] and the stale flag, set exactly
    when the age exceeds 3600; over a sequence ending in [prev; last], the
    drift as the haversine distance in km (sphere of radius 6371000 m) over
    [max((last.ts - prev.ts) / 3600, 1e-6)], the heading as the atan2 bearing
    brought into [0, 360), the gap distance as that distance and the gap flag
    as its exceeding 300; over fewer than two points, no drift, no heading, a
    gap distance of 0 and no gap. *)
Theorem derive_kinematics :
  forall (B : Builtins) (nowSec : Z) (oid : string),
    (forall pre last,
        let tr := derive B nowSec (oid, pre ++ [last]) in
        _ageSec tr = Some (Fin (age_seconds nowSec last)) /\
        (_stale tr = true <-> 3600 < age_seconds nowSec last))
    /\ (forall pre prev last,
          let tr := derive B nowSec (oid, pre ++ [prev; last]) in
          driftKmh tr
          = Some (div (haversine_km B prev last) (Fin (elapsed_hours prev last)))
          /\ headingDeg tr = Some (initial_bearing_deg B prev last)
          /\ _gapKm tr = haversine_km B prev last
          /\ _gap tr = gt (haversine_km B prev last) (Fin 300))
    /\ (forall pts,
          let tr := derive B nowSec (oid, pts) in
          (List.length pts < 2)%nat ->
          driftKmh tr = None /\ headingDeg tr = None
          /\ _gapKm tr = Fin 0 /\ _gap tr = false)
    /\ (forall prev last theta,
          bearing_theta B prev last = Fin theta ->
          - pi_Q <= theta <= pi_Q ->
          exists h, initial_bearing_deg B prev last = Fin h /\ 0 <= h < 360)
    /\ (forall prev last, 0 < elapsed_hours prev last)
    /\ (forall pts,
          let tr := derive B nowSec (oid, pts) in
          id tr = oid /\ points tr = pts
          /\ (pts = [] -> _ageSec tr = None /\ _stale tr = false)).
Proof.
  intros B nowSec oid. repeat apply conj.
  - intros pre last tr. subst tr. unfold derive.
    rewrite at_last_snoc. cbn [_ageSec _stale]. split; [reflexivity | ].
    unfold STALE_SEC. apply gt_Fin_true.
  - intros pre prev last tr. subst tr. unfold derive.
    destruct (nth_error_snoc2 pre prev last) as [-> ->].
    assert (Hlen : (2 <=? List.length (pre ++ [prev; last]))%nat = true).
    { apply Nat.leb_le. rewrite length_app. simpl. lia. }
    rewrite Hlen. cbn [driftKmh headingDeg _gapKm _gap].
    repeat split; reflexivity.
  - intros pts tr Hlen. subst tr. unfold derive.
    assert (E : (2 <=? List.length pts)%nat = false)
      by (apply Nat.leb_gt; exact Hlen).
    rewrite E. repeat split; reflexivity.
  - apply initial_bearing_range.
  - intros prev last. unfold elapsed_hours.
    apply Qlt_le_trans with (1 # 1000000); [reflexivity | apply Q.le_max_r].
  - intros pts tr. subst tr. unfold derive. repeat split.
    + subst pts. reflexivity.
    + subst pts. reflexivity.
Qed.

Lemma derive_kinematics_witness :
  let prev := {| lat := 0; lon := 0; ts := 1000 |} in
  let last := {| lat := 0; lon := 1; ts := 4600 |} in
  (forall B,
      _ageSec (derive B 10000 ("a"%string, [prev; last])) = Some (Fin 5400)
      /\ _stale (derive B 10000 ("a"%string, [prev; last])) = true
      /\ driftKmh (derive B 10000 ("a"%string, [prev; last]))
         = Some (div (haversine_km B prev last)
                     (Fin (elapsed_hours prev last)))
      /\ elapsed_hours prev last == 1)
  /\ (forall B, driftKmh (derive B 10000 ("a"%string, [last])) = None).
Proof.
  cbv zeta. split.
  - intros B.
    destruct (derive_kinematics B 10000 "a"%string) as (Hage & Hhop & _).
    destruct (Hage [ {| lat := 0; lon := 0; ts := 1000 |} ]
                   {| lat := 0; lon := 1; ts := 4600 |}) as [Ha Hs].
    destruct (Hhop [] {| lat := 0; lon := 0; ts := 1000 |}
                   {| lat := 0; lon := 1; ts := 4600 |}) as (Hd & _).
    cbn [app] in Ha, Hs, Hd.
    split; [ | split; [ | split]].
    + rewrite Ha. reflexivity.
    + apply Hs. reflexivity.
    + exact Hd.
    + reflexivity.
  - intros B.
    destruct (derive_kinematics B 10000 "a"%string) as (_ & _ & Hfew & _).
    apply (Hfew [ {| lat := 0; lon := 1; ts := 4600 |} ]). simpl. lia.
Defined.

End Kinematics.

(** ** Wind lookup *)

Section WindLookup.

Local Open Scope Q_scope.

Lemma index_of_pred_succ k : index_of (sub (of_nat (S k)) (Fin 1)) = Some k.
Proof.
  unfold of_nat, of_Z. rewrite sub_Fin. unfold index_of.
  assert (E : inject_Z (Z.of_nat (S k)) - 1 == inject_Z (Z.of_nat k)).
  { rewrite Nat2Z.inj_succ. unfold Z.succ. rewrite inject_Z_plus.
    change (inject_Z 1) with 1. ring. }
  assert (Hf : Qfloor (inject_Z (Z.of_nat (S k)) - 1) = Z.of_nat k).
  { rewrite (Qfloor_comp _ _ E). apply Qfloor_Z. }
  rewrite Hf.
  assert (H1 : Qle_bool 0 (inject_Z (Z.of_nat (S k)) - 1) = true).
  { apply Qle_bool_iff. rewrite E. change 0 with (inject_Z 0).
    rewrite <- Zle_Qle. lia. }
  assert (H2 : Qeq_bool (inject_Z (Z.of_nat (S k)) - 1) (inject_Z (Z.of_nat k))
               = true) by (apply Qeq_bool_iff; exact E).
  rewrite H1, H2. simpl. now rewrite Nat2Z.id.
Qed.

Lemma truthy_length_succ k : truthy (VNum (of_nat (S k))) = true.
Proof.
  unfold truthy, of_nat, of_Z. rewrite negb_true_iff.
  destruct (Qeq_bool (inject_Z (Z.of_nat (S k))) 0) eqn:E; [ | reflexivity].
  apply Qeq_bool_iff in E.
  apply (inject_Z_injective (Z.of_nat (S k)) 0) in E. lia.
Qed.

Lemma get_index_opt_entry B s k :
  match s with VArr _ | VUndefined | VNull => True | _ => False end ->
  get_index_opt B s (sub (of_nat (S k)) (Fin 1)) = entry s k.
Proof.
  destruct s; cbn [get_index_opt entry]; try contradiction; intros _;
    try reflexivity.
  now rewrite index_of_pred_succ.
Qed.

Lemma get_hourly j :
  nullish j = false -> get j "hourly" = Normal (hourly_of j).
Proof. destruct j; simpl; intros H; try discriminate; reflexivity. Qed.

Lemma get_opt_series j name :
  String.eqb name "length" = false ->
  get_opt (hourly_of j) name = series j name.
Proof.
  intros Hn. unfold series, get_opt.
  destruct (hourly_of j); simpl; try reflexivity; now rewrite Hn.
Qed.

Lemma series_present j name v :
  series j name = v -> nullish v = false -> nullish j = false.
Proof.
  unfold series, hourly_of. destruct j; simpl; intros <-; auto.
Qed.

(** C7.  [fetchWinds] returns the empty object when the request throws, when
    the status is not a success, when the body is not JSON, and when the
    hourly time series is missing or empty; it never throws.  When the time
    series is a non-empty array, each field is read from its series at index
    [length(time) - 1]; for a series that is an array (or is missing) that is
    the entry at that position. *)
Theorem fetchWinds_empty_or_last_entry :
  forall B : Builtins,
    fetchWinds B NetworkError = None
    /\ (forall body, fetchWinds B (Response false body) = None)
    /\ fetchWinds B (Response true None) = None
    /\ (forall j,
          nullish (series j "time") = true \/ series j "time" = VArr [] ->
          fetchWinds B (Response true (Some j)) = None)
    /\ (forall j t times,
          series j "time" = VArr (t :: times) ->
          let i := sub (of_nat (List.length (t :: times))) (Fin 1) in
          fetchWinds B (Response true (Some j))
          = Some {| w_wind500 := get_index_opt B (series j "windspeed_500hPa") i;
                    w_dir500 := get_index_opt B (series j "winddirection_500hPa") i;
                    w_wind700 := get_index_opt B (series j "windspeed_700hPa") i;
                    w_dir700 := get_index_opt B (series j "winddirection_700hPa") i |})
    /\ (forall s k,
          match s with VArr _ | VUndefined | VNull => True | _ => False end ->
          get_index_opt B s (sub (of_nat (S k)) (Fin 1)) = entry s k).
Proof.
  intros B. repeat apply conj; try reflexivity.
  - intros j H. unfold fetchWinds, read_winds.
    destruct (nullish j) eqn:Hj.
    { destruct j; try discriminate; reflexivity. }
    rewrite (get_hourly j Hj). cbn [bind].
    rewrite (get_opt_series j "time" eq_refl).
    destruct H as [H | H].
    + destruct (series j "time"); try discriminate; reflexivity.
    + rewrite H. reflexivity.
  - intros j t times H i. subst i. unfold fetchWinds, read_winds.
    assert (Hj : nullish j = false)
      by (apply (series_present j "time" _ H); reflexivity).
    rewrite (get_hourly j Hj). cbn [bind].
    rewrite !get_opt_series by reflexivity.
    rewrite H.
    change (get_opt (VArr (t :: times)) "length")
      with (VNum (of_nat (List.length (t :: times)))).
    cbn [coalesce nullish List.length].
    rewrite truthy_length_succ. cbn [negb ToNumber bind]. reflexivity.
  - intros s k. apply get_index_opt_entry.
Qed.

Lemma fetchWinds_empty_or_last_entry_witness :
  let hourly :=
    VObj [("time", VArr [VStr "t0"; VStr "t1"; VStr "t2"]);
          ("windspeed_700hPa", VArr [VNum (Fin 5); VNum (Fin 6); VNum (Fin 7)]);
          ("winddirection_700hPa", VArr [VNum (Fin 90); VNum (Fin 91); VNull]);
          ("windspeed_500hPa", VArr [VNum (Fin 1); VNum (Fin 2)])]%string in
  let j := VObj [("hourly"%string, hourly)] in
  (forall B,
      fetchWinds B (Response true (Some j))
      = Some {| w_wind500 := VUndefined; w_dir500 := VUndefined;
                w_wind700 := VNum (Fin 7); w_dir700 := VNull |})
  /\ (forall B,
        fetchWinds B (Response true (Some (VObj [("hourly"%string,
                                                  VObj [("time"%string, VArr [])])])))
        = None).
Proof.
  cbv zeta. split.
  - intros B.
    destruct (fetchWinds_empty_or_last_entry B) as (_ & _ & _ & _ & H & He).
    match goal with
    | |- fetchWinds B (Response true (Some ?j)) = _ =>
        rewrite (H j (VStr "t0") [VStr "t1"; VStr "t2"] eq_refl)
    end.
    cbv zeta. cbn [List.length].
    rewrite !He by exact I. reflexivity.
  - intros B.
    destruct (fetchWinds_empty_or_last_entry B) as (_ & _ & _ & H & _).
    apply H. right. reflexivity.
Defined.

End WindLookup.

(** ** Dictionaries *)

Lemma own_dict_set {A : Type} (o : dict A) (k k' : string) (v : A) :
  own (dict_set o k v) k' = if String.eqb k' k then Some v else own o k'.
Proof.
  induction o as [ | [k0 v0] o IH]; simpl.
  - reflexivity.
  - destruct (String.eqb k k0) eqn:E; simpl.
    + apply String.eqb_eq in E. subst k0.
      destruct (String.eqb k' k); reflexivity.
    + destruct (String.eqb k' k0) eqn:E'.
      * apply String.eqb_eq in E'. subst k0.
        rewrite String.eqb_sym in E. now rewrite E.
      * exact IH.
Qed.

Lemma own_None_iff {A : Type} (o : dict A) (k : string) :
  own o k = None <-> ~ In k (insertion_order o).
Proof.
  unfold insertion_order.
  induction o as [ | [k0 v0] o IH]; simpl; [tauto | ].
  destruct (String.eqb k k0) eqn:E.
  - apply String.eqb_eq in E. subst. split; [discriminate | tauto].
  - apply String.eqb_neq in E. rewrite IH. split.
    + intros H [H' | H']; [now subst | tauto].
    + tauto.
Qed.

Lemma keys_dict_set {A : Type} (o : dict A) (k : string) (v : A) :
  insertion_order (dict_set o k v) =
  match own o k with
  | Some _ => insertion_order o
  | None => insertion_order o ++ [k]
  end.
Proof.
  unfold insertion_order.
  induction o as [ | [k0 v0] o IH]; simpl; [reflexivity | ].
  destruct (String.eqb k k0) eqn:E; simpl; [reflexivity | ].
  rewrite IH. destruct (own o k); reflexivity.
Qed.

Lemma first_appearances_In l x : In x (first_appearances l) <-> In x l.
Proof.
  induction l as [ | y l IH]; simpl; [tauto | ].
  rewrite filter_In, IH, negb_true_iff.
  destruct (String.eqb x y) eqn:E.
  - apply String.eqb_eq in E. subst. split; [tauto | now left].
  - apply String.eqb_neq in E. split.
    + intros [H | [H _]]; [now left | now right].
    + intros [H | H]; [now left | right; now split].
Qed.

Lemma first_appearances_NoDup l : NoDup (first_appearances l).
Proof.
  induction l as [ | y l IH]; simpl; constructor.
  - rewrite filter_In, String.eqb_refl. intros [_ H]. discriminate.
  - now apply NoDup_filter.
Qed.

Lemma filter_all_true {A : Type} (f : A -> bool) (l : list A) :
  (forall x, In x l -> f x = true) -> filter f l = l.
Proof.
  induction l as [ | y l IH]; simpl; intros H; [reflexivity | ].
  rewrite (H y (or_introl eq_refl)). f_equal. apply IH. auto.
Qed.

Lemma first_appearances_snoc l x :
  first_appearances (l ++ [x]) =
  if existsb (String.eqb x) l then first_appearances l
  else first_appearances l ++ [x].
Proof.
  induction l as [ | y l IH]; simpl; [reflexivity | ].
  rewrite IH. destruct (String.eqb x y) eqn:E; simpl.
  - apply String.eqb_eq in E. subst y.
    destruct (existsb (String.eqb x) l); [reflexivity | ].
    rewrite filter_app. simpl. rewrite String.eqb_refl. simpl.
    now rewrite app_nil_r.
  - destruct (existsb (String.eqb x) l); [reflexivity | ].
    rewrite filter_app. simpl. rewrite E. reflexivity.
Qed.

(** ** Snapshot Fetcher: grouping *)

Lemma push_pure_own o n k :
  own (push_pure o n) k =
  if String.eqb k (n_id n)
  then Some (match own o (n_id n) with
             | Some pts => pts ++ [point_of n]
             | None => [point_of n]
             end)
  else own o k.
Proof. unfold push_pure. apply own_dict_set. Qed.

Lemma group_points_snoc l n :
  group_points (l ++ [n]) = push_pure (group_points l) n.
Proof. unfold group_points. now rewrite fold_left_app. Qed.

Lemma points_of_id_snoc k l n :
  points_of_id k (l ++ [n]) =
  points_of_id k l ++ (if String.eqb (n_id n) k then [point_of n] else []).
Proof.
  unfold points_of_id. rewrite filter_app, map_app. simpl.
  destruct (String.eqb (n_id n) k); reflexivity.
Qed.

(** The list stored under an id is the sequence of the points accepted for
    it, in encounter order; an id with no accepted point has no entry. *)
Lemma group_points_own l k :
  own (group_points l) k =
  match points_of_id k l with
  | [] => None
  | pts => Some pts
  end.
Proof.
  induction l as [ | n l IH] using rev_ind; [reflexivity | ].
  rewrite group_points_snoc, push_pure_own, points_of_id_snoc.
  destruct (String.eqb k (n_id n)) eqn:E.
  - apply String.eqb_eq in E. subst k. rewrite String.eqb_refl.
    rewrite IH. destruct (points_of_id (n_id n) l); reflexivity.
  - rewrite String.eqb_sym, E, app_nil_r. exact IH.
Qed.

Lemma existsb_mem x l : existsb (String.eqb x) l = true <-> In x l.
Proof.
  rewrite existsb_exists. split.
  - intros (y & Hy & E). apply String.eqb_eq in E. now subst.
  - intros H. exists x. split; [exact H | apply String.eqb_refl].
Qed.

(** The keys are created in the order in which the ids first appear. *)
Lemma group_points_keys l :
  insertion_order (group_points l) = first_appearances (map n_id l).
Proof.
  induction l as [ | n l IH] using rev_ind; [reflexivity | ].
  rewrite group_points_snoc. unfold push_pure. rewrite keys_dict_set.
  rewrite map_app. simpl. rewrite first_appearances_snoc, IH.
  destruct (own (group_points l) (n_id n)) eqn:E.
  - assert (H : In (n_id n) (map n_id l)).
    { apply first_appearances_In. rewrite <- IH.
      destruct (in_dec string_dec (n_id n) (insertion_order (group_points l)))
        as [Hin | Hn]; [exact Hin | ].
      apply own_None_iff in Hn. congruence. }
    apply existsb_mem in H. now rewrite H.
  - apply own_None_iff in E. rewrite IH, first_appearances_In in E.
    destruct (existsb (String.eqb (n_id n)) (map n_id l)) eqn:E'; [ | reflexivity].
    apply existsb_mem in E'. contradiction.
Qed.

Lemma push_pure_safe o n :
  safe_keys o -> inherited (n_id n) = false -> safe_keys (push_pure o n).
Proof.
  intros Ho Hn k. unfold push_pure. rewrite keys_dict_set.
  destruct (own o (n_id n)); [apply Ho | ].
  rewrite in_app_iff. intros [H | [<- | []]]; [now apply Ho | exact Hn].
Qed.

Lemma fold_push_pure_safe l o :
  safe_keys o ->
  forallb (fun n => negb (inherited (n_id n))) l = true ->
  safe_keys (fold_left push_pure l o).
Proof.
  revert o. induction l as [ | n l IH]; intros o Ho Hl; [exact Ho | ].
  simpl in Hl. apply andb_true_iff in Hl as [Hn Hl].
  apply negb_true_iff in Hn. simpl. apply IH; [ | exact Hl].
  now apply push_pure_safe.
Qed.

Lemma push_point_spec o n :
  safe_keys o ->
  push_point o (n_id n) (point_of n) =
  if inherited (n_id n) then Throw else Normal (push_pure o n).
Proof.
  intros Ho. unfold push_point, push_pure.
  destruct (own o (n_id n)) eqn:E.
  - assert (Hk : inherited (n_id n) = false).
    { apply Ho. destruct (in_dec string_dec (n_id n) (insertion_order o))
        as [Hin | Hn]; [exact Hin | ].
      apply own_None_iff in Hn. congruence. }
    now rewrite Hk.
  - reflexivity.
Qed.

Lemma ingest_eq o o' t t' k k' :
  o = o' -> t = t' -> k = k' ->
  @Normal ingest {| byId := o; totalRows := t; keptRows := k |}
  = Normal {| byId := o'; totalRows := t'; keptRows := k' |}.
Proof. now intros -> -> ->. Qed.

Lemma accepted_app a b : accepted (a ++ b) = accepted a ++ accepted b.
Proof.
  induction a as [ | [[n | ] | ] a IH]; simpl; [reflexivity | | | ];
    now rewrite IH.
Qed.

Lemma accepted_ok calls :
  forallb call_ok calls = true ->
  forallb (fun n => negb (inherited (n_id n))) (accepted calls) = true.
Proof.
  induction calls as [ | [[n | ] | ] calls IH]; simpl; intros H; auto.
  - apply andb_true_iff in H as [H1 H2]. now rewrite H1, IH.
  - discriminate.
Qed.

Section Grouping.

Variable B : Builtins.
Variable clock : nat -> nat -> Z.

(** The inner loop: the rows of one hour, from row index [i] on. *)
Lemma forEach_rows h arr : forall i st,
  safe_keys (byId st) ->
  let calls := mapi_from (fun i raw => normalizeRow B (clock h i) raw h i) i arr in
  forEach (row_step B clock h) arr i st =
  if forallb call_ok calls
  then Normal {| byId := fold_left push_pure (accepted calls) (byId st);
                 totalRows := totalRows st;
                 keptRows := keptRows st + List.length (accepted calls) |}
  else Throw.
Proof.
  induction arr as [ | raw arr IH]; intros i st Hst; cbv zeta.
  - simpl. destruct st. apply ingest_eq; simpl; auto.
  - cbn [mapi_from forEach forallb]. unfold row_step at 1.
    destruct (normalizeRow B (clock h i) raw h i) as [[n | ] | ];
      cbn [bind call_ok accepted].
    + fold (point_of n). rewrite (push_point_spec _ n Hst).
      destruct (inherited (n_id n)) eqn:En; cbn [bind negb andb];
        [reflexivity | ].
      rewrite IH by (now apply push_pure_safe).
      cbv zeta. cbn [byId totalRows keptRows].
      destruct (forallb call_ok _); [ | reflexivity].
      apply ingest_eq; simpl; auto.
    + rewrite IH by exact Hst. reflexivity.
    + reflexivity.
Qed.

Lemma hour_step_spec st res h :
  safe_keys (byId st) ->
  hour_step B clock st res h =
  if forallb call_ok (hour_calls B clock h res)
  then Normal {| byId := fold_left push_pure
                           (accepted (hour_calls B clock h res)) (byId st);
                 totalRows := totalRows st + List.length (rows_of res);
                 keptRows := keptRows st
                             + List.length (accepted (hour_calls B clock h res)) |}
  else Throw.
Proof.
  intros Hst. unfold hour_step, hour_calls.
  destruct res as [v | ].
  - destruct v; try (simpl; destruct st; apply ingest_eq; simpl; auto).
    cbn [rows_of]. rewrite forEach_rows by exact Hst. reflexivity.
  - simpl. destruct st. apply ingest_eq; simpl; auto.
Qed.

Lemma forEach_hours results : forall h st,
  safe_keys (byId st) ->
  let calls := all_calls B clock h results in
  forEach (hour_step B clock) results h st =
  if forallb call_ok calls
  then Normal {| byId := fold_left push_pure (accepted calls) (byId st);
                 totalRows :=
                   totalRows st
                   + list_sum (map (fun r => List.length (rows_of r)) results);
                 keptRows := keptRows st + List.length (accepted calls) |}
  else Throw.
Proof.
  induction results as [ | res results IH]; intros h st Hst; cbv zeta.
  - simpl. destruct st. apply ingest_eq; simpl; auto.
  - unfold all_calls. cbn [mapi_from List.concat forEach map list_sum].
    fold (all_calls B clock (S h) results).
    rewrite forallb_app, accepted_app, fold_left_app, length_app.
    rewrite (hour_step_spec st res h Hst).
    destruct (forallb call_ok (hour_calls B clock h res)) eqn:Eh;
      cbn [bind andb]; [ | reflexivity].
    rewrite IH.
    2:{ cbn [byId]. apply fold_push_pure_safe; [exact Hst | ].
        now apply accepted_ok. }
    cbv zeta. cbn [byId totalRows keptRows].
    destruct (forallb call_ok (all_calls B clock (S h) results));
      [ | reflexivity].
    apply ingest_eq; simpl; auto; lia.
Qed.

(** The grouping phase: it ends normally exactly when no call of
    [normalizeRow] throws and no accepted id names a member of
    [Object.prototype]; then [byId] groups the accepted points. *)
Lemma group_rows_spec results :
  let calls := all_calls B clock 0 results in
  group_rows B clock results =
  if forallb call_ok calls
  then Normal {| byId := group_points (accepted calls);
                 totalRows :=
                   list_sum (map (fun r => List.length (rows_of r)) results);
                 keptRows := List.length (accepted calls) |}
  else Throw.
Proof.
  unfold group_rows. rewrite forEach_hours by (intros k []).
  reflexivity.
Qed.

End Grouping.

(** ** Enumeration order of a dictionary *)

Lemma insert_by_index_perm {A : Type} (x : N * A) l :
  Permutation (insert_by_index x l) (x :: l).
Proof.
  induction l as [ | y l IH]; simpl; [reflexivity | ].
  destruct (fst x <=? fst y)%N; [reflexivity | ].
  rewrite IH. apply perm_swap.
Qed.

Lemma sort_by_index_perm {A : Type} (l : list (N * A)) :
  Permutation (sort_by_index l) l.
Proof.
  induction l as [ | x l IH]; simpl; [reflexivity | ].
  unfold sort_by_index in *. simpl. rewrite insert_by_index_perm.
  now constructor.
Qed.



Lemma index_entries_snd {A : Type} (o : dict A) :
  map snd (index_entries o) = filter (fun kv => is_index_key (fst kv)) o.
Proof.
  induction o as [ | [k v] o IH]; simpl; [reflexivity | ].
  unfold is_index_key at 1. simpl.
  destruct (array_index k); simpl; now rewrite IH.
Qed.

Lemma named_entries_filter {A : Type} (o : dict A) :
  named_entries o = filter (fun kv => negb (is_index_key (fst kv))) o.
Proof.
  unfold named_entries. apply filter_ext. intros [k v]. unfold is_index_key.
  simpl. destruct (array_index k); reflexivity.
Qed.

Lemma filter_split_perm {A : Type} (f : A -> bool) (l : list A) :
  Permutation (filter f l ++ filter (fun x => negb (f x)) l) l.
Proof.
  induction l as [ | x l IH]; simpl; [reflexivity | ].
  destruct (f x); simpl.
  - now constructor.
  - rewrite <- Permutation_middle. now constructor.
Qed.

Lemma Object_entries_perm {A : Type} (o : dict A) :
  Permutation (Object_entries o) o.
Proof.
  unfold Object_entries.
  rewrite (Permutation_map snd (sort_by_index_perm (index_entries o))).
  rewrite index_entries_snd, named_entries_filter.
  apply filter_split_perm.
Qed.

Lemma Object_keys_perm {A : Type} (o : dict A) :
  Permutation (Object_keys o) (insertion_order o).
Proof. apply Permutation_map, Object_entries_perm. Qed.

Lemma Object_keys_length {A : Type} (o : dict A) :
  List.length (Object_keys o) = List.length o.
Proof.
  rewrite (Permutation_length (Object_keys_perm o)).
  apply length_map.
Qed.


(** The enumeration only depends on the keys. *)
Lemma index_entries_map {A C : Type} (f : A -> C) (o : dict A) :
  index_entries (map (fun kv => (fst kv, f (snd kv))) o) =
  map (fun x => (fst x, (fst (snd x), f (snd (snd x))))) (index_entries o).
Proof.
  induction o as [ | [k v] o IH]; simpl; [reflexivity | ].
  destruct (array_index k); simpl; now rewrite IH.
Qed.

Lemma insert_by_index_map {A C : Type} (g : A -> C) (x : N * A) l :
  insert_by_index (fst x, g (snd x)) (map (fun y => (fst y, g (snd y))) l) =
  map (fun y => (fst y, g (snd y))) (insert_by_index x l).
Proof.
  induction l as [ | y l IH]; simpl; [reflexivity | ].
  destruct (fst x <=? fst y)%N; simpl; [reflexivity | ].
  now rewrite IH.
Qed.

Lemma sort_by_index_map {A C : Type} (g : A -> C) (l : list (N * A)) :
  sort_by_index (map (fun y => (fst y, g (snd y))) l) =
  map (fun y => (fst y, g (snd y))) (sort_by_index l).
Proof.
  induction l as [ | x l IH]; [reflexivity | ].
  unfold sort_by_index in *. simpl. rewrite IH.
  apply insert_by_index_map.
Qed.

Lemma Object_entries_map {A C : Type} (f : A -> C) (o : dict A) :
  Object_entries (map (fun kv => (fst kv, f (snd kv))) o) =
  map (fun kv => (fst kv, f (snd kv))) (Object_entries o).
Proof.
  unfold Object_entries. rewrite index_entries_map.
  rewrite (sort_by_index_map (fun kv => (fst kv, f (snd kv)))).
  rewrite map_app, !map_map. f_equal.
  unfold named_entries. induction o as [ | [k v] o IH]; [reflexivity | ].
  simpl. destruct (array_index k); simpl; now rewrite IH.
Qed.

Lemma Object_keys_map {A C : Type} (f : A -> C) (o : dict A) :
  Object_keys (map (fun kv => (fst kv, f (snd kv))) o) = Object_keys o.
Proof.
  unfold Object_keys. rewrite Object_entries_map, map_map. reflexivity.
Qed.

(** ** Snapshot Fetcher: the whole fetch *)

Section Fetch24.

Variable B : Builtins.
Variable clock : nat -> nat -> Z.

Lemma fetchLast24h_spec upstream :
  let results := settled_hours upstream in
  let calls := all_calls B clock 0 results in
  fetchLast24h B clock upstream =
  if forallb call_ok calls
  then Normal
         (sort_dedupe_all B (group_points (accepted calls)),
          {| raw := list_sum (map (fun r => List.length (rows_of r)) results);
             kept := List.length (accepted calls);
             balloons :=
               List.length (first_appearances (map n_id (accepted calls))) |})
  else Throw.
Proof.
  cbv zeta. unfold fetchLast24h. fold (settled_hours upstream).
  rewrite group_rows_spec. cbv zeta.
  destruct (forallb call_ok _); [ | reflexivity].
  cbn [bind byId totalRows keptRows]. do 3 f_equal.
  unfold sort_dedupe_all. rewrite Object_keys_map, Object_keys_length.
  rewrite <- group_points_keys. unfold insertion_order.
  now rewrite length_map.
Qed.

End Fetch24.

(** C6 (what the code does).  When the only hour that answers carries one
    row whose id is [constructor], the grouping step reads the inherited
    [Object.prototype.constructor] instead of creating a list, and the fetch
    throws: no result, no statistics. *)
Theorem fetchLast24h_throws_on_inherited_id :
  forall (B : Builtins) (clock : nat -> nat -> Z),
    fetchLast24h B clock
      (fun h =>
         match h with
         | O => Response true
                  (Some (VArr [VObj [("id", VStr "constructor");
                                     ("lat", VNum (Fin 0));
                                     ("lon", VNum (Fin 0))]%string]))
         | _ => NetworkError
         end)
    = Throw.
Proof. intros B clock. reflexivity. Qed.

(** A row whose latitude is an object with an own [toString] property makes
    the conversion to a number throw, and with it the whole fetch. *)
Lemma fetchLast24h_throws_on_unconvertible_field :
  forall (B : Builtins) (clock : nat -> nat -> Z),
    fetchLast24h B clock
      (fun h =>
         match h with
         | O => Response true
                  (Some (VArr [VObj [("lat", VObj [("toString", VNum (Fin 1))]);
                                     ("lon", VNum (Fin 0))]%string]))
         | _ => NetworkError
         end)
    = Throw.
Proof. intros B clock. reflexivity. Qed.

Lemma all_calls_rows B clock results results' : forall h,
  map rows_of results = map rows_of results' ->
  all_calls B clock h results = all_calls B clock h results'.
Proof.
  revert results'. induction results as [ | r results IH];
    intros [ | r' results'] h H; try discriminate; [reflexivity | ].
  simpl in H. injection H as Hr H.
  unfold all_calls. simpl. fold (all_calls B clock (S h) results).
  fold (all_calls B clock (S h) results').
  rewrite (IH results' (S h) H). unfold hour_calls. now rewrite Hr.
Qed.

Lemma settled_hours_rows up up' :
  (forall h, (h < 24)%nat ->
             rows_of (fetch_json (up h)) = rows_of (fetch_json (up' h))) ->
  map rows_of (settled_hours up) = map rows_of (settled_hours up').
Proof.
  intros H. unfold settled_hours. rewrite !map_map.
  apply map_ext_in. intros h Hh. apply in_seq in Hh. apply H. lia.
Qed.

Lemma fetchLast24h_rows B clock up up' :
  (forall h, (h < 24)%nat ->
             rows_of (fetch_json (up h)) = rows_of (fetch_json (up' h))) ->
  fetchLast24h B clock up = fetchLast24h B clock up'.
Proof.
  intros H. apply settled_hours_rows in H.
  rewrite !fetchLast24h_spec. cbv zeta.
  rewrite (all_calls_rows B clock _ _ 0 H).
  replace (map (fun r => List.length (rows_of r)) (settled_hours up))
    with (map (@List.length value) (map rows_of (settled_hours up)))
    by (now rewrite map_map).
  rewrite H, map_map. reflexivity.
Qed.

(** The parts of C6 that hold.  The fetch depends on each hour only through
    the rows it contributes, and a failed hour or a body that is not an array
    contributes none: it counts no raw row and no point, and the result is
    the one of the same fetch with that hour answering an empty array.  When
    the fetch returns, [raw] is the sum of the row counts of the hours that
    contributed, [kept] the number of accepted points, [balloons] the number
    of distinct accepted ids, and each id holds its accepted points, sorted
    and deduplicated.  It returns whenever no conversion throws and no
    accepted id names a member of [Object.prototype]; with no contributing
    hour at all the result is empty. *)
Theorem fetchLast24h_isolation_and_stats :
  forall (B : Builtins) (clock : nat -> nat -> Z),
    (forall r, rows_of (fetch_json NetworkError) = []
               /\ rows_of (fetch_json (Response false r)) = []
               /\ rows_of (fetch_json (Response true None)) = [])
    /\ (forall v, match v with VArr _ => False | _ => True end ->
                  rows_of (fetch_json (Response true (Some v))) = [])
    /\ (forall up up',
          (forall h, (h < 24)%nat ->
                     rows_of (fetch_json (up h)) = rows_of (fetch_json (up' h))) ->
          fetchLast24h B clock up = fetchLast24h B clock up')
    /\ (forall up o stats,
          fetchLast24h B clock up = Normal (o, stats) ->
          let results := settled_hours up in
          let acc := accepted (all_calls B clock 0 results) in
          raw stats = list_sum (map (fun r => List.length (rows_of r)) results)
          /\ kept stats = List.length acc
          /\ balloons stats = List.length (first_appearances (map n_id acc))
          /\ balloons stats = List.length o
          /\ insertion_order o = first_appearances (map n_id acc)
          /\ (forall k, own o k =
                        match points_of_id k acc with
                        | [] => None
                        | pts => Some (sort_dedupe B pts)
                        end))
    /\ (forall up,
          forallb call_ok (all_calls B clock 0 (settled_hours up)) = true ->
          exists o stats, fetchLast24h B clock up = Normal (o, stats))
    /\ (forall up,
          (forall h, (h < 24)%nat -> rows_of (fetch_json (up h)) = []) ->
          fetchLast24h B clock up
          = Normal ([], {| raw := 0; kept := 0; balloons := 0 |})).
Proof.
  intros B clock. repeat apply conj.
  - intros r. repeat split.
  - intros v Hv. destruct v; try reflexivity. contradiction.
  - apply fetchLast24h_rows.
  - intros up o stats H. cbv zeta. rewrite fetchLast24h_spec in H.
    cbv zeta in H.
    destruct (forallb call_ok _); [ | discriminate].
    injection H as <- <-. cbn [raw kept balloons].
    repeat split.
    + unfold sort_dedupe_all. rewrite length_map.
      rewrite <- group_points_keys. unfold insertion_order.
      now rewrite length_map.
    + unfold insertion_order. rewrite keys_sort_dedupe_all.
      apply group_points_keys.
    + intros k. rewrite own_sort_dedupe_all, group_points_own.
      destruct (points_of_id k _); reflexivity.
  - intros up H. rewrite fetchLast24h_spec. cbv zeta. rewrite H. eauto.
  - intros up H.
    rewrite (fetchLast24h_rows B clock up (fun _ => NetworkError)).
    + reflexivity.
    + intros h Hh. rewrite (H h Hh). reflexivity.
Qed.

Lemma fetchLast24h_isolation_and_stats_witness :
  let row (k : string) (t : Q) :=
    VObj [("id", VStr k); ("lat", VNum (Fin 1)); ("lon", VNum (Fin 2));
          ("ts", VNum (Fin t))]%string in
  let up (h : nat) :=
    match h with
    | 5%nat => Response true (Some (VArr [row "a"%string 500%Q; VStr "junk"]))
    | 7%nat => Response false (Some (VArr [row "b"%string 1%Q]))
    | 9%nat => Response true (Some (VObj []))
    | 17%nat => Response true (Some (VArr [row "a"%string 100%Q]))
    | _ => NetworkError
    end in
  fetchLast24h Sample.builtins (fun _ _ => 0%Z) up
  = Normal ([("a"%string, [ {| lat := 1; lon := 2; ts := 100 |};
                            {| lat := 1; lon := 2; ts := 500 |} ])],
            {| raw := 3; kept := 2; balloons := 1 |})
  /\ raw {| raw := 3; kept := 2; balloons := 1 |}
     = list_sum (map (fun r => List.length (rows_of r)) (settled_hours up)).
Proof.
  cbv zeta. split; [vm_compute; reflexivity | ].
  destruct (fetchLast24h_isolation_and_stats Sample.builtins (fun _ _ => 0%Z))
    as (_ & _ & _ & H & _).
  match goal with
  | |- _ = list_sum (map _ (settled_hours ?up)) =>
      destruct (H up _ _ ltac:(vm_compute; reflexivity)) as (Hraw & _)
  end.
  exact Hraw.
Defined.

(** ** Enrichment: batches *)

Lemma slice_length {A : Type} (l : list A) i b :
  List.length (slice i (i + b) l) = Nat.min b (List.length l - i).
Proof.
  unfold slice. replace (i + b - i)%nat with b by lia.
  now rewrite length_firstn, length_skipn.
Qed.

Lemma skipn_slice {A : Type} (l : list A) i b :
  skipn i l = slice i (i + b) l ++ skipn (i + b) l.
Proof.
  unfold slice. replace (i + b - i)%nat with b by lia.
  rewrite <- (firstn_skipn b (skipn i l)) at 1. f_equal.
  rewrite skipn_skipn. f_equal. lia.
Qed.

Lemma mapi_from_app {A C : Type} (f : nat -> A -> C) (a b : list A) : forall i,
  mapi_from f i (a ++ b) = mapi_from f i a ++ mapi_from f (i + List.length a) b.
Proof.
  induction a as [ | x a IH]; intros i; simpl.
  - now rewrite Nat.add_0_r.
  - rewrite IH. do 3 f_equal. lia.
Qed.

Lemma mapi_from_length {A C : Type} (f : nat -> A -> C) (l : list A) : forall i,
  List.length (mapi_from f i l) = List.length l.
Proof. induction l as [ | x l IH]; intros i; simpl; [ | rewrite IH]; reflexivity. Qed.

Lemma group_sizes_zero b : (0 < b)%nat -> group_sizes b 0 = [].
Proof.
  intros Hb. unfold group_sizes.
  rewrite Nat.Div0.div_0_l, Nat.Div0.mod_0_l. reflexivity.
Qed.

Lemma group_sizes_step b m :
  (0 < b)%nat -> (0 < m)%nat ->
  group_sizes b m = Nat.min b m :: group_sizes b (m - b).
Proof.
  intros Hb Hm. unfold group_sizes.
  destruct (Nat.lt_ge_cases m b) as [Hlt | Hge].
  - rewrite (Nat.div_small m b Hlt), (Nat.mod_small m b Hlt).
    replace (m - b)%nat with 0%nat by lia.
    rewrite Nat.Div0.div_0_l, Nat.Div0.mod_0_l.
    destruct (m =? 0)%nat eqn:E; [apply Nat.eqb_eq in E; lia | ].
    simpl. f_equal. lia.
  - assert (Hd : (m / b = S ((m - b) / b))%nat).
    { replace m with (m - b + 1 * b)%nat at 1 by lia.
      rewrite Nat.div_add by lia. lia. }
    assert (Hr : (m mod b = (m - b) mod b)%nat).
    { replace m with (m - b + 1 * b)%nat at 1 by lia.
      apply Nat.Div0.mod_add. }
    rewrite Hd, Hr, (Nat.min_l b m Hge). reflexivity.
Qed.


Section Batches.

Variable B : Builtins.
Variable net : nat -> http_response.

Lemma enrich_rounds_spec items b :
  (0 < b)%nat ->
  forall fuel i,
    (List.length items - i <= fuel)%nat ->
    exists rounds,
      enrich_rounds B net fuel items b i = Some rounds /\
      List.concat rounds
      = mapi_from (fun k tr => enrich_one B tr (net k)) i (skipn i items) /\
      map (@List.length _) rounds = group_sizes b (List.length items - i).
Proof.
  intros Hb fuel. induction fuel as [ | fuel IH]; intros i Hf.
  - exists []. assert (Hi : (List.length items <= i)%nat) by lia.
    assert (E : (i <? List.length items)%nat = false) by (apply Nat.ltb_ge; lia).
    simpl. rewrite E. repeat split.
    + now rewrite skipn_all2.
    + replace (List.length items - i)%nat with 0%nat by lia.
      now rewrite group_sizes_zero.
  - cbn [enrich_rounds].
    destruct (i <? List.length items)%nat eqn:E.
    + apply Nat.ltb_lt in E.
      destruct (IH (i + b)%nat ltac:(lia)) as (more & Hmore & Hcat & Hlen).
      rewrite Hmore. eexists. split; [reflexivity | ]. split.
      * cbn [List.concat]. rewrite Hcat.
        rewrite (skipn_slice items i b). rewrite mapi_from_app.
        f_equal. rewrite slice_length.
        destruct (Nat.le_ge_cases b (List.length items - i)) as [Hle | Hge].
        -- rewrite Nat.min_l by exact Hle. reflexivity.
        -- rewrite (skipn_all2 items) by lia. reflexivity.
      * cbn [map]. rewrite mapi_from_length, slice_length, Hlen.
        rewrite (group_sizes_step b (List.length items - i)) by lia.
        f_equal. f_equal. lia.
    + apply Nat.ltb_ge in E. exists []. repeat split.
      * now rewrite skipn_all2.
      * replace (List.length items - i)%nat with 0%nat by lia.
        now rewrite group_sizes_zero.
Qed.

Lemma enrichInBatches_spec items b :
  (0 < b)%nat ->
  enrichInBatches B net items b
  = Some (mapi_from (fun k tr => enrich_one B tr (net k)) 0 items).
Proof.
  intros Hb. unfold enrichInBatches.
  destruct (enrich_rounds_spec items b Hb (List.length items) 0 ltac:(lia))
    as (rounds & -> & Hcat & _).
  now rewrite Hcat.
Qed.

End Batches.

(** ** Enrichment: the order of the calls in time *)




(** ** Enrichment: which trajectories are selected *)

Lemma derive_id B nowSec entry : id (derive B nowSec entry) = fst entry.
Proof. destruct entry as [k pts]. reflexivity. Qed.

Lemma build_list_ids B nowSec (o : dict (list Point)) :
  map id (build_list B nowSec o) = Object_keys o.
Proof.
  unfold build_list, Object_keys. rewrite map_map.
  apply map_ext. intros entry. apply derive_id.
Qed.

Lemma slice_0 {A : Type} (n : nat) (l : list A) : slice 0 n l = firstn n l.
Proof. unfold slice. now rewrite Nat.sub_0_r. Qed.










(** ** Enrichment: the merge *)

Lemma merge_patch_absent patch tr :
  own patch (id tr) = None -> merge_patch patch tr = tr.
Proof. intros H. unfold merge_patch. rewrite H. destruct tr; reflexivity. Qed.

Lemma fold_dict_set_keys {A : Type} (es : list (string * A)) : forall o k,
  In k (insertion_order
          (fold_left (fun o kv => dict_set o (fst kv) (snd kv)) es o)) ->
  In k (insertion_order o) \/ In k (map fst es).
Proof.
  induction es as [ | [k0 v0] es IH]; intros o k H; simpl in *; [now left | ].
  apply IH in H as [H | H]; [ | now right; right].
  rewrite keys_dict_set in H. destruct (own o k0).
  - now left.
  - apply in_app_iff in H as [H | [<- | []]]; [now left | right; now left].
Qed.

Lemma Object_fromEntries_keys {A : Type} (es : list (string * A)) k :
  In k (insertion_order (Object_fromEntries es)) -> In k (map fst es).
Proof.
  intros H. apply fold_dict_set_keys in H as [[] | H]. exact H.
Qed.

Lemma fulfilled_ids B net items : forall i k,
  In k (map fst (fulfilled_values
                   (mapi_from (fun j tr => enrich_one B tr (net j)) i items))) ->
  In k (map id items).
Proof.
  induction items as [ | tr items IH]; intros i k H; simpl in *; [exact H | ].
  unfold enrich_one at 1 in H.
  destruct (at_last (points tr)).
  - destruct (computeRisk _ _ _ _ _ _ _); simpl in H.
    + destruct H as [<- | H]; [now left | right; eapply IH; eassumption].
    + right; eapply IH; eassumption.
  - simpl in H. destruct H as [<- | H]; [now left | right; eapply IH; eassumption].
Qed.

Lemma NoDup_beyond_prefix {A : Type} (l : list A) n k x :
  NoDup l -> nth_error l k = Some x -> (n <= k)%nat -> ~ In x (firstn n l).
Proof.
  intros Hnd Hk Hn Hin.
  rewrite <- (firstn_skipn n l) in Hnd, Hk.
  assert (Hlen : (List.length (firstn n l) <= k)%nat).
  { rewrite length_firstn. lia. }
  rewrite nth_error_app2 in Hk by exact Hlen.
  apply nth_error_In in Hk.
  apply NoDup_app_remove_l in Hnd as Hnd2.
  induction (firstn n l) as [ | y pre IH]; [contradiction | ].
  simpl in Hnd. inversion Hnd as [ | ? ? Hy Hrest]; subst.
  destruct Hin as [-> | Hin].
  - apply Hy. apply in_or_app. now right.
  - apply IH; try assumption.
    + simpl in Hlen. lia.
Qed.

Lemma derive_unenriched B nowSec entry :
  let tr := derive B nowSec entry in
  risk tr = VUndefined /\ wind700 tr = VUndefined /\ dir700 tr = VUndefined
  /\ wind500 tr = VUndefined /\ dir500 tr = VUndefined.
Proof. destruct entry as [k pts]. repeat split. Qed.

Lemma fetchLast24h_keys_NoDup B clock up o stats :
  fetchLast24h B clock up = Normal (o, stats) -> NoDup (Object_keys o).
Proof.
  intros H. rewrite fetchLast24h_spec in H. cbv zeta in H.
  destruct (forallb call_ok _); [ | discriminate].
  injection H as <- _.
  eapply Permutation_NoDup; [apply Permutation_sym, Object_keys_perm | ].
  unfold insertion_order. rewrite keys_sort_dedupe_all.
  fold (insertion_order
          (group_points (accepted (all_calls B clock 0 (settled_hours up))))).
  rewrite group_points_keys. apply first_appearances_NoDup.
Qed.

Lemma load_inv B net clock up nowSec r :
  load B net clock up nowSec = Normal (Some r) ->
  exists o stats,
    fetchLast24h B clock up = Normal (o, stats)
    /\ published r = build_list B nowSec o
    /\ ingestStats r = stats
    /\ enriched r
       = map (merge_patch
                (Object_fromEntries
                   (fulfilled_values
                      (mapi_from (fun k tr => enrich_one B tr (net k)) 0
                         (slice 0 ENRICH_SUBSET (build_list B nowSec o))))))
           (build_list B nowSec o).
Proof.
  unfold load. intros H.
  apply bind_Normal_inv in H as ([o stats] & Hf & H).
  exists o, stats. split; [exact Hf | ].
  unfold enrich_phase in H.
  rewrite (enrichInBatches_spec B net _ ENRICH_BATCH) in H
    by (unfold ENRICH_BATCH; lia).
  injection H as <-. repeat split.
Qed.

(** C9.  After a run of [load], the enriched list is the published list
    merged, track by track, with the patch the track's id selects.  A track
    whose id the patch does not hold is unchanged, its risk and wind fields
    still undefined; the ids of the patch are ids of the first
    [ENRICH_SUBSET] tracks, and ids are unique, so every track from position
    [ENRICH_SUBSET] on is unchanged.  For every track the merge leaves the id,
    the points, the drift, the heading, the stale flag, the age, the age
    label, the gap distance and the gap flag as they were. *)
Theorem enrichment_merge_by_id :
  forall (B : Builtins) (net : nat -> http_response) (clock : nat -> nat -> Z)
         (up : nat -> http_response) (nowSec : Z) (r : loaded),
    load B net clock up nowSec = Normal (Some r) ->
    exists patch : dict patch_obj,
      enriched r = map (merge_patch patch) (published r)
      /\ List.length (enriched r) = List.length (published r)
      /\ NoDup (map id (published r))
      /\ (forall k, In k (insertion_order patch) ->
                    In k (map id (firstn ENRICH_SUBSET (published r))))
      /\ (forall tr, In tr (published r) ->
                     risk tr = VUndefined /\ wind700 tr = VUndefined
                     /\ dir700 tr = VUndefined /\ wind500 tr = VUndefined
                     /\ dir500 tr = VUndefined)
      /\ (forall tr, own patch (id tr) = None -> merge_patch patch tr = tr)
      /\ (forall k tr,
            nth_error (published r) k = Some tr ->
            nth_error (enriched r) k = Some (merge_patch patch tr)
            /\ ((ENRICH_SUBSET <= k)%nat -> merge_patch patch tr = tr))
      /\ (forall tr,
            let tr' := merge_patch patch tr in
            id tr' = id tr /\ points tr' = points tr
            /\ driftKmh tr' = driftKmh tr /\ headingDeg tr' = headingDeg tr
            /\ _stale tr' = _stale tr /\ _ageSec tr' = _ageSec tr
            /\ _ageLabel tr' = _ageLabel tr /\ _gapKm tr' = _gapKm tr
            /\ _gap tr' = _gap tr).
Proof.
  intros B net clock up nowSec r H.
  apply load_inv in H as (o & stats & Hf & Hp & _ & He).
  set (patch := Object_fromEntries _) in He.
  exists patch. rewrite <- Hp in He.
  assert (Hnd : NoDup (map id (published r))).
  { rewrite Hp, build_list_ids. eapply fetchLast24h_keys_NoDup, Hf. }
  assert (Hkeys : forall k, In k (insertion_order patch) ->
                            In k (map id (firstn ENRICH_SUBSET (published r)))).
  { intros k Hk. unfold patch in Hk.
    apply Object_fromEntries_keys, fulfilled_ids in Hk.
    now rewrite slice_0, <- Hp in Hk. }
  repeat apply conj.
  - exact He.
  - rewrite He. apply length_map.
  - exact Hnd.
  - exact Hkeys.
  - intros tr Hin. rewrite Hp in Hin. unfold build_list in Hin.
    apply in_map_iff in Hin as (entry & <- & _). apply derive_unenriched.
  - apply merge_patch_absent.
  - intros k tr Hk. split.
    + rewrite He. now apply map_nth_error.
    + intros Hge. apply merge_patch_absent. apply own_None_iff.
      intros Hin. apply Hkeys in Hin. rewrite <- firstn_map in Hin.
      apply (NoDup_beyond_prefix (map id (published r)) ENRICH_SUBSET k (id tr)
               Hnd); [ | exact Hge | exact Hin].
      now apply map_nth_error.
  - intros tr. cbv zeta. repeat split.
Qed.

Lemma enrichment_merge_by_id_witness :
  let up (h : nat) :=
    match h with
    | 0%nat => Response true
                 (Some (VArr [Sample.keyed_row "a" 10; Sample.keyed_row "b" 20]))
    | _ => NetworkError
    end in
  exists r,
    load Sample.builtins (fun _ => NetworkError) (fun _ _ => 0%Z) up 100
    = Normal (Some r)
    /\ map id (published r) = ["a"; "b"]%string
    /\ List.length (enriched r) = List.length (published r)
    /\ NoDup (map id (published r)).
Proof.
  cbv zeta. eexists. split; [vm_compute; reflexivity | ].
  split; [reflexivity | ].
  match goal with
  | |- List.length (enriched ?r) = _ /\ _ =>
      destruct (enrichment_merge_by_id Sample.builtins (fun _ => NetworkError)
                  (fun _ _ => 0%Z)
                  (fun h =>
                     match h with
                     | 0%nat => Response true
                                  (Some (VArr [Sample.keyed_row "a" 10;
                                               Sample.keyed_row "b" 20]))
                     | _ => NetworkError
                     end)
                  100%Z r ltac:(vm_compute; reflexivity))
        as (patch & _ & Hlen & Hnd & _)
  end.
  split; [exact Hlen | exact Hnd].
Defined.

(** ** Enrichment: the risk of a track whose wind lookup fails *)

Section RiskWithoutWinds.

Local Open Scope Q_scope.

Lemma round_drift_only (d : num) :
  round (mul (add (add (mul (Fin (2 # 5)) d) (mul (Fin (2 # 5)) (Fin 0)))
                  (mul (Fin (1 # 5)) (Fin 0)))
             (Fin 100))
  = round (mul (Fin 40) d).
Proof.
  destruct d as [q | | | ]; try reflexivity.
  rewrite !mul_Fin, !add_Fin, !mul_Fin, !round_Fin. do 2 f_equal.
  apply Qfloor_comp. ring.
Qed.

Lemma computeRisk_without_winds B (dk : num) (hv : value) :
  computeRisk B (VNum dk) hv VUndefined VUndefined VUndefined VUndefined
  = Normal (VNum (round (mul (Fin 40) (JSNum.min (div dk (Fin 100)) (Fin 1))))).
Proof.
  unfold computeRisk. cbn [nullish coalesce].
  rewrite (angleDelta_absent B hv VUndefined) by apply orb_true_r.
  cbn [bind nullish negb andb ToNumber].
  now rewrite round_drift_only.
Qed.



End RiskWithoutWinds.

(** * Further properties of the code *)

(** ** Request paths *)

(** The 24 documents [fetchLast24h] asks for are distinct, one per hour in
    ascending order, each named by the two decimal digits of its hour.  The
    development proxy rewrites the path of hour [hh] to [/treasure/hh.json],
    and the handler, given the segments [treasure] and [hh.json] of that
    path, asks the upstream for the same document. *)
Theorem hour_urls_reach_upstream :
  List.length hours = 24%nat
  /\ NoDup (map hour_url hours)
  /\ forall i, (i < 24)%nat ->
       let hh := nth i hours EmptyString in
       String.length hh = 2%nat
       /\ digits_value hh 0 = Some (N.of_nat i)
       /\ proxy_rewrite (hour_url hh) = ("/treasure/" ++ hh ++ ".json")%string
       /\ handler_upstream (QArray ["treasure"; hh ++ ".json"]%string)
          = (UPSTREAM_ORIGIN ++ proxy_rewrite (hour_url hh))%string.
Proof.
  split; [reflexivity | split].
  - apply (NoDup_map_inv (fun s => String.substring 24 2 s)).
    vm_compute.
    repeat (constructor; [simpl; intros H; repeat (destruct H as [H | H]; [discriminate H | ]); exact H | ]).
    constructor.
  - intros i Hi.
    do 24 (destruct i as [ | i]; [vm_compute; repeat split | ]).
    lia.
Qed.

(** The handler is transparent to the fetch: whatever the upstream does with
    the request (fails, answers with any status, breaks while the body is
    read), the promise [fetchLast24h] builds for that hour settles through
    the handler as it would against the upstream itself, and so the whole
    24-hour fetch returns the same result. *)
Theorem handler_transparent_to_fetch :
  forall (JSON_parse : string -> option value)
         (net : string -> upstream_outcome),
    (forall q,
        fetch_json (proxied_view JSON_parse (handler q net))
        = fetch_json (direct_view JSON_parse (net (handler_upstream q))))
    /\ (forall (B : Builtins) (clock : nat -> nat -> Z)
               (segments : nat -> query_value),
          fetchLast24h B clock
            (fun h => proxied_view JSON_parse (handler (segments h) net))
          = fetchLast24h B clock
              (fun h => direct_view JSON_parse
                          (net (handler_upstream (segments h))))).
Proof.
  intros JSON_parse net.
  assert (H : forall q,
             fetch_json (proxied_view JSON_parse (handler q net))
             = fetch_json (direct_view JSON_parse (net (handler_upstream q)))).
  { intros q. unfold handler.
    destruct (net (handler_upstream q)) as [e | st ct e | st ct body]; simpl.
    - reflexivity.
    - now destruct (status_ok st).
    - reflexivity. }
  split; [exact H | ].
  intros B clock segments. apply fetchLast24h_rows.
  intros h _. now rewrite H.
Qed.

(** ** Markers by zoom level *)

Lemma Qle_bool_inject (a b : Z) : Qle_bool (inject_Z a) (inject_Z b) = (a <=? b)%Z.
Proof.
  destruct (a <=? b)%Z eqn:E.
  - apply Qle_bool_iff. rewrite <- Zle_Qle. now apply Z.leb_le.
  - destruct (Qle_bool _ _) eqn:E'; [ | reflexivity].
    apply Qle_bool_iff in E'. rewrite <- Zle_Qle in E'.
    apply Z.leb_le in E'. congruence.
Qed.

Lemma Qeq_bool_inject (a b : Z) : Qeq_bool (inject_Z a) (inject_Z b) = (a =? b)%Z.
Proof.
  destruct (a =? b)%Z eqn:E.
  - apply Z.eqb_eq in E. subst. apply Qeq_bool_refl.
  - destruct (Qeq_bool _ _) eqn:E'; [ | reflexivity].
    apply Qeq_bool_eq in E'. apply Z.eqb_neq in E. exfalso. apply E.
    unfold Qeq in E'. simpl in E'. lia.
Qed.

Lemma sampleByZoom_whole {A : Type} (tracks : list A) (z : Z) :
  sampleByZoom tracks (of_Z z) = firstn (zoom_limit z (List.length tracks)) tracks.
Proof.
  unfold sampleByZoom, zoom_limit, of_Z. cbn [ge strict_eq].
  change 2%Q with (inject_Z 2).
  change 3%Q with (inject_Z 3). change 4%Q with (inject_Z 4).
  change 5%Q with (inject_Z 5).
  rewrite Qle_bool_inject, !Qeq_bool_inject. rewrite slice_0.
  destruct (z <=? 2)%Z; [reflexivity | ].
  destruct (z =? 3)%Z; [reflexivity | ].
  destruct (z =? 4)%Z; [reflexivity | ].
  destruct (z =? 5)%Z; [reflexivity | ].
  now rewrite Nat.min_id.
Qed.

Lemma firstn_prefix {A : Type} (l : list A) (a b : nat) :
  (a <= b)%nat -> firstn b l = firstn a l ++ firstn (b - a) (skipn a l).
Proof.
  intros H. rewrite <- (firstn_skipn a (firstn b l)).
  rewrite firstn_firstn, skipn_firstn_comm.
  now replace (Nat.min a b) with a by lia.
Qed.

Lemma firstn_min_length {A : Type} (n : nat) (l : list A) :
  firstn (Nat.min n (List.length l)) l = firstn n l.
Proof.
  destruct (Nat.le_ge_cases n (List.length l)) as [H | H].
  - now rewrite Nat.min_l.
  - rewrite Nat.min_r by exact H. rewrite firstn_all.
    symmetry. now apply firstn_all2.
Qed.

Lemma zoom_limit_mono (z z' : Z) (len : nat) :
  (z <= z')%Z -> (zoom_limit z len <= zoom_limit z' len)%nat.
Proof.
  intros H. unfold zoom_limit.
  destruct (z <=? 2)%Z eqn:E2; [lia | ]. apply Z.leb_gt in E2.
  assert (E2' : (z' <=? 2)%Z = false) by (apply Z.leb_gt; lia). rewrite E2'.
  destruct (z =? 3)%Z eqn:E3, (z' =? 3)%Z eqn:F3,
           (z =? 4)%Z eqn:E4, (z' =? 4)%Z eqn:F4,
           (z =? 5)%Z eqn:E5, (z' =? 5)%Z eqn:F5;
    rewrite ?Z.eqb_eq, ?Z.eqb_neq in *; lia.
Qed.

(** [sampleByZoom] returns the first tracks, in order: none up to zoom 2, at
    most 120, 300 and 600 at zooms 3, 4 and 5, and all of them at any other
    zoom above 2, a fractional one such as 2.5 included, and at NaN.  Over
    whole-number zooms the selection only grows: the markers of a zoom are a
    prefix of the markers of any higher zoom. *)
Theorem sampleByZoom_staircase :
  forall (A : Type) (tracks : list A),
    (forall zoom, exists rest, tracks = sampleByZoom tracks zoom ++ rest)
    /\ (forall z : Q, (z <= 2)%Q -> sampleByZoom tracks (Fin z) = [])
    /\ sampleByZoom tracks (Fin 3) = firstn 120 tracks
    /\ sampleByZoom tracks (Fin 4) = firstn 300 tracks
    /\ sampleByZoom tracks (Fin 5) = firstn 600 tracks
    /\ (forall z : Q,
          (2 < z)%Q -> ~ (z == 3)%Q -> ~ (z == 4)%Q -> ~ (z == 5)%Q ->
          sampleByZoom tracks (Fin z) = tracks)
    /\ sampleByZoom tracks NaN = tracks
    /\ (forall z z' : Z,
          (z <= z')%Z ->
          exists rest,
            sampleByZoom tracks (of_Z z')
            = sampleByZoom tracks (of_Z z) ++ rest).
Proof.
  intros A tracks.
  assert (Hall : firstn (Nat.min (List.length tracks) (List.length tracks)) tracks
                 = tracks)
    by (rewrite Nat.min_id; apply firstn_all).
  repeat apply conj.
  - intros zoom. unfold sampleByZoom. rewrite slice_0.
    eexists. symmetry. apply firstn_skipn.
  - intros z Hz. unfold sampleByZoom, ge.
    apply Qle_bool_iff in Hz. rewrite Hz. reflexivity.
  - change (Fin 3) with (of_Z 3). rewrite sampleByZoom_whole.
    apply firstn_min_length.
  - change (Fin 4) with (of_Z 4). rewrite sampleByZoom_whole.
    apply firstn_min_length.
  - change (Fin 5) with (of_Z 5). rewrite sampleByZoom_whole.
    apply firstn_min_length.
  - intros z H2 H3 H4 H5. unfold sampleByZoom. cbn [ge strict_eq].
    rewrite slice_0.
    assert (E2 : Qle_bool z 2 = false).
    { destruct (Qle_bool z 2) eqn:E; [ | reflexivity].
      apply Qle_bool_iff in E. exfalso. apply (Qlt_not_le _ _ H2 E). }
    assert (Ene : forall c, ~ (z == c)%Q -> Qeq_bool z c = false).
    { intros c Hc. destruct (Qeq_bool z c) eqn:E; [ | reflexivity].
      apply Qeq_bool_eq in E. contradiction. }
    rewrite E2, (Ene 3%Q H3), (Ene 4%Q H4), (Ene 5%Q H5). exact Hall.
  - unfold sampleByZoom. cbn [ge strict_eq]. rewrite slice_0. exact Hall.
  - intros z z' Hz. rewrite !sampleByZoom_whole.
    eexists. apply firstn_prefix. now apply zoom_limit_mono.
Qed.

(** ** Playback window *)


Lemma sub_of_Z (a b : Z) : sub (of_Z a) (of_Z b) = of_Z (a - b).
Proof.
  unfold sub, of_Z, neg, add, inject_Z, Qplus, Qopp. cbn [Qnum Qden].
  do 2 f_equal. lia.
Qed.

Lemma min_of_Z (a b : Z) : JSNum.min (of_Z a) (of_Z b) = of_Z (Z.min a b).
Proof.
  unfold of_Z, JSNum.min, Qmin, GenericMinMax.gmin, Qcompare, Z.min.
  cbn [inject_Z Qnum Qden]. rewrite !Z.mul_1_r.
  now destruct (a ?= b)%Z.
Qed.

Lemma max_of_Z (a b : Z) : JSNum.max (of_Z a) (of_Z b) = of_Z (Z.max a b).
Proof.
  unfold of_Z, JSNum.max, Qmax, GenericMinMax.gmax, Qcompare, Z.max.
  cbn [inject_Z Qnum Qden]. rewrite !Z.mul_1_r.
  rewrite (Z.compare_antisym b a).
  now destruct (b ?= a)%Z.
Qed.






(** ** Trajectories returned by the fetch *)

Lemma filter_seen_incl B seen l q : In q (filter_seen B seen l) -> In q l.
Proof.
  revert seen. induction l as [ | p l IH]; intros seen; simpl; [tauto | ].
  destruct (existsb _ seen).
  - intros H. right. eapply IH, H.
  - intros [H | H]; [now left | right; eapply IH, H].
Qed.

Lemma filter_seen_weakly_sorted B seen l :
  StronglySorted ts_le l -> StronglySorted ts_le (filter_seen B seen l).
Proof.
  intros Hs. revert seen.
  induction Hs as [ | p l Hs IH Hp]; intros seen; simpl; [constructor | ].
  destruct (existsb _ seen); [apply IH | ].
  constructor; [apply IH | ].
  rewrite Forall_forall in *. intros q Hq.
  apply Hp. eapply filter_seen_incl, Hq.
Qed.

Lemma filter_seen_length B seen l :
  (List.length (filter_seen B seen l) <= List.length l)%nat.
Proof.
  revert seen. induction l as [ | p l IH]; intros seen; simpl; [lia | ].
  destruct (existsb _ seen).
  - specialize (IH seen). lia.
  - specialize (IH (ts_key B p :: seen)). simpl. lia.
Qed.

Lemma sort_dedupe_weakly_sorted B pts : StronglySorted ts_le (sort_dedupe B pts).
Proof. apply filter_seen_weakly_sorted, sort_by_ts_sorted. Qed.

Lemma sort_dedupe_length B pts :
  (List.length (sort_dedupe B pts) <= List.length pts)%nat.
Proof.
  unfold sort_dedupe.
  rewrite <- (Permutation_length (sort_by_ts_perm pts)).
  apply filter_seen_length.
Qed.

Lemma sort_dedupe_nonempty B pts : pts <> [] -> sort_dedupe B pts <> [].
Proof.
  intros H. unfold sort_dedupe.
  destruct (sort_by_ts pts) as [ | p l] eqn:E.
  - apply (f_equal (@List.length _)) in E.
    rewrite (Permutation_length (sort_by_ts_perm pts)) in E.
    destruct pts; [contradiction | discriminate].
  - simpl. discriminate.
Qed.

Lemma total_points_dict_set o k v :
  (total_points (dict_set o k v) + match own o k with
                                   | Some old => List.length old
                                   | None => 0
                                   end
   = total_points o + List.length v)%nat.
Proof.
  unfold total_points.
  induction o as [ | [k0 v0] o IH]; simpl; [lia | ].
  destruct (String.eqb k k0); simpl; lia.
Qed.

Lemma total_points_group l : total_points (group_points l) = List.length l.
Proof.
  induction l as [ | n l IH] using rev_ind; [reflexivity | ].
  rewrite group_points_snoc, length_app. simpl. unfold push_pure.
  pose proof (total_points_dict_set (group_points l) (n_id n)
                match own (group_points l) (n_id n) with
                | Some pts => pts ++ [point_of n]
                | None => [point_of n]
                end) as H.
  destruct (own (group_points l) (n_id n)) as [pts | ].
  - rewrite length_app in H. simpl in H. lia.
  - simpl in H. lia.
Qed.

Lemma in_dict_set {A : Type} (o : dict A) k v kv :
  In kv (dict_set o k v) -> kv = (k, v) \/ In kv o.
Proof.
  induction o as [ | [k0 v0] o IH]; simpl.
  - intros [<- | []]. now left.
  - destruct (String.eqb k k0) eqn:E; simpl.
    + apply String.eqb_eq in E. subst k0. intros [<- | H]; auto.
    + intros [<- | H]; auto. apply IH in H as [H | H]; auto.
Qed.

Lemma group_points_nonempty l kv : In kv (group_points l) -> snd kv <> [].
Proof.
  induction l as [ | n l IH] using rev_ind; [intros [] | ].
  rewrite group_points_snoc. unfold push_pure. intros H.
  apply in_dict_set in H as [-> | H]; [ | now apply IH].
  cbn [snd]. destruct (own (group_points l) (n_id n)) as [pts | ].
  - destruct pts; discriminate.
  - discriminate.
Qed.

Lemma total_points_sort_dedupe B o :
  (total_points (sort_dedupe_all B o) <= total_points o)%nat.
Proof.
  unfold total_points, sort_dedupe_all.
  induction o as [ | [k v] o IH]; simpl; [lia | ].
  pose proof (sort_dedupe_length B v). lia.
Qed.

Lemma accepted_length calls : (List.length (accepted calls) <= List.length calls)%nat.
Proof.
  induction calls as [ | [[n | ] | ] calls IH]; simpl; lia.
Qed.

Lemma all_calls_length B clock results : forall h,
  List.length (all_calls B clock h results)
  = list_sum (map (fun r => List.length (rows_of r)) results).
Proof.
  induction results as [ | r results IH]; intros h; [reflexivity | ].
  unfold all_calls. simpl. rewrite length_app.
  fold (all_calls B clock (S h) results). rewrite IH.
  unfold hour_calls. now rewrite mapi_from_length.
Qed.

Lemma first_appearances_length l :
  (List.length (first_appearances l) <= List.length l)%nat.
Proof.
  induction l as [ | x l IH]; simpl; [lia | ].
  pose proof (filter_length_le (fun y => negb (String.eqb y x))
                (first_appearances l)). lia.
Qed.

Lemma own_In {A : Type} (o : dict A) k v : own o k = Some v -> In (k, v) o.
Proof.
  induction o as [ | [k0 v0] o IH]; simpl; [discriminate | ].
  destruct (String.eqb k k0) eqn:E.
  - apply String.eqb_eq in E. subst k0. intros [= <-]. now left.
  - intros H. right. now apply IH.
Qed.

Lemma fetchLast24h_entries B clock up o stats :
  fetchLast24h B clock up = Normal (o, stats) ->
  forall kv, In kv o -> snd kv <> [] /\ StronglySorted ts_le (snd kv).
Proof.
  intros H. rewrite fetchLast24h_spec in H. cbv zeta in H.
  destruct (forallb call_ok _); [ | discriminate].
  assert (Ho : o = sort_dedupe_all B
                     (group_points
                        (accepted (all_calls B clock 0 (settled_hours up)))))
    by congruence.
  subst o. intros kv Hkv.
  unfold sort_dedupe_all in Hkv. apply in_map_iff in Hkv as ([k0 v0] & <- & Hin).
  cbn [snd fst]. split.
  - apply sort_dedupe_nonempty. apply (group_points_nonempty _ (k0, v0) Hin).
  - apply sort_dedupe_weakly_sorted.
Qed.

(** What the fetch returns is consistent: no id holds an empty trajectory,
    every trajectory is in ascending order of time, and the counts nest: the points held are at most [kept], the balloons at most
    [kept], [kept] at most [raw].  No row kept means no balloon, and
    conversely. *)
Theorem fetchLast24h_result_consistent :
  forall (B : Builtins) (clock : nat -> nat -> Z) (up : nat -> http_response)
         (o : dict (list Point)) (stats : IngestStats),
    fetchLast24h B clock up = Normal (o, stats) ->
    (forall k pts, own o k = Some pts ->
                   pts <> [] /\ StronglySorted ts_le pts)
    /\ (balloons stats <= total_points o <= kept stats)%nat
    /\ (kept stats <= raw stats)%nat
    /\ (kept stats = 0%nat <-> o = []).
Proof.
  intros B clock up o stats H.
  pose proof (fetchLast24h_entries B clock up o stats H) as Hent.
  rewrite fetchLast24h_spec in H. cbv zeta in H.
  destruct (forallb call_ok _); [ | discriminate].
  set (acc := accepted (all_calls B clock 0 (settled_hours up))) in *.
  assert (Ho : o = sort_dedupe_all B (group_points acc)) by congruence.
  assert (Hs : stats
               = {| raw := list_sum (map (fun r => List.length (rows_of r))
                                         (settled_hours up));
                    kept := List.length acc;
                    balloons :=
                      List.length (first_appearances (map n_id acc)) |})
    by congruence.
  clear H. subst stats. cbn [raw kept balloons].
  assert (Hkeys : insertion_order o = first_appearances (map n_id acc)).
  { subst o. unfold insertion_order. rewrite keys_sort_dedupe_all.
    apply group_points_keys. }
  repeat apply conj.
  - intros k pts Hk. apply (Hent (k, pts)). now apply own_In.
  - rewrite <- Hkeys. unfold insertion_order. rewrite length_map.
    unfold total_points. clear Ho Hkeys.
    induction o as [ | [k v] o IH]; simpl; [lia | ].
    assert (v <> []) by (apply (Hent (k, v)); now left).
    assert (List.length o
            <= list_sum (map (fun kv => List.length (snd kv)) o))%nat
      by (apply IH; intros kv Hkv; apply Hent; now right).
    destruct v; [contradiction | simpl; lia].
  - subst o. rewrite <- (total_points_group acc).
    apply total_points_sort_dedupe.
  - pose proof (all_calls_length B clock (settled_hours up) 0) as Hl.
    pose proof (accepted_length (all_calls B clock 0 (settled_hours up))) as Ha.
    fold acc in Ha. lia.
  - intros Hk. subst o. destruct acc as [ | n acc']; [reflexivity | discriminate].
  - intros E. destruct acc as [ | n acc']; [reflexivity | ].
    exfalso. rewrite E in Hkeys. simpl in Hkeys. discriminate.
Qed.

Lemma fetchLast24h_result_consistent_witness :
  let o := Sample.countdown_byId in
  let stats := {| raw := 51; kept := 51; balloons := 51 |} in
  (forall k pts, own o k = Some pts -> pts <> [] /\ StronglySorted ts_le pts)
  /\ (balloons stats <= total_points o <= kept stats)%nat.
Proof.
  cbv zeta.
  destruct (fetchLast24h_result_consistent Sample.builtins (fun _ _ => 0%Z)
              Sample.countdown_upstream Sample.countdown_byId
              {| raw := 51; kept := 51; balloons := 51 |}
              ltac:(vm_compute; reflexivity))
    as (H1 & H2 & _).
  split; [exact H1 | exact H2].
Defined.

Section Resorting.

Variable B : Builtins.
Hypothesis HB : key_faithful B.

Lemma sort_by_ts_fixed l : StronglySorted ts_lt l -> sort_by_ts l = l.
Proof.
  induction 1 as [ | p l Hs IH Hp]; [reflexivity | ].
  change (sort_by_ts (p :: l)) with (insert_sorted p (sort_by_ts l)).
  rewrite IH. destruct l as [ | q l]; [reflexivity | ].
  simpl. inversion Hp as [ | ? ? Hq _]; subst.
  assert (E : cmp_positive p q = false).
  { apply cmp_positive_false. now apply Qlt_le_weak. }
  now rewrite E.
Qed.

Lemma filter_seen_fixed l : forall seen,
  StronglySorted ts_lt l ->
  (forall p, In p l -> ~ In (ts_key B p) seen) ->
  filter_seen B seen l = l.
Proof.
  induction l as [ | p l IH]; intros seen Hs Hseen; [reflexivity | ].
  inversion Hs as [ | ? ? Hs' Hp]; subst. simpl.
  destruct (existsb (String.eqb (ts_key B p)) seen) eqn:E.
  - apply existsb_key in E. exfalso. apply (Hseen p); [now left | exact E].
  - f_equal. apply IH; [exact Hs' | ].
    intros q Hq [Hk | Hk].
    + apply (ts_key_eq B HB) in Hk.
      rewrite Forall_forall in Hp. specialize (Hp q Hq).
      unfold ts_lt in Hp. rewrite Hk in Hp. apply (Qlt_irrefl _ Hp).
    + apply (Hseen q); [now right | exact Hk].
Qed.

End Resorting.

(** Sorting and deduplicating a trajectory again changes nothing: the loop
    of [fetchLast24h] is idempotent on every list of points, and it leaves a
    list alone exactly when its timestamps are strictly increasing. *)
Theorem sort_dedupe_idempotent :
  forall B : Builtins,
    key_faithful B ->
    (forall pts, sort_dedupe B (sort_dedupe B pts) = sort_dedupe B pts)
    /\ (forall pts, sort_dedupe B pts = pts <-> StronglySorted ts_lt pts).
Proof.
  intros B HB.
  assert (Hfix : forall pts, StronglySorted ts_lt pts -> sort_dedupe B pts = pts).
  { intros pts Hs. unfold sort_dedupe. rewrite sort_by_ts_fixed by exact Hs.
    apply (filter_seen_fixed B HB); [exact Hs | intros p _ []]. }
  assert (Hsorted : forall pts, StronglySorted ts_lt (sort_dedupe B pts)).
  { intros pts. apply (filter_seen_sorted B HB), sort_by_ts_sorted. }
  split.
  - intros pts. apply Hfix, Hsorted.
  - intros pts. split; [ | apply Hfix].
    intros E. rewrite <- E. apply Hsorted.
Qed.

Lemma sort_dedupe_idempotent_witness :
  let a := {| lat := 0; lon := 0; ts := 7 |} in
  let b := {| lat := 1; lon := 1; ts := 3 |} in
  let c := {| lat := 2; lon := 2; ts := 7 |} in
  sort_dedupe Sample.builtins [a; b; c] = [b; a]
  /\ sort_dedupe Sample.builtins (sort_dedupe Sample.builtins [a; b; c])
     = sort_dedupe Sample.builtins [a; b; c].
Proof.
  cbv zeta. split; [vm_compute; reflexivity | ].
  destruct (sort_dedupe_idempotent Sample.builtins sample_key_faithful)
    as [H _].
  apply H.
Defined.

(** ** The time window *)

Lemma ge_Fin_mono (a b : Q) (c : num) :
  (a <= b)%Q -> ge (Fin a) c = true -> ge (Fin b) c = true.
Proof.
  intros Hab. destruct c as [x | | | ]; simpl; try easy.
  intros H. apply Qle_bool_iff in H. apply Qle_bool_iff.
  eapply Qle_trans; eassumption.
Qed.

Lemma ge_cutoff_mono (t : Q) (c c' : num) :
  ge c c' = true -> ge (Fin t) c = true -> ge (Fin t) c' = true.
Proof.
  destruct c as [x | | | ], c' as [y | | | ]; simpl; try easy.
  intros H1 H2. apply Qle_bool_iff in H1, H2. apply Qle_bool_iff.
  eapply Qle_trans; eassumption.
Qed.

Lemma window_points_cons c p l :
  window_points c (p :: l)
  = if ge (Fin (ts p)) c then p :: window_points c l else window_points c l.
Proof. reflexivity. Qed.

Lemma window_points_sorted c pts :
  StronglySorted ts_le pts -> StronglySorted ts_le (window_points c pts).
Proof.
  induction 1 as [ | p l Hs IH Hp]; [constructor | ].
  rewrite window_points_cons.
  destruct (ge (Fin (ts p)) c); [ | exact IH].
  constructor; [exact IH | ].
  rewrite Forall_forall in *. intros q Hq.
  apply filter_In in Hq as [Hq _]. now apply Hp.
Qed.

(** On a trajectory in ascending order the window is a suffix. *)
Lemma window_points_suffix c pts :
  StronglySorted ts_le pts ->
  exists older,
    pts = older ++ window_points c pts
    /\ Forall (fun p => ge (Fin (ts p)) c = false) older.
Proof.
  induction 1 as [ | p l Hs IH Hp].
  - exists []. split; [reflexivity | constructor].
  - rewrite window_points_cons. destruct (ge (Fin (ts p)) c) eqn:E.
    + exists []. split; [ | constructor]. simpl. f_equal.
      symmetry. apply filter_all_true. intros q Hq.
      rewrite Forall_forall in Hp. specialize (Hp q Hq).
      apply (ge_Fin_mono (ts p)); assumption.
    + destruct IH as (older & E1 & E2).
      exists (p :: older). split.
      * simpl. now rewrite <- E1.
      * now constructor.
Qed.

Lemma window_points_window c c' pts :
  ge c c' = true ->
  window_points c (window_points c' pts) = window_points c pts.
Proof.
  intros H.
  induction pts as [ | p l IH]; [reflexivity | ].
  rewrite !window_points_cons.
  destruct (ge (Fin (ts p)) c') eqn:E'.
  - rewrite window_points_cons. destruct (ge (Fin (ts p)) c); now rewrite IH.
  - destruct (ge (Fin (ts p)) c) eqn:E; [ | exact IH].
    rewrite (ge_cutoff_mono _ _ _ H E) in E'. discriminate.
Qed.

Lemma at_last_app {A : Type} (l1 l2 : list A) :
  l2 <> [] -> at_last (l1 ++ l2) = at_last l2.
Proof.
  intros H. unfold at_last. rewrite rev_app_distr.
  destruct (rev l2) eqn:E; [ | reflexivity].
  apply (f_equal (@rev A)) in E. rewrite rev_involutive in E. now subst.
Qed.

Lemma last_two {A : Type} (l : list A) :
  (2 <= List.length l)%nat -> exists pre x y, l = pre ++ [x; y].
Proof.
  intros H.
  destruct (rev l) as [ | y [ | x r]] eqn:E;
    apply (f_equal (@rev A)) in E; rewrite rev_involutive in E; subst;
    simpl in H; try lia.
  exists (rev r), x, y. simpl. now rewrite <- app_assoc.
Qed.

Lemma cutoff_whole (nowSec h : Z) :
  window_cutoff nowSec (of_Z h) = of_Z (nowSec - h * 3600).
Proof.
  unfold window_cutoff. change (Fin 3600) with (of_Z 3600).
  assert (E : mul (of_Z h) (of_Z 3600) = of_Z (h * 3600)).
  { unfold of_Z, mul, inject_Z, Qmult. cbn [Qnum Qden]. reflexivity. }
  rewrite E. apply sub_of_Z.
Qed.

Lemma ge_of_Z (a b : Z) : ge (of_Z a) (of_Z b) = (b <=? a)%Z.
Proof. unfold of_Z. cbn [ge]. apply Qle_bool_inject. Qed.

Lemma marker_kinematics_sorted B (t : track) c :
  StronglySorted ts_le (points t) ->
  (exists nowSec oid,
      driftKmh t = driftKmh (derive B nowSec (oid, points t))
      /\ headingDeg t = headingDeg (derive B nowSec (oid, points t))) ->
  marker_kinematics B {| w_track := t; _winPts := window_points c (points t) |}
  = (driftKmh t, headingDeg t).
Proof.
  intros Hs (nowSec & oid & Ed & Eh).
  unfold marker_kinematics. cbn [_winPts w_track].
  destruct (2 <=? List.length (window_points c (points t)))%nat eqn:E;
    [ | reflexivity].
  apply Nat.leb_le in E.
  destruct (last_two (window_points c (points t)) E) as (pre & x & y & Ew).
  destruct (window_points_suffix c (points t) Hs) as (older & Ep & _).
  rewrite Ew in *.
  destruct (nth_error_snoc2 pre x y) as [-> ->].
  rewrite Ed, Eh. unfold derive.
  rewrite Ep, app_assoc.
  destruct (nth_error_snoc2 (older ++ pre) x y) as [-> ->].
  assert (Hlen : (2 <=? List.length ((older ++ pre) ++ [x; y]))%nat = true).
  { apply Nat.leb_le. rewrite length_app. simpl. lia. }
  rewrite Hlen. reflexivity.
Qed.

(** For a trajectory in ascending order of time, as the fetch returns them:
    the window keeps a suffix of it, every older point dropped; a window that
    is not empty ends at the last point of the trajectory; a longer window
    holds a shorter one as its suffix; and the speed and bearing the marker's
    popup recomputes from the last two window points are the drift and the
    heading the track already carries, whatever the window. *)
Theorem window_is_suffix :
  forall (B : Builtins) (oid : string) (pts : list Point),
    StronglySorted ts_le pts ->
    (forall c, exists older,
        pts = older ++ window_points c pts
        /\ Forall (fun p => ge (Fin (ts p)) c = false) older)
    /\ (forall c, window_points c pts <> [] ->
                  at_last (window_points c pts) = at_last pts)
    /\ (forall (nowSec h h' : Z),
          (h <= h')%Z ->
          exists older,
            window_points (window_cutoff nowSec (of_Z h')) pts
            = older ++ window_points (window_cutoff nowSec (of_Z h)) pts)
    /\ (forall (nowSec : Z) c,
          let tr := derive B nowSec (oid, pts) in
          marker_kinematics B
            {| w_track := tr; _winPts := window_points c pts |}
          = (driftKmh tr, headingDeg tr)).
Proof.
  intros B oid pts Hs. repeat apply conj.
  - intros c. now apply window_points_suffix.
  - intros c Hne. destruct (window_points_suffix c pts Hs) as (older & E & _).
    rewrite E at 2. symmetry. now apply at_last_app.
  - intros nowSec h h' Hh.
    set (c := window_cutoff nowSec (of_Z h)).
    set (c' := window_cutoff nowSec (of_Z h')).
    assert (Hc : ge c c' = true).
    { unfold c, c'. rewrite !cutoff_whole, ge_of_Z. apply Z.leb_le. lia. }
    destruct (window_points_suffix c (window_points c' pts)
                (window_points_sorted c' pts Hs)) as (older & E & _).
    rewrite (window_points_window c c' pts Hc) in E. now exists older.
  - intros nowSec c tr.
    apply (marker_kinematics_sorted B tr c Hs).
    exists nowSec, oid. split; reflexivity.
Qed.

Lemma window_is_suffix_witness :
  let a := {| lat := 0; lon := 0; ts := 1000 |} in
  let b := {| lat := 0; lon := 1; ts := 4600 |} in
  let c := {| lat := 0; lon := 2; ts := 8200 |} in
  window_points (window_cutoff 10000 (of_Z 1)) [a; b; c] = [c]
  /\ at_last (window_points (window_cutoff 10000 (of_Z 1)) [a; b; c])
     = at_last [a; b; c]
  /\ (forall B,
        marker_kinematics B
          {| w_track := derive B 10000 ("a"%string, [a; b; c]);
             _winPts := window_points (window_cutoff 10000 (of_Z 1)) [a; b; c] |}
        = (driftKmh (derive B 10000 ("a"%string, [a; b; c])),
           headingDeg (derive B 10000 ("a"%string, [a; b; c])))).
Proof.
  cbv zeta.
  set (a := {| lat := 0; lon := 0; ts := 1000 |}).
  set (b := {| lat := 0; lon := 1; ts := 4600 |}).
  set (c := {| lat := 0; lon := 2; ts := 8200 |}).
  assert (Hs : StronglySorted ts_le [a; b; c]).
  { repeat constructor; unfold ts_le; simpl; discriminate. }
  split; [reflexivity | split].
  - destruct (window_is_suffix Sample.builtins "a"%string [a; b; c] Hs)
      as (_ & H & _).
    apply H. discriminate.
  - intros B.
    destruct (window_is_suffix B "a"%string [a; b; c] Hs) as (_ & _ & _ & H).
    apply H.
Defined.

(** ** Visible markers *)

Lemma find_tracksWindowed c s tracks :
  find (fun w => String.eqb (id (w_track w)) s) (tracksWindowed c tracks)
  = option_map
      (fun t => {| w_track := t; _winPts := window_points c (points t) |})
      (find (fun t => String.eqb (id t) s) tracks).
Proof.
  unfold tracksWindowed.
  induction tracks as [ | t l IH]; [reflexivity | ].
  simpl. destruct (String.eqb (id t) s); [reflexivity | exact IH].
Qed.

Lemma sampleByZoom_incl {A : Type} (l : list A) zoom x :
  In x (sampleByZoom l zoom) -> In x l.
Proof.
  unfold sampleByZoom. rewrite slice_0. intros H.
  rewrite <- (firstn_skipn (Nat.min
    (if ge (Fin 2) zoom then 0
     else if strict_eq zoom (Fin 3) then 120
     else if strict_eq zoom (Fin 4) then 300
     else if strict_eq zoom (Fin 5) then 600 else List.length l)
    (List.length l)) l).
  apply in_or_app. now left.
Qed.

Lemma prefix_NoDup {A : Type} (n : nat) (l : list A) (H : NoDup l) :
  NoDup (firstn n l).
Proof.
  rewrite <- (firstn_skipn n l) in H.
  now apply NoDup_app_remove_r in H.
Qed.

Lemma filter_keeps_distinct {A C : Type} (key : A -> C) (keep : A -> bool) :
  forall l : list A, NoDup (map key l) -> NoDup (map key (filter keep l)).
Proof.
  intros l. revert keep. intros p. set (f := key).
  induction l as [ | x l IH]; simpl; intros H; [constructor | ].
  inversion H as [ | ? ? Hx Hl]; subst.
  destruct (p x); simpl; [ | now apply IH].
  constructor; [ | now apply IH].
  intros Hin. apply Hx. apply in_map_iff in Hin as (y & E & Hy).
  apply filter_In in Hy as [Hy _]. apply in_map_iff. now exists y.
Qed.

Lemma baseMarkers_ids_NoDup c tracks zoom :
  NoDup (map id tracks) ->
  NoDup (map (fun w => id (w_track w)) (baseMarkers (tracksWindowed c tracks) zoom)).
Proof.
  intros H. unfold baseMarkers, sampleByZoom. rewrite slice_0.
  rewrite <- firstn_map. apply prefix_NoDup.
  apply filter_keeps_distinct.
  unfold tracksWindowed. rewrite map_map. exact H.
Qed.

Lemma existsb_id_In (s : string) (l : list wtrack) :
  existsb (fun t => String.eqb (id (w_track t)) s) l = true
  <-> In s (map (fun w => id (w_track w)) l).
Proof.
  rewrite existsb_exists, in_map_iff. split.
  - intros (x & Hx & E). apply String.eqb_eq in E. now exists x.
  - intros (x & E & Hx). exists x. split; [exact Hx | ].
    now apply String.eqb_eq.
Qed.

(** The markers one render shows.  Each is a track of the state with the
    points of its window, and its window is not empty.  A pinned track whose
    window is not empty is always among them, whatever the zoom allows;
    when the ids of the tracks are distinct no id is shown twice.  Pinning
    needs a non-empty id: the empty string pins nothing. *)
Theorem visible_markers_include_pinned :
  forall (tracks : list track) (pinnedId : option string) (nowSec : Z)
         (hoursBack zoom : num),
    let c := window_cutoff nowSec hoursBack in
    let shown := render_markers tracks pinnedId nowSec hoursBack zoom in
    (forall m, In m shown ->
               In (w_track m) tracks
               /\ _winPts m = window_points c (points (w_track m))
               /\ _winPts m <> [])
    /\ (forall t, pinned pinnedId tracks = Some t ->
                  window_points c (points t) <> [] ->
                  In (id t) (map (fun w => id (w_track w)) shown))
    /\ (NoDup (map id tracks) ->
        NoDup (map (fun w => id (w_track w)) shown))
    /\ render_markers tracks (Some EmptyString) nowSec hoursBack zoom
       = render_markers tracks None nowSec hoursBack zoom.
Proof.
  intros tracks pinnedId nowSec hoursBack zoom c shown.
  unfold render_markers in shown. fold c in shown.
  set (windowed := tracksWindowed c tracks) in *.
  set (base := baseMarkers windowed zoom) in *.
  assert (Hw : forall m, In m windowed ->
               In (w_track m) tracks
               /\ _winPts m = window_points c (points (w_track m))).
  { intros m Hm. unfold windowed, tracksWindowed in Hm.
    apply in_map_iff in Hm as (t & <- & Ht). now split. }
  assert (Hbase : forall m, In m base ->
               In (w_track m) tracks
               /\ _winPts m = window_points c (points (w_track m))
               /\ _winPts m <> []).
  { intros m Hm. unfold base, baseMarkers in Hm.
    apply sampleByZoom_incl in Hm. apply filter_In in Hm as [Hm Hn].
    destruct (Hw m Hm) as [H1 H2]. repeat split; try assumption.
    intros E. rewrite E in Hn. discriminate. }
  assert (Hpw : forall p, pinnedWindowed pinnedId tracks windowed = Some p ->
               exists t, pinned pinnedId tracks = Some t
                         /\ p = {| w_track := t;
                                   _winPts := window_points c (points t) |}).
  { intros p Hp. unfold pinnedWindowed in Hp.
    destruct (pinned pinnedId tracks) as [t | ] eqn:Et; [ | discriminate].
    exists t. split; [reflexivity | ].
    unfold windowed in Hp. rewrite find_tracksWindowed in Hp.
    assert (Hf : find (fun t0 => String.eqb (id t0) (id t)) tracks = Some t).
    { unfold pinned in Et. destruct pinnedId as [s | ]; [ | discriminate].
      destruct (String.eqb s EmptyString); [discriminate | ].
      pose proof (find_some _ _ Et) as [_ Eid].
      apply String.eqb_eq in Eid. now rewrite Eid. }
    rewrite Hf in Hp. simpl in Hp. now injection Hp as <-. }
  repeat apply conj.
  - intros m Hm. unfold shown, visibleMarkers in Hm.
    destruct (pinnedWindowed pinnedId tracks windowed) as [p | ] eqn:Ep;
      [ | now apply Hbase].
    destruct (nonempty (_winPts p) && _) eqn:En; [ | now apply Hbase].
    apply in_app_or in Hm as [Hm | [<- | []]]; [now apply Hbase | ].
    apply andb_true_iff in En as [En _].
    destruct (Hpw p eq_refl) as (t & Et & ->). cbn [w_track _winPts] in *.
    repeat split.
    + unfold pinned in Et. destruct pinnedId as [s | ]; [ | discriminate].
      destruct (String.eqb s EmptyString); [discriminate | ].
      now apply find_some in Et as [Et _].
    + intros E. rewrite E in En. discriminate.
  - intros t Et Hne. unfold shown, visibleMarkers.
    assert (Ep : pinnedWindowed pinnedId tracks windowed
                 = Some {| w_track := t;
                           _winPts := window_points c (points t) |}).
    { unfold pinnedWindowed. rewrite Et. unfold windowed.
      rewrite find_tracksWindowed.
      assert (Hf : find (fun t0 => String.eqb (id t0) (id t)) tracks = Some t).
      { unfold pinned in Et. destruct pinnedId as [s | ]; [ | discriminate].
        destruct (String.eqb s EmptyString); [discriminate | ].
        pose proof (find_some _ _ Et) as [_ Eid].
        apply String.eqb_eq in Eid. now rewrite Eid. }
      now rewrite Hf. }
    rewrite Ep. cbn [_winPts w_track].
    assert (En : nonempty (window_points c (points t)) = true)
      by (destruct (window_points c (points t)); [contradiction | reflexivity]).
    rewrite En. cbn [andb].
    destruct (existsb _ base) eqn:Eb; cbn [negb].
    + now apply existsb_id_In.
    + rewrite map_app. apply in_or_app. right. now left.
  - intros Hnd. unfold shown, visibleMarkers.
    pose proof (baseMarkers_ids_NoDup c tracks zoom Hnd) as Hb.
    fold windowed in Hb. fold base in Hb.
    destruct (pinnedWindowed pinnedId tracks windowed) as [p | ]; [ | exact Hb].
    destruct (nonempty (_winPts p)); cbn [andb]; [ | exact Hb].
    destruct (existsb _ base) eqn:Eb; cbn [negb]; [exact Hb | ].
    rewrite map_app. simpl.
    apply NoDup_app; [exact Hb | repeat constructor; intros [] | ].
    intros a Ha [<- | []]. apply existsb_id_In in Ha. congruence.
  - reflexivity.
Qed.

(** ** Risk shown and the watchlist *)

Lemma Qfloor_half (k : Z) : Qfloor (inject_Z k + (1 # 2)) = k.
Proof.
  unfold Qfloor, inject_Z, Qplus. cbn [Qnum Qden].
  change (Z.pos (1 * 2)) with 2%Z.
  symmetry. apply Z.div_unique with (r := 1%Z); lia.
Qed.

Lemma round_of_Z (k : Z) : round (of_Z k) = of_Z k.
Proof. unfold of_Z, round. now rewrite Qfloor_half. Qed.

(** The risk the interface prints is always a whole number from 0 to 100 when
    the track's risk is a finite number, and 0 when the track has none; it
    is the track's risk itself whenever that is already a whole number in
    range, as every score [computeRisk] gives for a drift that is not
    negative.  A NaN risk prints as NaN. *)
Theorem normRisk_clamps :
  forall B : Builtins,
    (forall v, nullish v = true -> normRisk B v = Normal (of_Z 0))
    /\ (forall q : Q,
          normRisk B (VNum (Fin q))
          = Normal (of_Z (Z.max 0 (Z.min 100 (Qfloor (q + (1 # 2)))))))
    /\ (forall k : Z, (0 <= k <= 100)%Z ->
                      normRisk B (VNum (of_Z k)) = Normal (of_Z k))
    /\ (forall dr hv d7v d5v w7v w5v heading d7 d5 w7 w5,
          (0 <= dr)%Q ->
          reads_as hv heading -> reads_as d7v d7 -> reads_as d5v d5 ->
          reads_as w7v w7 -> reads_as w5v w5 ->
          exists k : Z,
            computeRisk B (VNum (Fin dr)) hv d7v d5v w7v w5v
            = Normal (VNum (of_Z k))
            /\ normRisk B (VNum (of_Z k)) = Normal (of_Z k))
    /\ normRisk B (VNum NaN) = Normal NaN.
Proof.
  intros B.
  assert (Hq : forall q : Q,
             normRisk B (VNum (Fin q))
             = Normal (of_Z (Z.max 0 (Z.min 100 (Qfloor (q + (1 # 2))))))).
  { intros q. unfold normRisk. cbn [coalesce nullish ToNumber bind round].
    change (Fin 100) with (of_Z 100). change (Fin 0) with (of_Z 0).
    fold (of_Z (Qfloor (q + (1 # 2)))).
    now rewrite min_of_Z, max_of_Z. }
  assert (Hk : forall k : Z, (0 <= k <= 100)%Z ->
                             normRisk B (VNum (of_Z k)) = Normal (of_Z k)).
  { intros k Hk. unfold of_Z at 1. rewrite Hq, Qfloor_half. f_equal. f_equal. lia. }
  repeat apply conj.
  - intros v Hv. unfold normRisk, coalesce. rewrite Hv.
    apply (Hk 0%Z). lia.
  - exact Hq.
  - exact Hk.
  - intros dr hv d7v d5v w7v w5v heading d7 d5 w7 w5 Hdr H1 H2 H3 H4 H5.
    eexists. split.
    + now apply (computeRisk_numbers B dr hv d7v d5v w7v w5v heading d7 d5 w7 w5).
    + apply Hk.
      apply risk_score_bounds; [exact Hdr | apply mismatch_deg_nonneg
                               | apply shear_of_nonneg].
  - reflexivity.
Qed.

Section Watchlist.

Variable B : Builtins.

Lemma by_risk_ranked a b :
  ranked a = true -> ranked b = true ->
  by_risk B a b = Normal (Fin (rank_of b + - rank_of a)).
Proof.
  unfold ranked, rank_of, by_risk. intros Ha Hb.
  destruct (risk a) as [ | | | [qa | | | ] | | | ]; try discriminate;
    destruct (risk b) as [ | | | [qb | | | ] | | | ]; try discriminate;
    reflexivity.
Qed.

Lemma gt_diff_pos (x y : Q) : gt (Fin (x + - y)) (Fin 0) = true <-> (y < x)%Q.
Proof. rewrite gt_Fin_true. split; intros H; lra. Qed.

Lemma insert_by_risk_spec t l :
  ranked t = true -> Forall (fun x => ranked x = true) l ->
  exists r,
    insert_by_risk B t l = Normal r
    /\ Permutation r (t :: l)
    /\ (StronglySorted rank_ge l -> StronglySorted rank_ge r)
    /\ (forall q, filter (same_rank q) r = filter (same_rank q) (t :: l)).
Proof.
  intros Ht Hl. induction Hl as [ | x l Hx Hl IH].
  - exists [t]. repeat split; auto. intros _. repeat constructor.
  - destruct IH as (r & Er & Hperm & Hsorted & Hstable).
    cbn [insert_by_risk]. rewrite (by_risk_ranked t x Ht Hx). cbn [bind].
    destruct (gt (Fin (rank_of x + - rank_of t)) (Fin 0)) eqn:E.
    + apply gt_diff_pos in E. rewrite Er. cbn [bind].
      exists (x :: r). repeat split.
      * rewrite Hperm. apply perm_swap.
      * intros Hs. inversion Hs as [ | ? ? Hs' Hall]; subst.
        constructor; [now apply Hsorted | ].
        rewrite Hperm. constructor; [ | exact Hall].
        unfold rank_ge. now apply Qlt_le_weak.
      * intros q. cbn [filter]. rewrite Hstable. cbn [filter].
        destruct (same_rank q x) eqn:Ex, (same_rank q t) eqn:Et;
          try reflexivity.
        unfold same_rank in Ex, Et. apply Qeq_bool_iff in Ex, Et.
        exfalso. rewrite Ex, Et in E. apply (Qlt_irrefl _ E).
    + exists (t :: x :: l). repeat split; auto.
      intros Hs. constructor; [exact Hs | ].
      assert (Hle : (rank_of x <= rank_of t)%Q).
      { apply Qnot_lt_le. intros Hlt. apply gt_diff_pos in Hlt. congruence. }
      inversion Hs as [ | ? ? Hs' Hall]; subst.
      constructor; [exact Hle | ].
      eapply Forall_impl; [ | exact Hall].
      intros y Hy. unfold rank_ge in *. eapply Qle_trans; eassumption.
Qed.

Lemma sort_by_risk_spec l :
  Forall (fun x => ranked x = true) l ->
  exists s,
    sort_by_risk B l = Normal s
    /\ Permutation s l
    /\ StronglySorted rank_ge s
    /\ (forall q, filter (same_rank q) s = filter (same_rank q) l).
Proof.
  induction 1 as [ | t l Ht Hl IH].
  - exists []. repeat split; auto. constructor.
  - destruct IH as (s & Es & Hperm & Hsorted & Hstable).
    assert (Hs : Forall (fun x => ranked x = true) s).
    { rewrite Forall_forall in *. intros x Hx. apply Hl.
      eapply Permutation_in; eassumption. }
    destruct (insert_by_risk_spec t s Ht Hs) as (r & Er & Hp & Hso & Hst).
    cbn [sort_by_risk]. rewrite Es. cbn [bind].
    exists r. repeat split.
    + exact Er.
    + rewrite Hp. now constructor.
    + now apply Hso.
    + intros q. rewrite Hst. cbn [filter]. now rewrite Hstable.
Qed.

End Watchlist.

Lemma StronglySorted_split {A : Type} (R : A -> A -> Prop) (l1 l2 : list A) :
  StronglySorted R (l1 ++ l2) ->
  forall a b, In a l1 -> In b l2 -> R a b.
Proof.
  induction l1 as [ | x l1 IH]; simpl; intros Hs a b Ha Hb; [contradiction | ].
  inversion Hs as [ | ? ? Hs' Hall]; subst.
  destruct Ha as [<- | Ha].
  - rewrite Forall_forall in Hall. apply Hall. apply in_or_app. now right.
  - now apply (IH Hs').
Qed.

(** The watchlist, when every risk is a finite number or absent.  It holds
    the first 100 tracks of the state reordered by decreasing risk, a track
    without risk counting as -1; tracks of equal risk keep the order they
    have in the state; and no track left out has a higher risk than a track
    listed. *)
Theorem watchlist_top_by_risk :
  forall (B : Builtins) (tracks : list track),
    Forall (fun t => ranked t = true) tracks ->
    exists sorted,
      sort_by_risk B tracks = Normal sorted
      /\ watchlist B tracks = Normal (firstn WATCHLIST_LIMIT sorted)
      /\ Permutation sorted tracks
      /\ StronglySorted rank_ge sorted
      /\ (forall q, filter (same_rank q) sorted = filter (same_rank q) tracks)
      /\ (forall a b,
            In a (firstn WATCHLIST_LIMIT sorted) ->
            In b (skipn WATCHLIST_LIMIT sorted) ->
            (rank_of b <= rank_of a)%Q)
      /\ List.length (firstn WATCHLIST_LIMIT sorted)
         = Nat.min WATCHLIST_LIMIT (List.length tracks).
Proof.
  intros B tracks H.
  destruct (sort_by_risk_spec B tracks H) as (s & Es & Hperm & Hsorted & Hst).
  exists s. repeat apply conj; try assumption.
  - unfold watchlist. rewrite Es. cbn [bind]. now rewrite slice_0.
  - intros a b Ha Hb.
    rewrite <- (firstn_skipn WATCHLIST_LIMIT s) in Hsorted.
    apply (StronglySorted_split rank_ge _ _ Hsorted a b Ha Hb).
  - rewrite length_firstn. now rewrite (Permutation_length Hperm).
Qed.

Lemma watchlist_top_by_risk_witness :
  let a := SampleTracks.with_risk "a" (VNum (Fin 10)) in
  let b := SampleTracks.with_risk "b" VUndefined in
  let c := SampleTracks.with_risk "c" (VNum (Fin 50)) in
  let d := SampleTracks.with_risk "d" (VNum (Fin 10)) in
  watchlist Sample.builtins [a; b; c; d] = Normal [c; a; d; b].
Proof.
  cbv zeta. set (B := Sample.builtins).
  set (l := [SampleTracks.with_risk "a" (VNum (Fin 10));
             SampleTracks.with_risk "b" VUndefined;
             SampleTracks.with_risk "c" (VNum (Fin 50));
             SampleTracks.with_risk "d" (VNum (Fin 10))]).
  destruct (watchlist_top_by_risk B l ltac:(repeat constructor))
    as (s & Es & Ew & _).
  rewrite Ew. f_equal.
  assert (E : sort_by_risk B l
              = Normal [SampleTracks.with_risk "c" (VNum (Fin 50));
                        SampleTracks.with_risk "a" (VNum (Fin 10));
                        SampleTracks.with_risk "d" (VNum (Fin 10));
                        SampleTracks.with_risk "b" VUndefined])
    by reflexivity.
  rewrite E in Es. injection Es as <-. reflexivity.
Defined.

(** ** The angle between two directions *)

Section Angles.

Local Open Scope Q_scope.

Lemma Qfloor_unique (x : Q) (m : Z) :
  inject_Z m <= x -> x < inject_Z m + 1 -> Qfloor x = m.
Proof.
  intros H1 H2.
  pose proof (Qfloor_le x) as F1. pose proof (Qlt_floor x) as F2.
  rewrite inject_Z_plus in F2. change (inject_Z 1) with 1 in F2.
  assert (A : inject_Z (Qfloor x) < inject_Z (m + 1)).
  { rewrite inject_Z_plus. change (inject_Z 1) with 1. lra. }
  assert (C : inject_Z m < inject_Z (Qfloor x + 1)).
  { rewrite inject_Z_plus. change (inject_Z 1) with 1. lra. }
  rewrite <- Zlt_Qlt in A, C. lia.
Qed.






End Angles.

(** ** The age label *)

Section AgeLabel.

Local Open Scope Q_scope.

Lemma gt_Fin_false a b : gt (Fin a) (Fin b) = false <-> a <= b.
Proof.
  unfold gt. rewrite negb_false_iff. apply Qle_bool_iff.
Qed.

Lemma Qfloor_between (x : Q) (lo hi : Z) :
  inject_Z lo <= x -> x < inject_Z hi + 1 -> (lo <= Qfloor x <= hi)%Z.
Proof.
  intros H1 H2.
  pose proof (Qfloor_le x) as F1. pose proof (Qlt_floor x) as F2.
  rewrite inject_Z_plus in F2. change (inject_Z 1) with 1 in F2.
  assert (A : inject_Z (Qfloor x) < inject_Z (hi + 1)).
  { rewrite inject_Z_plus. change (inject_Z 1) with 1. lra. }
  assert (C : inject_Z lo < inject_Z (Qfloor x + 1)).
  { rewrite inject_Z_plus. change (inject_Z 1) with 1. lra. }
  rewrite <- Zlt_Qlt in A, C. lia.
Qed.

(** The unit of the age label follows the age: seconds below 90 s, minutes
    from 90 s up to 90 min, hours from 90 min on, and a dash when there is no
    age.  The number of seconds shown is the age rounded, hence at most 90
    (and not negative for an age that is not); the number of minutes shown
    is a whole number from 2 to 90, so the label never reads 0m or 1m; the
    hours are printed with one decimal, from 1.5 on. *)
Theorem fmtAge_units :
  forall B : Builtins,
    fmtAge_label B None = em_dash
    /\ (forall q : Q,
          q < 90 ->
          exists k : Z,
            fmtAge_label B (Some (Fin q))
            = (NumberToString B (of_Z k) ++ "s")%string
            /\ k = Qfloor (q + (1 # 2))
            /\ (k <= 90)%Z /\ (0 <= q -> (0 <= k)%Z))
    /\ (forall q : Q,
          90 <= q -> q < 5400 ->
          exists k : Z,
            fmtAge_label B (Some (Fin q))
            = (NumberToString B (of_Z k) ++ "m")%string
            /\ k = Qfloor (q / 60 + (1 # 2))
            /\ (2 <= k <= 90)%Z)
    /\ (forall q : Q,
          5400 <= q ->
          exists h : Q,
            fmtAge_label B (Some (Fin q))
            = (Number_toFixed B (Fin h) 1 ++ "h")%string
            /\ h == q / 3600 /\ 3 # 2 <= h).
Proof.
  intros B. repeat apply conj.
  - reflexivity.
  - intros q Hq. exists (Qfloor (q + (1 # 2))).
    split; [ | split; [reflexivity | ]].
    + unfold fmtAge_label, fmtAge.
      assert (E : gt (Fin 90) (Fin q) = true) by now apply gt_Fin_true.
      rewrite E. reflexivity.
    + split.
      * apply (Qfloor_between (q + (1 # 2)) (Qfloor (q + (1 # 2))) 90).
        -- apply Qfloor_le.
        -- change (inject_Z 90) with 90. lra.
      * intros H0.
        apply (Qfloor_between (q + (1 # 2)) 0 (Qfloor (q + (1 # 2)))).
        -- change (inject_Z 0) with 0. lra.
        -- pose proof (Qlt_floor (q + (1 # 2))) as F.
           rewrite inject_Z_plus in F. exact F.
  - intros q H1 H2. exists (Qfloor (q / 60 + (1 # 2))).
    assert (Hm1 : 3 # 2 <= q / 60)
      by (apply Qle_shift_div_l; [reflexivity | lra]).
    assert (Hm2 : q / 60 < 90)
      by (apply Qlt_shift_div_r; [reflexivity | lra]).
    split; [ | split; [reflexivity | ]].
    + unfold fmtAge_label, fmtAge.
      assert (E : gt (Fin 90) (Fin q) = false) by now apply gt_Fin_false.
      rewrite E. rewrite div_Fin_pos by reflexivity.
      assert (E' : gt (Fin 90) (Fin (q / 60)) = true) by now apply gt_Fin_true.
      rewrite E'. reflexivity.
    + apply Qfloor_between.
      * change (inject_Z 2) with 2. lra.
      * change (inject_Z 90) with 90. lra.
  - intros q Hq. exists (q / 60 / 60).
    assert (Hm : 90 <= q / 60)
      by (apply Qle_shift_div_l; [reflexivity | lra]).
    split; [ | split].
    + unfold fmtAge_label, fmtAge.
      assert (E : gt (Fin 90) (Fin q) = false) by (apply gt_Fin_false; lra).
      rewrite E. rewrite div_Fin_pos by reflexivity.
      assert (E' : gt (Fin 90) (Fin (q / 60)) = false) by now apply gt_Fin_false.
      rewrite E'. rewrite div_Fin_pos by reflexivity. reflexivity.
    + field.
    + apply Qle_shift_div_l; [reflexivity | lra].
Qed.

End AgeLabel.

(** ** Rows without nested values *)

Lemma ToNumber_primitive B v :
  primitive v = true -> exists n, ToNumber B v = Normal n.
Proof.
  destruct v as [ | | [ | ] | n | s | l | o]; try discriminate; simpl; eauto.
Qed.

Lemma ToString_primitive B v :
  primitive v = true -> exists s, ToString B v = Normal s.
Proof.
  destruct v as [ | | [ | ] | n | s | l | o]; try discriminate; simpl; eauto.
Qed.

Lemma prop_primitive o k :
  forallb (fun kv => primitive (snd kv)) o = true -> primitive (prop o k) = true.
Proof.
  unfold prop. induction o as [ | [k0 v0] o IH]; simpl; [reflexivity | ].
  intros H. apply andb_true_iff in H as [H1 H2].
  destruct (String.eqb k k0); [exact H1 | now apply IH].
Qed.

Lemma coalesce_primitive a b :
  primitive a = true -> primitive b = true -> primitive (a ?? b) = true.
Proof. intros Ha Hb. unfold coalesce. now destruct (nullish a). Qed.

Lemma nth_primitive l k :
  forallb primitive l = true -> primitive (nth k l VUndefined) = true.
Proof.
  revert k. induction l as [ | x l IH]; intros [ | k] H; simpl; try reflexivity;
    apply andb_true_iff in H as [H1 H2]; [exact H1 | now apply IH].
Qed.

(** On a row none of whose fields (or elements) is an array or an object,
    [normalizeRow] never throws, and it accepts the row exactly when both of
    its coordinate values convert to finite numbers.  Whatever is not an
    object or an array of two elements or more is rejected.  A coordinate
    that is [null] converts to 0 and [true] to 1: the positional row
    [[null, true]] is accepted as the point (0, 1). *)
Theorem normalizeRow_flat_rows :
  forall (B : Builtins) (now : Z) (h i : nat),
    (forall row,
        flat_row row = true ->
        exists r,
          normalizeRow B now row h i = Normal r
          /\ (r <> None <->
              exists latv lonv la lo,
                row_latlon row = Some (latv, lonv)
                /\ ToNumber B latv = Normal (Fin la)
                /\ ToNumber B lonv = Normal (Fin lo)))
    /\ (forall row,
          row_latlon row = None -> normalizeRow B now row h i = Normal None)
    /\ (forall rest,
          normalizeRow B now (VArr (VNull :: VBool true :: rest)) h i
          = Normal (Some {| n_id := synth_id B i; n_lat := 0; n_lon := 1;
                            n_ts := synth_ts now h |})).
Proof.
  intros B now h i. repeat apply conj.
  - intros row Hflat.
    destruct row as [ | | b | n | s | l | o];
      try (exists None; split; [reflexivity | ];
           split; [intros H; now contradiction H
                  | intros (? & ? & ? & ? & H & _); discriminate]).
    + (* positional *)
      unfold normalizeRow, row_latlon. cbn [flat_row] in Hflat.
      destruct (2 <=? List.length l)%nat.
      2:{ exists None. split; [reflexivity | ].
          split; [intros H; now contradiction H
                 | intros (? & ? & ? & ? & H & _); discriminate]. }
      destruct (ToNumber_primitive B _ (nth_primitive l 0 Hflat)) as (x & Ex).
      destruct (ToNumber_primitive B _ (nth_primitive l 1 Hflat)) as (y & Ey).
      rewrite Ex, Ey. cbn [bind].
      destruct x as [la | | | ], y as [lo | | | ];
        (eexists; split; [reflexivity | ]);
        (split;
         [ intros H; try (now contradiction H);
           exists (nth 0 l VUndefined), (nth 1 l VUndefined);
           do 2 eexists; repeat split; eassumption
         | intros (latv & lonv & la' & lo' & E & E1 & E2);
           injection E as <- <-; try discriminate; congruence ]).
    + (* keyed *)
      unfold normalizeRow, row_latlon. cbn [flat_row] in Hflat.
      pose proof (fun k => prop_primitive o k Hflat) as Hp.
      set (latv := prop o "lat" ?? prop o "latitude").
      set (lonv := prop o "lon" ?? prop o "lng" ?? prop o "longitude").
      set (tsv := prop o "ts" ?? prop o "timestamp" ?? prop o "time" ?? VNull).
      set (idv := prop o "id" ?? prop o "balloon_id" ?? prop o "identifier"
                    ?? prop o "name" ?? prop o "ID" ?? VStr (synth_id B i)).
      assert (Hlat : primitive latv = true)
        by (unfold latv; auto using coalesce_primitive).
      assert (Hlon : primitive lonv = true)
        by (unfold lonv; auto using coalesce_primitive).
      assert (Hts : primitive tsv = true)
        by (unfold tsv; repeat apply coalesce_primitive; auto).
      assert (Hid : primitive idv = true)
        by (unfold idv; repeat apply coalesce_primitive; auto).
      destruct (ToNumber_primitive B latv Hlat) as (x & Ex).
      destruct (ToNumber_primitive B lonv Hlon) as (y & Ey).
      destruct (ToNumber_primitive B tsv Hts) as (t & Et).
      destruct (ToString_primitive B idv Hid) as (sid & Es).
      rewrite Ex, Ey, Et. cbn [bind].
      destruct x as [la | | | ], y as [lo | | | ];
        try rewrite Es; cbn [bind];
        (eexists; split; [reflexivity | ]);
        (split;
         [ intros H; try (now contradiction H);
           exists latv, lonv; do 2 eexists; repeat split; eassumption
         | intros (latv' & lonv' & la' & lo' & E & E1 & E2);
           injection E as <- <-; try discriminate; congruence ]).
  - intros row H. unfold row_latlon in H. unfold normalizeRow.
    destruct row as [ | | b | n | s | l | o]; try reflexivity.
    + destruct (2 <=? List.length l)%nat; [discriminate | reflexivity].
    + discriminate.
  - intros rest. reflexivity.
Qed.

(** ** The tracks a load leaves in the state *)

Lemma derive_drift_defined B nowSec oid pts :
  driftKmh (derive B nowSec (oid, pts)) <> None -> (2 <= List.length pts)%nat.
Proof.
  unfold derive. cbn [driftKmh].
  destruct (2 <=? List.length pts)%nat eqn:E.
  - intros _. now apply Nat.leb_le.
  - intros H. now contradiction H.
Qed.

Lemma own_fold_dict_set_In {A : Type} (es : list (string * A)) : forall o k v,
  own (fold_left (fun o kv => dict_set o (fst kv) (snd kv)) es o) k = Some v ->
  own o k = Some v \/ In (k, v) es.
Proof.
  induction es as [ | [k0 v0] es IH]; intros o k v H; simpl in *; [now left | ].
  apply IH in H as [H | H]; [ | now right; right].
  rewrite own_dict_set in H.
  destruct (String.eqb k k0) eqn:E; [ | now left].
  apply String.eqb_eq in E. subst k0. injection H as <-. right. now left.
Qed.

Lemma own_fromEntries_In {A : Type} (es : list (string * A)) k v :
  own (Object_fromEntries es) k = Some v -> In (k, v) es.
Proof.
  intros H. apply own_fold_dict_set_In in H as [H | H]; [discriminate | exact H].
Qed.

Lemma fulfilled_In B net items : forall i kp,
  In kp (fulfilled_values
           (mapi_from (fun j tr => enrich_one B tr (net j)) i items)) ->
  exists tr j, In tr items /\ enrich_one B tr (net j) = Fulfilled kp.
Proof.
  induction items as [ | tr items IH]; intros i kp H; simpl in *; [contradiction | ].
  destruct (enrich_one B tr (net i)) as [v | ] eqn:E.
  - destruct H as [<- | H].
    + exists tr, i. split; [now left | exact E].
    + apply IH in H as (tr' & j & Hin & E'). exists tr', j. split; [now right | exact E'].
  - apply IH in H as (tr' & j & Hin & E'). exists tr', j. split; [now right | exact E'].
Qed.

Lemma enrich_one_risk B tr r k p rv :
  enrich_one B tr r = Fulfilled (k, p) ->
  p_risk p = Some rv -> rv <> VUndefined ->
  k = id tr /\ driftKmh tr <> None.
Proof.
  unfold enrich_one. destruct (at_last (points tr)).
  - destruct (computeRisk _ _ _ _ _ _ _) as [rv' | ] eqn:E; [ | discriminate].
    intros [= <- <-]. cbn [p_risk]. intros [= ->] Hrv.
    split; [reflexivity | ].
    intros Hd. rewrite Hd in E. cbn [opt_value] in E.
    unfold computeRisk in E. cbn [nullish] in E. congruence.
  - intros [= <- <-]. discriminate.
Qed.

Lemma NoDup_map_nth_error {A C : Type} (f : A -> C) (l : list A) j k a b :
  NoDup (map f l) ->
  nth_error l j = Some a -> nth_error l k = Some b -> f a = f b -> j = k.
Proof.
  intros Hnd Hj Hk E.
  rewrite NoDup_nth_error in Hnd. apply Hnd.
  - rewrite length_map. apply nth_error_Some. congruence.
  - rewrite (map_nth_error f _ _ Hj), (map_nth_error f _ _ Hk). now rewrite E.
Qed.

Lemma fetchLast24h_balloons B clock up o stats :
  fetchLast24h B clock up = Normal (o, stats) ->
  balloons stats = List.length (Object_keys o).
Proof.
  unfold fetchLast24h. intros H.
  apply bind_Normal_inv in H as (st & _ & H).
  injection H as <- <-. reflexivity.
Qed.

(** What a run of [load] leaves in the state.  The published list has one
    track per balloon of the ingest statistics; every track holds at least
    one point, in ascending order of time, and an age that is a number and
    not negative.  After enrichment a track carries a risk only if it is
    among the first [ENRICH_SUBSET] of the list and has two points or more.
    In every window the speed and bearing of a marker's popup are the drift
    and heading of its track. *)
Theorem load_state_consistent :
  forall (B : Builtins) (net : nat -> http_response) (clock : nat -> nat -> Z)
         (up : nat -> http_response) (nowSec : Z) (r : loaded),
    load B net clock up nowSec = Normal (Some r) ->
    List.length (published r) = balloons (ingestStats r)
    /\ List.length (enriched r) = balloons (ingestStats r)
    /\ (forall t, In t (published r) \/ In t (enriched r) ->
          points t <> []
          /\ StronglySorted ts_le (points t)
          /\ (exists a : Q, _ageSec t = Some (Fin a) /\ (0 <= a)%Q)
          /\ (forall c,
                marker_kinematics B
                  {| w_track := t; _winPts := window_points c (points t) |}
                = (driftKmh t, headingDeg t)))
    /\ (forall k t,
          nth_error (enriched r) k = Some t ->
          risk t <> VUndefined ->
          (k < ENRICH_SUBSET)%nat /\ (2 <= List.length (points t))%nat).
Proof.
  intros B net clock up nowSec r H.
  apply load_inv in H as (o & stats & Hf & Hp & Hst & He).
  set (patch := Object_fromEntries _) in He.
  set (tracks := build_list B nowSec o) in *.
  assert (Hnd : NoDup (map id tracks)).
  { unfold tracks. rewrite build_list_ids.
    eapply fetchLast24h_keys_NoDup, Hf. }
  assert (Hlen : List.length tracks = balloons stats).
  { unfold tracks, build_list. rewrite length_map.
    rewrite (Permutation_length (Object_entries_perm o)).
    rewrite (fetchLast24h_balloons B clock up o stats Hf).
    now rewrite Object_keys_length. }
  assert (Hpub : forall t, In t tracks ->
             points t <> [] /\ StronglySorted ts_le (points t)
             /\ (exists a : Q, _ageSec t = Some (Fin a) /\ (0 <= a)%Q)
             /\ (exists now oid,
                   driftKmh t = driftKmh (derive B now (oid, points t))
                   /\ headingDeg t = headingDeg (derive B now (oid, points t)))).
  { intros t Ht. unfold tracks, build_list in Ht.
    apply in_map_iff in Ht as ([k pts] & <- & Hin).
    apply (Permutation_in _ (Object_entries_perm o)) in Hin.
    destruct (fetchLast24h_entries B clock up o stats Hf (k, pts) Hin)
      as [Hne Hs]. cbn [snd] in Hne, Hs.
    assert (Hpts : points (derive B nowSec (k, pts)) = pts) by reflexivity.
    rewrite Hpts. repeat split; try assumption.
    - destruct (exists_last Hne) as (pre & last & ->).
      unfold derive. rewrite at_last_snoc. cbn [_ageSec].
      unfold of_Z. rewrite sub_Fin.
      eexists. split; [reflexivity | ]. apply Q.le_max_l.
    - exists nowSec, k. split; reflexivity. }
  assert (Hmerge : forall t, points (merge_patch patch t) = points t
                             /\ driftKmh (merge_patch patch t) = driftKmh t
                             /\ headingDeg (merge_patch patch t) = headingDeg t
                             /\ _ageSec (merge_patch patch t) = _ageSec t)
    by (intros t; repeat split).
  assert (Hall : forall t, In t tracks \/ In t (map (merge_patch patch) tracks) ->
             points t <> [] /\ StronglySorted ts_le (points t)
             /\ (exists a : Q, _ageSec t = Some (Fin a) /\ (0 <= a)%Q)
             /\ (exists now oid,
                   driftKmh t = driftKmh (derive B now (oid, points t))
                   /\ headingDeg t = headingDeg (derive B now (oid, points t)))).
  { intros t [Ht | Ht]; [now apply Hpub | ].
    apply in_map_iff in Ht as (t0 & <- & Ht0).
    destruct (Hmerge t0) as (-> & -> & -> & ->). now apply Hpub. }
  rewrite Hp, He, Hst. repeat apply conj.
  - exact Hlen.
  - now rewrite length_map.
  - intros t Ht. destruct (Hall t Ht) as (H1 & H2 & H3 & H4).
    repeat split; try assumption.
    intros c. now apply marker_kinematics_sorted.
  - intros k t Hk Hrisk.
    rewrite nth_error_map in Hk.
    destruct (nth_error tracks k) as [t0 | ] eqn:Ek; [ | discriminate].
    cbn [option_map] in Hk. injection Hk as <-.
    assert (Ht0 : In t0 tracks) by (eapply nth_error_In; eassumption).
    assert (Hr0 : risk t0 = VUndefined).
    { unfold tracks, build_list in Ht0.
      apply in_map_iff in Ht0 as (entry & <- & _). apply derive_unenriched. }
    unfold merge_patch in Hrisk. cbn [risk] in Hrisk.
    destruct (own patch (id t0)) as [p | ] eqn:Eown;
      [ | cbn [empty_patch p_risk] in Hrisk; congruence].
    destruct (p_risk p) as [rv | ] eqn:Erv; [ | congruence].
    apply own_fromEntries_In in Eown.
    apply fulfilled_In in Eown as (tr & j & Hin & Eone).
    destruct (enrich_one_risk B tr (net j) (id t0) p rv Eone Erv Hrisk)
      as [Eid Hdrift].
    rewrite slice_0 in Hin.
    apply In_nth_error in Hin as (i & Hi).
    assert (Hi50 : (i < ENRICH_SUBSET)%nat).
    { assert (i < List.length (firstn ENRICH_SUBSET tracks))%nat
        by (apply nth_error_Some; congruence).
      rewrite length_firstn in H. lia. }
    rewrite nth_error_firstn in Hi.
    assert (Hi' : nth_error tracks i = Some tr).
    { destruct (i <? ENRICH_SUBSET)%nat eqn:E; [exact Hi | ].
      apply Nat.ltb_ge in E. lia. }
    assert (i = k)
      by (apply (NoDup_map_nth_error id tracks i k tr t0 Hnd Hi' Ek);
          now symmetry).
    subst i. assert (tr = t0) by congruence. subst tr.
    split; [exact Hi50 | ].
    cbn [points].
    destruct (Hpub t0 Ht0) as (_ & _ & _ & now' & oid & Ed & _).
    rewrite Ed in Hdrift. now apply derive_drift_defined in Hdrift.
Qed.

Lemma load_state_consistent_witness :
  let up (h : nat) :=
    match h with
    | 0%nat => Response true
                 (Some (VArr [Sample.keyed_row "a" 10; Sample.keyed_row "b" 20]))
    | 1%nat => Response true (Some (VArr [Sample.keyed_row "a" 30]))
    | _ => NetworkError
    end in
  exists r,
    load Sample.builtins (fun _ => NetworkError) (fun _ _ => 0%Z) up 100
    = Normal (Some r)
    /\ map (fun t => List.length (points t)) (published r) = [2; 1]%nat
    /\ List.length (published r) = balloons (ingestStats r)
    /\ (forall k t, nth_error (enriched r) k = Some t ->
                    risk t <> VUndefined ->
                    (k < ENRICH_SUBSET)%nat /\ (2 <= List.length (points t))%nat).
Proof.
  cbv zeta. eexists. split; [vm_compute; reflexivity | ].
  split; [reflexivity | ].
  match goal with
  | |- List.length (published ?r) = _ /\ _ =>
      destruct (load_state_consistent Sample.builtins (fun _ => NetworkError)
                  (fun _ _ => 0%Z)
                  (fun h =>
                     match h with
                     | 0%nat => Response true
                                  (Some (VArr [Sample.keyed_row "a" 10;
                                               Sample.keyed_row "b" 20]))
                     | 1%nat => Response true
                                  (Some (VArr [Sample.keyed_row "a" 30]))
                     | _ => NetworkError
                     end)
                  100%Z r ltac:(vm_compute; reflexivity))
        as (Hlen & _ & _ & Hrisk)
  end.
  split; [exact Hlen | exact Hrisk].
Defined.

(** ** Enrichment with a batch size of zero *)

Lemma enrich_rounds_stuck B net fuel (items : list track) i :
  (i < List.length items)%nat -> enrich_rounds B net fuel items 0 i = None.
Proof.
  revert i. induction fuel as [ | fuel IH]; intros i Hi.
  - simpl. apply Nat.ltb_lt in Hi. now rewrite Hi.
  - cbn [enrich_rounds]. apply Nat.ltb_lt in Hi as Hi'. rewrite Hi'.
    rewrite Nat.add_0_r. now rewrite IH.
Qed.

Lemma enrich_trace_zero n i tr : (i < n)%nat -> ~ enrich_trace n 0 i tr.
Proof.
  intros Hi Htr. remember 0%nat as b eqn:Eb.
  induction Htr as [j Hge | j order rest Hlt Hperm Hrest IH]; [lia | ].
  subst b. rewrite Nat.add_0_r in *. now apply IH.
Qed.

(** With a batch size of 0 the loop of [enrichInBatches] makes no progress:
    over at least one item it never ends, however many iterations it is
    given, and it has no finite run; over no item it returns the empty list
    at once, for any batch size. *)
Theorem enrichInBatches_zero_batch :
  forall (B : Builtins) (net : nat -> http_response) (items : list track),
    (items <> [] ->
     (forall fuel, enrich_rounds B net fuel items 0 0 = None)
     /\ enrichInBatches B net items 0 = None
     /\ forall tr, ~ enrich_trace (List.length items) 0 0 tr)
    /\ (forall b, enrichInBatches B net [] b = Some []).
Proof.
  intros B net items. split.
  - intros Hne.
    assert (Hlen : (0 < List.length items)%nat)
      by (destruct items; [contradiction | simpl; lia]).
    repeat apply conj.
    + intros fuel. now apply enrich_rounds_stuck.
    + unfold enrichInBatches. now rewrite enrich_rounds_stuck.
    + intros tr. now apply enrich_trace_zero.
  - intros b. destruct b; reflexivity.
Qed.

(** ** CSV export *)

Lemma count_char_app c s1 s2 :
  count_char c (s1 ++ s2) = (count_char c s1 + count_char c s2)%nat.
Proof.
  induction s1 as [ | x s1 IH]; [reflexivity | ].
  simpl. rewrite IH. lia.
Qed.

Lemma sample_print_pos_count c p k :
  c <> "0"%char -> c <> "1"%char -> c <> "."%char ->
  count_char c (Sample.print_pos p k) = count_char c k.
Proof.
  intros H0 H1 Hd.
  assert (E0 : Ascii.eqb "0" c = false) by (apply Ascii.eqb_neq; congruence).
  assert (E1 : Ascii.eqb "1" c = false) by (apply Ascii.eqb_neq; congruence).
  assert (Ed : Ascii.eqb "." c = false) by (apply Ascii.eqb_neq; congruence).
  induction p as [p IH | p IH | ]; cbn [Sample.print_pos count_char].
  - rewrite E1. exact IH.
  - rewrite E0. exact IH.
  - now rewrite E1, Ed.
Qed.

Lemma sample_prints_without_comma : prints_without Sample.builtins ","%char.
Proof.
  assert (H : forall n, count_char "," (Sample.print_num n) = 0%nat).
  { intros [q | | | ]; try reflexivity.
    unfold Sample.print_num, Sample.print_Q, Sample.print_Z.
    destruct (Qnum (Qred q)); simpl;
      rewrite !sample_print_pos_count by discriminate; reflexivity. }
  split; [exact H | intros n d; apply H].
Qed.

(** The line the export writes for a track.  It does not depend on the
    window when the points are in ascending order of time: the position
    written is that of the last point of the track.  No field is quoted or
    escaped: when numbers print without a comma and the risk is a number or
    absent, the line holds six commas more than the id does, hence seven
    fields exactly when the id holds no comma. *)
Theorem csv_line_fields :
  forall (B : Builtins) (t : track),
    (StronglySorted ts_le (points t) ->
     forall c,
       csv_line B {| w_track := t; _winPts := window_points c (points t) |}
       = csv_line B {| w_track := t; _winPts := [] |})
    /\ (prints_without B ","%char ->
        ranked t = true ->
        forall w, exists line,
          csv_line B {| w_track := t; _winPts := w |} = Normal line
          /\ count_char "," line = (6 + count_char "," (id t))%nat).
Proof.
  intros B t. split.
  - intros Hs c. unfold csv_line. cbn [w_track _winPts nonempty].
    destruct (window_points c (points t)) as [ | p l] eqn:E; [reflexivity | ].
    cbn [nonempty].
    assert (Hl : at_last (p :: l) = at_last (points t)).
    { rewrite <- E.
      destruct (window_points_suffix c (points t) Hs) as (older & Ep & _).
      rewrite Ep at 2. symmetry. apply at_last_app. rewrite E. discriminate. }
    now rewrite Hl.
  - intros [Hn Hf] Hr w. unfold csv_line. cbn [w_track _winPts].
    assert (Hrisk : exists s,
               (if nullish (risk t) then Normal EmptyString
                else ToString B (risk t)) = Normal s
               /\ count_char "," s = 0%nat).
    { unfold ranked in Hr.
      destruct (risk t) as [ | | ? | [q | | | ] | ? | ? | ? ]; try discriminate;
        cbn [nullish ToString]; eexists; split; try reflexivity; apply Hn. }
    destruct Hrisk as (s & -> & Hs). cbn [bind].
    eexists. split; [reflexivity | ].
    cbn [join_with]. rewrite !count_char_app. cbn [count_char Ascii.eqb Bool.eqb].
    rewrite Hs.
    assert (H1 : forall o : option Point,
               count_char ","
                 match o with
                 | Some p => NumberToString B (Fin (lat p))
                 | None => EmptyString
                 end = 0%nat)
      by (intros [p | ]; [apply Hn | reflexivity]).
    assert (H2 : forall o : option Point,
               count_char ","
                 match o with
                 | Some p => NumberToString B (Fin (lon p))
                 | None => EmptyString
                 end = 0%nat)
      by (intros [p | ]; [apply Hn | reflexivity]).
    assert (H3 : forall o : option num,
               count_char ","
                 match o with
                 | Some d => Number_toFixed B d 1
                 | None => EmptyString
                 end = 0%nat)
      by (intros [d | ]; [apply Hf | reflexivity]).
    rewrite H1, H2, !H3.
    destruct (_stale t); simpl; lia.
Qed.

Lemma csv_line_fields_witness :
  let t := SampleTracks.with_risk "a,b" (VNum (Fin 10)) in
  exists line,
    csv_line Sample.builtins {| w_track := t; _winPts := [] |} = Normal line
    /\ count_char "," line = 7%nat.
Proof.
  cbv zeta.
  destruct (csv_line_fields Sample.builtins
              (SampleTracks.with_risk "a,b" (VNum (Fin 10)))) as [_ H].
  destruct (H sample_prints_without_comma eq_refl []) as (line & E & Hc).
  exists line. split; [exact E | exact Hc].
Defined.

Lemma count_char_join c sep (l : list string) :
  count_char c (join_with sep l)
  = (list_sum (map (count_char c) l)
     + (List.length l - 1) * count_char c sep)%nat.
Proof.
  induction l as [ | s l IH]; [reflexivity | ].
  destruct l as [ | s' l'].
  - simpl. lia.
  - change (join_with sep (s :: s' :: l'))
      with (s ++ sep ++ join_with sep (s' :: l'))%string.
    rewrite !count_char_app, IH. simpl. lia.
Qed.

Lemma csv_line_breaks B (t : track) (w : list Point) :
  prints_without B LF -> ranked t = true ->
  exists line,
    csv_line B {| w_track := t; _winPts := w |} = Normal line
    /\ count_char LF line = count_char LF (id t).
Proof.
  intros [Hn Hf] Hr. unfold csv_line. cbn [w_track _winPts].
  assert (Hrisk : exists s,
             (if nullish (risk t) then Normal EmptyString
              else ToString B (risk t)) = Normal s
             /\ count_char LF s = 0%nat).
  { unfold ranked in Hr.
    destruct (risk t) as [ | | ? | [q | | | ] | ? | ? | ? ]; try discriminate;
      cbn [nullish ToString]; eexists; split; try reflexivity; apply Hn. }
  destruct Hrisk as (s & -> & Hs). cbn [bind].
  eexists. split; [reflexivity | ].
  rewrite count_char_join. cbn [map List.length].
  unfold list_sum. cbn [fold_right]. rewrite Hs.
  assert (H1 : forall o : option Point,
             count_char LF
               match o with
               | Some p => NumberToString B (Fin (lat p))
               | None => EmptyString
               end = 0%nat)
    by (intros [p | ]; [apply Hn | reflexivity]).
  assert (H2 : forall o : option Point,
             count_char LF
               match o with
               | Some p => NumberToString B (Fin (lon p))
               | None => EmptyString
               end = 0%nat)
    by (intros [p | ]; [apply Hn | reflexivity]).
  assert (H3 : forall o : option num,
             count_char LF
               match o with
               | Some d => Number_toFixed B d 1
               | None => EmptyString
               end = 0%nat)
    by (intros [d | ]; [apply Hf | reflexivity]).
  rewrite H1, H2, !H3.
  destruct (_stale t); cbn; lia.
Qed.

(** The text of the export holds the header and then one line per row, in
    the order of the rows.  Nothing is escaped here either: when numbers
    print without a line break and every risk is a number or absent, the
    text holds as many line breaks as there are rows, plus those of the ids;
    so it has one line per row after the header exactly when no id holds a
    line break. *)
Theorem csv_text_line_breaks :
  forall (B : Builtins) (rows : list wtrack),
    prints_without B LF ->
    Forall (fun r => ranked (w_track r) = true) rows ->
    exists lines text,
      csv_lines B rows = Normal lines
      /\ csv_text B rows = Normal text
      /\ List.length lines = List.length rows
      /\ text = join_with (String LF EmptyString)
                  ("id,lat,lon,speed_kmh,bearing_deg,risk,stale"%string :: lines)
      /\ count_char LF text
         = (List.length rows
            + list_sum (map (fun r => count_char LF (id (w_track r))) rows))%nat.
Proof.
  intros B rows HB Hr.
  assert (Hl : exists lines,
             csv_lines B rows = Normal lines
             /\ List.length lines = List.length rows
             /\ list_sum (map (count_char LF) lines)
                = list_sum (map (fun r => count_char LF (id (w_track r))) rows)).
  { induction Hr as [ | r rows Hx Hrows IH].
    - exists []. repeat split.
    - destruct IH as (lines & El & Hlen & Hsum).
      destruct r as [t w].
      destruct (csv_line_breaks B t w HB Hx) as (line & E & Hc).
      cbn [csv_lines]. rewrite E, El. cbn [bind].
      exists (line :: lines). repeat split.
      + simpl. now rewrite Hlen.
      + change (list_sum (map (count_char LF) (line :: lines)))
          with (count_char LF line + list_sum (map (count_char LF) lines))%nat.
        rewrite Hc, Hsum. reflexivity. }
  destruct Hl as (lines & El & Hlen & Hsum).
  exists lines. eexists. split; [exact El | ].
  unfold csv_text. rewrite El. cbn [bind].
  split; [reflexivity | ]. split; [exact Hlen | ]. split; [reflexivity | ].
  rewrite count_char_join.
  change (list_sum (map (count_char LF) (join_with "," csv_header :: lines)))
    with (count_char LF (join_with "," csv_header)
          + list_sum (map (count_char LF) lines))%nat.
  rewrite Hsum. cbn [List.length]. rewrite Hlen.
  change (count_char LF (join_with "," csv_header)) with 0%nat.
  replace (count_char LF (String (ascii_of_nat 10) EmptyString)) with 1%nat
    by reflexivity.
  lia.
Qed.

Lemma sample_prints_without_LF : prints_without Sample.builtins LF.
Proof.
  assert (H : forall n, count_char LF (Sample.print_num n) = 0%nat).
  { intros [q | | | ]; try reflexivity.
    unfold Sample.print_num, Sample.print_Q, Sample.print_Z.
    destruct (Qnum (Qred q)); cbn [count_char];
      rewrite !sample_print_pos_count by discriminate; reflexivity. }
  split; [exact H | intros n d; apply H].
Qed.

Lemma csv_text_line_breaks_witness :
  let a := {| w_track := SampleTracks.with_risk "a" (VNum (Fin 10)); _winPts := [] |} in
  let b := {| w_track := SampleTracks.with_risk "b" VUndefined; _winPts := [] |} in
  exists text,
    csv_text Sample.builtins [a; b] = Normal text
    /\ count_char LF text = 2%nat.
Proof.
  cbv zeta.
  destruct (csv_text_line_breaks Sample.builtins
              [ {| w_track := SampleTracks.with_risk "a" (VNum (Fin 10));
                   _winPts := [] |};
                {| w_track := SampleTracks.with_risk "b" VUndefined;
                   _winPts := [] |} ]
              sample_prints_without_LF ltac:(repeat constructor))
    as (lines & text & _ & E & _ & _ & Hc).
  exists text. split; [exact E | exact Hc].
Defined.

(** ** When the fetch throws *)

Lemma In_mapi_from {A C : Type} (f : nat -> A -> C) (l : list A) : forall s y,
  In y (mapi_from f s l) <->
  exists j x, nth_error l j = Some x /\ y = f (s + j)%nat x.
Proof.
  induction l as [ | a l IH]; intros s y; simpl.
  - split; [intros [] | intros (j & x & H & _); destruct j; discriminate].
  - rewrite IH. split.
    + intros [<- | (j & x & Hj & ->)].
      * exists 0%nat, a. split; [reflexivity | now rewrite Nat.add_0_r].
      * exists (S j), x. split; [exact Hj | f_equal; lia].
    + intros ([ | j] & x & Hj & ->).
      * left. injection Hj as <-. now rewrite Nat.add_0_r.
      * right. exists j, x. split; [exact Hj | f_equal; lia].
Qed.

Lemma In_all_calls B clock up c :
  In c (all_calls B clock 0 (settled_hours up)) <->
  exists h i row,
    (h < 24)%nat
    /\ nth_error (rows_of (fetch_json (up h))) i = Some row
    /\ c = normalizeRow B (clock h i) row h i.
Proof.
  unfold all_calls. rewrite in_concat. split.
  - intros (calls & Hc & Hin).
    apply In_mapi_from in Hc as (h & res & Hh & ->). cbn [Nat.add] in Hin.
    unfold hour_calls in Hin.
    apply In_mapi_from in Hin as (i & row & Hi & ->). cbn [Nat.add].
    unfold settled_hours in Hh. rewrite nth_error_map in Hh.
    destruct (nth_error (seq 0 24) h) as [h' | ] eqn:E; [ | discriminate].
    assert (Hlt : (h < 24)%nat).
    { assert (h < List.length (seq 0 24))%nat
        by (apply nth_error_Some; congruence).
      now rewrite length_seq in H. }
    rewrite nth_error_seq in E.
    assert (h' = h).
    { destruct (h <? 24)%nat; [ | discriminate]. injection E as <-. reflexivity. }
    subst h'. cbn [option_map] in Hh. injection Hh as <-.
    exists h, i, row. repeat split; assumption.
  - intros (h & i & row & Hh & Hi & ->).
    exists (hour_calls B clock h (fetch_json (up h))). split.
    + apply In_mapi_from. exists h, (fetch_json (up h)). split; [ | reflexivity].
      unfold settled_hours. rewrite nth_error_map, nth_error_seq.
      apply Nat.ltb_lt in Hh. now rewrite Hh.
    + unfold hour_calls. apply In_mapi_from. exists i, row. now split.
Qed.

(** [fetchLast24h] throws exactly when some row of some hour that answered
    with an array makes [normalizeRow] throw, or is accepted under an id that
    names a member of [Object.prototype].  [normalizeRow] throws on a keyed
    row whose latitude, longitude or timestamp value is an object with an
    own [toString] property. *)
Theorem fetchLast24h_throws_exactly_when :
  forall (B : Builtins) (clock : nat -> nat -> Z) (up : nat -> http_response),
    (fetchLast24h B clock up = Throw <->
     exists h i row,
       (h < 24)%nat
       /\ nth_error (rows_of (fetch_json (up h))) i = Some row
       /\ (normalizeRow B (clock h i) row h i = Throw
           \/ exists n, normalizeRow B (clock h i) row h i = Normal (Some n)
                        /\ inherited (n_id n) = true))
    /\ (forall now h i o props,
          has_own props "toString" = true ->
          prop o "lat" ?? prop o "latitude" = VObj props
          \/ prop o "lon" ?? prop o "lng" ?? prop o "longitude" = VObj props
          \/ prop o "ts" ?? prop o "timestamp" ?? prop o "time" ?? VNull
             = VObj props ->
          normalizeRow B now (VObj o) h i = Throw).
Proof.
  intros B clock up. split.
  - rewrite fetchLast24h_spec. cbv zeta.
    destruct (forallb call_ok _) eqn:E.
    + split; [discriminate | ].
      intros (h & i & row & Hh & Hi & Hbad). exfalso.
      rewrite forallb_forall in E.
      assert (Hin : In (normalizeRow B (clock h i) row h i)
                       (all_calls B clock 0 (settled_hours up)))
        by (apply In_all_calls; exists h, i, row; repeat split; assumption).
      specialize (E _ Hin).
      destruct Hbad as [Hbad | (n & Hbad & Hinh)]; rewrite Hbad in E.
      * discriminate.
      * cbn [call_ok] in E. rewrite Hinh in E. discriminate.
    + split; [intros _ | reflexivity].
      assert (Hex : exists c, In c (all_calls B clock 0 (settled_hours up))
                              /\ call_ok c = false).
      { clear -E. induction (all_calls B clock 0 (settled_hours up)) as [ | c l IH];
          [discriminate | ].
        simpl in E. apply andb_false_iff in E as [E | E].
        - exists c. split; [now left | exact E].
        - destruct (IH E) as (c' & Hin & Hc). exists c'. split; [now right | exact Hc]. }
      destruct Hex as (c & Hin & Hc).
      apply In_all_calls in Hin as (h & i & row & Hh & Hi & ->).
      exists h, i, row. repeat split; try assumption.
      destruct (normalizeRow B (clock h i) row h i) as [[n | ] | ];
        [ | discriminate | now left].
      right. exists n. split; [reflexivity | ].
      cbn [call_ok] in Hc. now apply negb_false_iff in Hc.
  - intros now h i o props Hp [E | [E | E]]; unfold normalizeRow; rewrite E;
      cbn [ToNumber]; rewrite Hp; cbn [bind].
    + reflexivity.
    + now destruct (ToNumber B (prop o "lat" ?? prop o "latitude")).
    + destruct (ToNumber B (prop o "lat" ?? prop o "latitude")); [ | reflexivity].
      cbn [bind].
      now destruct (ToNumber B (prop o "lon" ?? prop o "lng" ?? prop o "longitude")).
Qed.

(** ** What the winds add to the risk *)

Section WindsAdd.

Local Open Scope Q_scope.




End WindsAdd.

(** ** Distances *)

Section Distances.

Local Open Scope Q_scope.

Variable B : Builtins.
Hypothesis HT : trig_facts B.

Lemma mul_comm_num (x y : num) : mul x y = mul y x.
Proof.
  destruct x as [a | | | ], y as [b | | | ]; try reflexivity.
  unfold mul. f_equal. unfold Qmult.
  destruct a as [an ad], b as [bn bd]. cbn [Qnum Qden].
  f_equal; [apply Z.mul_comm | apply Pos.mul_comm].
Qed.

Lemma sq_neg (x : num) : sq (neg x) = sq x.
Proof.
  destruct x as [a | | | ]; try reflexivity.
  unfold sq, neg, mul. f_equal. unfold Qmult, Qopp.
  destruct a as [an ad]. cbn [Qnum Qden]. f_equal. ring.
Qed.

Lemma toRad_Fin (q : Q) :
  toRad (Fin q) = Fin (q * (884279719003555 # 281474976710656) / 180).
Proof.
  unfold toRad, Math_PI. rewrite mul_Fin. now rewrite div_Fin_pos.
Qed.

Lemma half_angle (q : Q) :
  div (toRad (Fin q)) (Fin 2)
  = Fin (q * (884279719003555 # 281474976710656) / 180 / 2).
Proof. rewrite toRad_Fin. now rewrite div_Fin_pos. Qed.

Lemma sq_sin_half_sym (p q : Q) :
  sq (Math_sin B (div (toRad (sub (Fin p) (Fin q))) (Fin 2)))
  = sq (Math_sin B (div (toRad (sub (Fin q) (Fin p))) (Fin 2))).
Proof.
  rewrite !sub_Fin, !half_angle.
  rewrite <- sq_neg, <- (sin_odd HT).
  f_equal. apply (sin_ext HT). field.
Qed.

Lemma haversineMeters_sym (a b : Point) :
  haversineMeters B a b = haversineMeters B b a.
Proof.
  unfold haversineMeters. cbv zeta.
  rewrite (sq_sin_half_sym (lat b) (lat a)).
  rewrite (sq_sin_half_sym (lon b) (lon a)).
  now rewrite (mul_comm_num (Math_cos B (toRad (Fin (lat a))))).
Qed.

Lemma sin_half_zero (p q : Q) :
  p == q ->
  Math_sin B (div (toRad (sub (Fin p) (Fin q))) (Fin 2)) = Fin 0.
Proof.
  intros E. rewrite sub_Fin, half_angle.
  rewrite <- (sin_0 HT). apply (sin_ext HT). rewrite E. field.
Qed.

Lemma haversineMeters_same_place (a b : Point) :
  lat a == lat b -> lon a == lon b ->
  exists z, haversineMeters B a b = Fin z /\ z == 0.
Proof.
  intros Hlat Hlon. unfold haversineMeters. cbv zeta.
  rewrite (sin_half_zero (lat b) (lat a)) by (now symmetry).
  rewrite (sin_half_zero (lon b) (lon a)) by (now symmetry).
  rewrite !toRad_Fin.
  destruct (cos_finite HT (lat a * (884279719003555 # 281474976710656) / 180))
    as (c1 & ->).
  destruct (cos_finite HT (lat b * (884279719003555 # 281474976710656) / 180))
    as (c2 & ->).
  unfold sq. rewrite !mul_Fin, !add_Fin.
  assert (E : Math_sqrt B (Fin (0 * 0 + c1 * c2 * (0 * 0))) = Fin 0).
  { rewrite <- (sqrt_0 HT). apply (sqrt_ext HT). ring. }
  rewrite E, (asin_0 HT), mul_Fin.
  eexists. split; [reflexivity | ring].
Qed.

End Distances.

(** When the sine is odd and the mathematical functions do not depend on how
    a number is written, the distance between two points is the same in both
    directions.  Between two points at the same place it is 0: a track
    whose last two points are at the same place has drift 0, gap distance 0
    and no gap flag, and its risk without wind data is 0. *)
Theorem haversineMeters_symmetric_zero :
  forall B : Builtins,
    trig_facts B ->
    (forall a b, haversineMeters B a b = haversineMeters B b a)
    /\ (forall (nowSec : Z) (oid : string) (pre : list Point) (prev last : Point),
          (lat prev == lat last)%Q -> (lon prev == lon last)%Q ->
          let tr := derive B nowSec (oid, pre ++ [prev; last]) in
          (exists d, driftKmh tr = Some (Fin d) /\ (d == 0)%Q)
          /\ (exists g, _gapKm tr = Fin g /\ (g == 0)%Q)
          /\ _gap tr = false
          /\ computeRisk B (opt_value (driftKmh tr)) (opt_value (headingDeg tr))
               VUndefined VUndefined VUndefined VUndefined
             = Normal (VNum (of_Z 0))).
Proof.
  intros B HT. split; [apply (haversineMeters_sym B HT) | ].
  intros nowSec oid pre prev last Hlat Hlon tr.
  destruct (haversineMeters_same_place B HT prev last Hlat Hlon) as (z & Ez & Hz).
  assert (Hd : driftKmh tr
               = Some (div (div (Fin z) (Fin 1000))
                           (Fin (elapsed_hours prev last)))
               /\ _gapKm tr = div (Fin z) (Fin 1000)
               /\ _gap tr = gt (div (Fin z) (Fin 1000)) (Fin 300)).
  { subst tr. unfold derive.
    destruct (nth_error_snoc2 pre prev last) as [-> ->].
    assert (Hlen : (2 <=? List.length (pre ++ [prev; last]))%nat = true).
    { apply Nat.leb_le. rewrite length_app. simpl. lia. }
    rewrite Hlen. cbn [driftKmh _gapKm _gap]. rewrite Ez.
    repeat split. }
  destruct Hd as (Hd & Hg & Hgap).
  assert (Hpos : (0 < elapsed_hours prev last)%Q).
  { unfold elapsed_hours.
    apply Qlt_le_trans with (1 # 1000000); [reflexivity | apply Q.le_max_r]. }
  rewrite (div_Fin_pos z 1000) in Hd, Hg, Hgap by reflexivity.
  rewrite (div_Fin_pos _ _ Hpos) in Hd.
  assert (Ed : (z / 1000 / elapsed_hours prev last == 0)%Q).
  { rewrite Hz. unfold Qdiv. ring. }
  repeat apply conj.
  - eexists. split; [exact Hd | exact Ed].
  - eexists. split; [exact Hg | ]. rewrite Hz. reflexivity.
  - rewrite Hgap. apply gt_Fin_false. rewrite Hz. discriminate.
  - rewrite Hd. cbn [opt_value]. rewrite computeRisk_without_winds.
    rewrite (div_Fin_pos _ 100) by reflexivity.
    rewrite min_Fin, mul_Fin, round_Fin. unfold of_Z. do 4 f_equal.
    assert (E : (Qmin (z / 1000 / elapsed_hours prev last / 100) 1 == 0)%Q).
    { rewrite Ed. reflexivity. }
    apply Qfloor_unique; change (inject_Z 0) with 0%Q; rewrite E;
      [discriminate | reflexivity].
Qed.

Lemma sample_trig_facts : trig_facts SampleTrig.builtins.
Proof.
  split; try reflexivity.
  intros x. now exists 1%Q.
Qed.

Lemma haversineMeters_symmetric_zero_witness :
  let prev := {| lat := 10; lon := 20; ts := 1000 |} in
  let last := {| lat := 10; lon := 20; ts := 4600 |} in
  _gap (derive SampleTrig.builtins 10000 ("a"%string, [prev; last])) = false
  /\ haversineMeters SampleTrig.builtins prev last
     = haversineMeters SampleTrig.builtins last prev.
Proof.
  cbv zeta.
  destruct (haversineMeters_symmetric_zero SampleTrig.builtins sample_trig_facts)
    as [Hsym Hzero].
  split.
  - destruct (Hzero 10000%Z "a"%string []
                {| lat := 10; lon := 20; ts := 1000 |}
                {| lat := 10; lon := 20; ts := 4600 |}
                ltac:(reflexivity) ltac:(reflexivity)) as (_ & _ & H & _).
    exact H.
  - apply Hsym.
Defined.

(** ** Instances *)

Lemma sampleByZoom_staircase_witness :
  sampleByZoom (seq 0 200) (Fin 3) = seq 0 120
  /\ sampleByZoom (seq 0 200) (Fin (5 # 2)) = seq 0 200
  /\ exists rest,
       sampleByZoom (seq 0 200) (of_Z 4) = sampleByZoom (seq 0 200) (of_Z 3) ++ rest.
Proof.
  destruct (sampleByZoom_staircase nat (seq 0 200))
    as (_ & _ & H3 & _ & _ & Hfrac & _ & Hmono).
  split; [rewrite H3; reflexivity | split].
  - apply Hfrac; [reflexivity | | | ]; intros H; discriminate H.
  - apply Hmono. lia.
Defined.

Lemma visible_markers_include_pinned_witness :
  let a := SampleTracks.with_risk "a" VUndefined in
  let b := SampleTracks.with_risk "b" VUndefined in
  map (fun w => id (w_track w))
      (render_markers [a; b] (Some "b"%string) 3600 (of_Z 1) (of_Z 2))
  = ["b"%string]
  /\ In (id b)
        (map (fun w => id (w_track w))
             (render_markers [a; b] (Some "b"%string) 3600 (of_Z 1) (of_Z 2))).
Proof.
  cbv zeta. split; [reflexivity | ].
  destruct (visible_markers_include_pinned
              [SampleTracks.with_risk "a" VUndefined;
               SampleTracks.with_risk "b" VUndefined]
              (Some "b"%string) 3600 (of_Z 1) (of_Z 2)) as (_ & H & _).
  apply (H (SampleTracks.with_risk "b" VUndefined)); [reflexivity | discriminate].
Defined.

Lemma normRisk_clamps_witness :
  normRisk Sample.builtins (VNum (of_Z 39)) = Normal (of_Z 39)
  /\ normRisk Sample.builtins (VNum (Fin (-20))) = Normal (of_Z 0)
  /\ normRisk Sample.builtins VUndefined = Normal (of_Z 0).
Proof.
  destruct (normRisk_clamps Sample.builtins) as (Hn & Hq & Hk & _).
  split; [apply Hk; lia | split].
  - rewrite Hq. reflexivity.
  - apply Hn. reflexivity.
Defined.

Lemma fmtAge_units_witness :
  fmtAge_label Sample.builtins (Some (Fin 90))
  = (NumberToString Sample.builtins (of_Z 2) ++ "m")%string
  /\ fmtAge_label Sample.builtins (Some (Fin (179 # 2)))
     = (NumberToString Sample.builtins (of_Z 90) ++ "s")%string.
Proof.
  destruct (fmtAge_units Sample.builtins) as (_ & Hs & Hm & _).
  split.
  - destruct (Hm 90%Q ltac:(discriminate) ltac:(reflexivity)) as (k & E & Ek & _).
    rewrite E, Ek. reflexivity.
  - destruct (Hs (179 # 2)%Q ltac:(reflexivity)) as (k & E & Ek & _).
    rewrite E, Ek. reflexivity.
Defined.

Lemma normalizeRow_flat_rows_witness :
  let row := VObj [("id", VNum (Fin 7)); ("lat", VNull); ("latitude", VNull);
                   ("lon", VStr "x")]%string in
  flat_row row = true
  /\ exists r, normalizeRow Sample.builtins 0 row 0 0 = Normal r.
Proof.
  cbv zeta. split; [reflexivity | ].
  destruct (normalizeRow_flat_rows Sample.builtins 0 0 0) as (H & _).
  destruct (H (VObj [("id", VNum (Fin 7)); ("lat", VNull); ("latitude", VNull);
                     ("lon", VStr "x")]%string) eq_refl) as (r & E & _).
  exists r. exact E.
Defined.


Lemma enrichInBatches_zero_batch_witness :
  enrichInBatches Sample.builtins (fun _ => NetworkError) Sample.ten_tracks 0
  = None.
Proof.
  destruct (enrichInBatches_zero_batch Sample.builtins (fun _ => NetworkError)
              Sample.ten_tracks) as [H _].
  destruct (H ltac:(discriminate)) as (_ & E & _). exact E.
Defined.
